(** * Gmt: the 2D geometry kernel (points, segments, poly-lines, polygons,
    circles; Distance, Collision and Intersection calculators)

    The JavaScript source computes on [Number]s.  The embedding below is
    written once, over the interface [Number] of the operations the kernel
    uses, and read in two ways:

    - [binary64]: IEEE 754 double precision, the arithmetic a JavaScript
      engine performs (Rocq's primitive floats); every definition evaluates
      on concrete inputs;
    - [exact]: the real numbers, for the algebraic content of the formulas.

    Statements that only depend on the control flow of the code are proved
    for every [Number]; arithmetic statements name the reading they are
    proved in. *)

From Stdlib Require Import Bool List ZArith Lia.
From Stdlib Require Import Floats.
From Stdlib Require Import Reals Lra.
Import ListNotations.

Set Implicit Arguments.

(** ** JavaScript numbers *)

Class Number (num : Type) : Type := {
  nadd : num -> num -> num;          (* a + b *)
  nsub : num -> num -> num;          (* a - b *)
  nmul : num -> num -> num;          (* a * b *)
  ndiv : num -> num -> num;          (* a / b *)
  nneg : num -> num;                 (* - a *)
  neqb : num -> num -> bool;         (* a == b *)
  nltb : num -> num -> bool;         (* a < b *)
  nleb : num -> num -> bool;         (* a <= b *)
  lit : Z -> num;                    (* an integer literal *)
  Math_sqrt : num -> num;            (* Math.sqrt *)
  Math_PI : num                      (* Math.PI *)
}.

Declare Scope js_scope.
Delimit Scope js_scope with js.
Notation "a + b" := (nadd a b) : js_scope.
Notation "a - b" := (nsub a b) : js_scope.
Notation "a * b" := (nmul a b) : js_scope.
Notation "a / b" := (ndiv a b) : js_scope.
Notation "- a" := (nneg a) : js_scope.
Notation "a == b" := (neqb a b) (at level 70, no associativity) : js_scope.
Notation "a < b" := (nltb a b) : js_scope.
Notation "a <= b" := (nleb a b) : js_scope.
Notation "a > b" := (nltb b a) : js_scope.
Notation "a >= b" := (nleb b a) : js_scope.
Notation "0" := (lit 0%Z) : js_scope.
Notation "1" := (lit 1%Z) : js_scope.
Notation "2" := (lit 2%Z) : js_scope.
Notation "3" := (lit 3%Z) : js_scope.

(** [ToBoolean] of a number, the test behind [if (x)] and [x && y]:
    false for [+0], [-0] and [NaN] (the only number that is not [==] to
    itself), true otherwise. *)
Definition ToBoolean {num} `{Number num} (a : num) : bool :=
  (if a == 0 then false else a == a)%js.

(** ** Util *)

Section Util.
Context {num : Type} `{Number num}.
Local Open Scope js_scope.

(* between(num, min, max) { return num >= min && num <= max; } *)
Definition between (n min max : num) : bool :=
  (n >= min) && (n <= max).

End Util.

(** ** Shapes *)

Module Vertex.
(* constructor(x, y) { this.x = x; this.y = y; } *)
Record t (num : Type) : Type := constructor { x : num; y : num }.

Section WithNumber.
Context {num : Type} `{Number num}.
Local Open Scope js_scope.

(* move(dx, dy) { this.x += dx; this.y += dy; return this; } *)
Definition move (v : t num) (dx dy : num) : t num :=
  {| x := x v + dx; y := y v + dy |}.

End WithNumber.
End Vertex.

Module Circle.
(* constructor(x, y, radius) *)
Record t (num : Type) : Type := constructor { x : num; y : num; radius : num }.

Section WithNumber.
Context {num : Type} `{Number num}.
Local Open Scope js_scope.

(* getCenter() *)
Definition getCenter (c : t num) : Vertex.t num :=
  Vertex.constructor (x c) (y c).

(* getArea() { return Gmt.PI * Gmt.PI * this.radius; }   (area() in gmt.js) *)
Definition getArea (c : t num) : num :=
  Math_PI * Math_PI * radius c.

(* getCircumference() { return 2 * Gmt.PI * this.radius; }   (circumference() in gmt.js) *)
Definition getCircumference (c : t num) : num :=
  2 * Math_PI * radius c.

(* getDiamater() { return 2 * this.radius; }   (diamater() in gmt.js) *)
Definition getDiamater (c : t num) : num :=
  2 * radius c.

(* move(dx, dy) { this.x += dx; this.y += dy; return this; } *)
Definition move (c : t num) (dx dy : num) : t num :=
  {| x := x c + dx; y := y c + dy; radius := radius c |}.

(* scale(scale) { this.radius *= scale; return this; } *)
Definition scale (c : t num) (k : num) : t num :=
  {| x := x c; y := y c; radius := radius c * k |}.

End WithNumber.
End Circle.

(** ** Distance calculator *)

Module Distance.
Section WithNumber.
Context {num : Type} `{Number num}.
Local Open Scope js_scope.

(* plain(x1, y1, x2, y2) *)
Definition plain (x1 y1 x2 y2 : num) : num :=
let dx := x1 - x2 in
let dy := y1 - y2 in
Math_sqrt (dx * dx + dy * dy).

(* vertices(v1, v2) *)
Definition vertices (v1 v2 : Vertex.t num) : num :=
plain (Vertex.x v1) (Vertex.y v1) (Vertex.x v2) (Vertex.y v2).

(* vertexVsCircle(v, c) *)
Definition vertexVsCircle (v : Vertex.t num) (c : Circle.t num) : num :=
plain (Vertex.x v) (Vertex.y v) (Circle.x c) (Circle.y c) - Circle.radius c.

(* circles(c1, c2) *)
Definition circles (c1 c2 : Circle.t num) : num :=
plain (Circle.x c1) (Circle.y c1) (Circle.x c2) (Circle.y c2)
- Circle.radius c1 - Circle.radius c2.

End WithNumber.
End Distance.

Module Segment.
Record t (num : Type) : Type := make { start : Vertex.t num; end_ : Vertex.t num }.

Section WithNumber.
Context {num : Type} `{Number num}.

(* constructor(x1, y1, x2, y2) *)
Definition constructor (x1 y1 x2 y2 : num) : t num :=
  {| start := Vertex.constructor x1 y1; end_ := Vertex.constructor x2 y2 |}.

(* length() { return Gmt.Distance.vertices(this.start, this.end); } *)
Definition length (s : t num) : num :=
  Distance.vertices (start s) (end_ s).

(* move(dx, dy) { this.start.move(dx, dy); this.end.move(dx, dy); return this; } *)
Definition move (s : t num) (dx dy : num) : t num :=
  {| start := Vertex.move (start s) dx dy; end_ := Vertex.move (end_ s) dx dy |}.

End WithNumber.
End Segment.

Module PolyLine.
Record t (num : Type) : Type := make { vertices : list (Vertex.t num) }.

Section WithNumber.
Context {num : Type} `{Number num}.
Local Open Scope js_scope.

(* constructor(x, y) {
     this.vertices = [];
     if(x && y) { this.vertices.push(new Gmt.Vertex(x, y)); } }
   An argument is [None] when the caller omits it: the parameter is
   then undefined, which is falsy. *)
Definition constructor (x y : option num) : t num :=
  match x, y with
  | Some x', Some y' =>
      if ToBoolean x' && ToBoolean y'
      then {| vertices := [Vertex.constructor x' y'] |}
      else {| vertices := [] |}
  | _, _ => {| vertices := [] |}
  end.

(* add(x, y) { this.vertices.push(new Gmt.Vertex(x, y)); return this; } *)
Definition add (p : t num) (x y : num) : t num :=
  {| vertices := vertices p ++ [Vertex.constructor x y] |}.

(* move(x, y) { this.vertices.forEach(e => e.move(x, y)); return this; } *)
Definition move (p : t num) (x y : num) : t num :=
  {| vertices := map (fun e => Vertex.move e x y) (vertices p) |}.

(* toSegments(): for(let i = 0; i < this.vertices.length - 1; i++), pushing
   new Gmt.Segment(v1.x, v1.y, v2.x, v2.y) for v1 = vertices[i] and
   v2 = vertices[i + 1].  [None] is the TypeError of reading a field of
   an index that holds no vertex. *)
Definition toSegments (p : t num) : option (list (Segment.t num)) :=
  fold_left
    (fun segments i =>
       match segments, nth_error (vertices p) i, nth_error (vertices p) (i + 1) with
       | Some segs, Some v1, Some v2 =>
           Some (segs ++ [Segment.constructor (Vertex.x v1) (Vertex.y v1)
                                              (Vertex.x v2) (Vertex.y v2)])
       | _, _, _ => None
       end)
    (seq 0 (List.length (vertices p) - 1))
    (Some []).

(* toVertices() *)
Definition toVertices (p : t num) : list (Vertex.t num) := vertices p.

(* let len = 0; segments.forEach(s => len += s.length()); return len; *)
Definition sum_lengths (segments : list (Segment.t num)) : num :=
  fold_left (fun len s => len + Segment.length s) segments 0.

(* length() *)
Definition length (p : t num) : option num :=
  option_map sum_lengths (toSegments p).

End WithNumber.
End PolyLine.

Module Polygon.
Record t (num : Type) : Type := make { body : PolyLine.t num }.

Section WithNumber.
Context {num : Type} `{Number num}.
Local Open Scope js_scope.

(* constructor(x, y) { this.body = new Gmt.PolyLine(x, y); } *)
Definition constructor (x y : option num) : t num :=
  {| body := PolyLine.constructor x y |}.

(* add(x, y) { this.body.vertices.push(new Gmt.Vertex(x, y)); return this; } *)
Definition add (p : t num) (x y : num) : t num :=
  {| body := PolyLine.add (body p) x y |}.

(* move(x, y) { this.body.vertices.forEach(e => e.move(x, y)); return this; } *)
Definition move (p : t num) (x y : num) : t num :=
  {| body := PolyLine.move (body p) x y |}.

(* toVertices() { return this.body.toVertices(); } *)
Definition toVertices (p : t num) : list (Vertex.t num) :=
  PolyLine.toVertices (body p).

(* toSegments() {
     let segments = this.body.toSegments();
     let vs = this.toVertices()[0];
     let ve = this.toVertices()[this.toVertices().length - 1];
     segments.push(new Gmt.Segment(vs.x, vs.y, ve.x, ve.y));
     return segments; }
   With no vertex, [vs] is undefined and [vs.x] throws: [None]. *)
Definition toSegments (p : t num) : option (list (Segment.t num)) :=
  match PolyLine.toSegments (body p) with
  | Some segments =>
      match nth_error (toVertices p) 0,
            nth_error (toVertices p) (List.length (toVertices p) - 1) with
      | Some vs, Some ve =>
          Some (segments ++ [Segment.constructor (Vertex.x vs) (Vertex.y vs)
                                                 (Vertex.x ve) (Vertex.y ve)])
      | _, _ => None
      end
  | None => None
  end.

(* length() *)
Definition length (p : t num) : option num :=
  option_map PolyLine.sum_lengths (toSegments p).

End WithNumber.
End Polygon.

(** ** Collision and Intersection calculators *)

Module Intersection.
(* The object [segments] returns.  [vertex: null] and the fields [t], [u]
   that the parallel result does not have are [None]. *)
Record result (num : Type) : Type := make {
  parallel : bool;
  vertex : option (Vertex.t num);
  intersect : bool;
  t : option num;
  u : option num
}.

Section WithNumber.
Context {num : Type} `{Number num}.
Local Open Scope js_scope.

Notation "s '.start.x'" := (Vertex.x (Segment.start s)) (at level 1, only parsing).
Notation "s '.start.y'" := (Vertex.y (Segment.start s)) (at level 1, only parsing).
Notation "s '.end.x'" := (Vertex.x (Segment.end_ s)) (at level 1, only parsing).
Notation "s '.end.y'" := (Vertex.y (Segment.end_ s)) (at level 1, only parsing).

Definition tNom (s1 s2 : Segment.t num) : num :=
  (s1.start.x - s2.start.x) * (s2.start.y - s2.end.y)
  - (s1.start.y - s2.start.y) * (s2.start.x - s2.end.x).

Definition uNom (s1 s2 : Segment.t num) : num :=
  - ((s1.start.x - s1.end.x) * (s1.start.y - s2.start.y)
     - (s1.start.y - s1.end.y) * (s1.start.x - s2.start.x)).

Definition tDen (s1 s2 : Segment.t num) : num :=
  (s1.start.x - s1.end.x) * (s2.start.y - s2.end.y)
  - (s1.start.y - s1.end.y) * (s2.start.x - s2.end.x).

(* segments(s1, s2) *)
Definition segments (s1 s2 : Segment.t num) : result num :=
  let tNom := tNom s1 s2 in
  let uNom := uNom s1 s2 in
  let tDen := tDen s1 s2 in
  if tDen == 0 then
    {| parallel := true; vertex := None; intersect := false;
       t := None; u := None |}
  else
    let t := tNom / tDen in
    let u := uNom / tDen in
    {| parallel := false;
       vertex := Some (Vertex.constructor
                         (s1.start.x + t * (s1.end.x - s1.start.x))
                         (s1.start.y + t * (s1.end.y - s1.start.y)));
       intersect := between t 0 1 && between u 0 1;
       t := Some t;
       u := Some u |}.

End WithNumber.
End Intersection.

Module Collision.
Section WithNumber.
Context {num : Type} `{Number num}.
Local Open Scope js_scope.

(* vertices(v1, v2) { return v1.x == v2.x && v1.y == v2.y; } *)
Definition vertices (v1 v2 : Vertex.t num) : bool :=
(Vertex.x v1 == Vertex.x v2) && (Vertex.y v1 == Vertex.y v2).

(* vertexVsCircle(v, c) { return Gmt.Distance.vertexVsCircle(v, c) < 0; } *)
Definition vertexVsCircle (v : Vertex.t num) (c : Circle.t num) : bool :=
Distance.vertexVsCircle v c < 0.

(* circles(c1, c2) { return Gmt.Distance.circles(c1, c2) < 0; } *)
Definition circles (c1 c2 : Circle.t num) : bool :=
Distance.circles c1 c2 < 0.

(* segments(s1, s2) { return Gmt.Intersection.segments(s1, s2).intersect; } *)
Definition segments (s1 s2 : Segment.t num) : bool :=
Intersection.intersect (Intersection.segments s1 s2).

End WithNumber.
End Collision.

(** ** Polar coordinates *)

Record Polar (num : Type) : Type := mkPolar { r : num; phi : num }.

Section Polar.
Context {num : Type} `{Number num}.
Local Open Scope js_scope.

(* cartesianToPolar(x, y).  [Math.atan] is a parameter (ECMAScript leaves
   its result implementation-approximated), and so is the division
   operator, to observe which quotients the function asks for;
   [cartesianToPolar] below is the function with JavaScript's [/]. *)
Definition cartesianToPolar_with (divide : num -> num -> num)
    (Math_atan : num -> num) (x y : num) : Polar num :=
  let phi :=
    if x == 0 then
      if y > 0 then divide Math_PI 2 else divide Math_PI 2 * 3
    else
      let phi := Math_atan (divide y x) in
      if x < 0 then phi + Math_PI else phi in
  {| r := Distance.plain 0 0 x y; phi := phi |}.

Definition cartesianToPolar := cartesianToPolar_with ndiv.

End Polar.

(** ** The two readings of [Number] *)

(** IEEE 754 binary64, as a JavaScript engine computes; [Math.sqrt] is the
    correctly rounded square root, [Math.PI] the double nearest to pi. *)
#[export] Instance binary64 : Number float := {
  nadd := PrimFloat.add;
  nsub := PrimFloat.sub;
  nmul := PrimFloat.mul;
  ndiv := PrimFloat.div;
  nneg := PrimFloat.opp;
  neqb := PrimFloat.eqb;
  nltb := PrimFloat.ltb;
  nleb := PrimFloat.leb;
  lit := fun z =>
    if (z <? 0)%Z then PrimFloat.opp (PrimFloat.of_uint63 (Uint63.of_Z (- z)))
    else PrimFloat.of_uint63 (Uint63.of_Z z);
  Math_sqrt := PrimFloat.sqrt;
  Math_PI := 0x1.921fb54442d18p+1%float
}.

(** Exact real arithmetic. *)
#[export] Instance exact : Number R := {
  nadd := Rplus;
  nsub := Rminus;
  nmul := Rmult;
  ndiv := Rdiv;
  nneg := Ropp;
  neqb := fun a b => if Req_dec_T a b then true else false;
  nltb := fun a b => if Rlt_dec a b then true else false;
  nleb := fun a b => if Rle_dec a b then true else false;
  lit := IZR;
  Math_sqrt := sqrt;
  Math_PI := PI
}.


(** ** Vocabulary of the specification *)

Section Vocabulary.
Context {num : Type} `{Number num}.
Local Open Scope js_scope.

(** The direction vector of a segment, [end - start], and the determinant
    of two vectors. *)
Definition direction (s : Segment.t num) : num * num :=
  (Vertex.x (Segment.end_ s) - Vertex.x (Segment.start s),
   Vertex.y (Segment.end_ s) - Vertex.y (Segment.start s)).

(** The same vector taken from the end to the start, [start - end]. *)
Definition backward (s : Segment.t num) : num * num :=
  (Vertex.x (Segment.start s) - Vertex.x (Segment.end_ s),
   Vertex.y (Segment.start s) - Vertex.y (Segment.end_ s)).

Definition det (v w : num * num) : num :=
  fst v * snd w - snd v * fst w.

(** The point [start + k * (end - start)] of the line through a segment. *)
Definition point_at (s : Segment.t num) (k : num) : Vertex.t num :=
  Vertex.constructor
    (Vertex.x (Segment.start s) + k * fst (direction s))
    (Vertex.y (Segment.start s) + k * snd (direction s)).

(** Two segments have an endpoint in common. *)
Definition share_endpoint (s1 s2 : Segment.t num) : Prop :=
  Segment.start s1 = Segment.start s2 \/ Segment.start s1 = Segment.end_ s2 \/
  Segment.end_ s1 = Segment.start s2 \/ Segment.end_ s1 = Segment.end_ s2.

(** ... and exactly one: the common endpoint is unique. *)
Definition endpoint_of (v : Vertex.t num) (s : Segment.t num) : Prop :=
  v = Segment.start s \/ v = Segment.end_ s.

Definition share_exactly_one_endpoint (s1 s2 : Segment.t num) : Prop :=
  exists v, endpoint_of v s1 /\ endpoint_of v s2 /\
            forall w, endpoint_of w s1 -> endpoint_of w s2 -> w = v.

(** The result of [Intersection.segments] for parallel lines. *)
Definition parallel_result : Intersection.result num :=
  {| Intersection.parallel := true; Intersection.vertex := None;
     Intersection.intersect := false;
     Intersection.t := None; Intersection.u := None |}.

End Vocabulary.

(** Consecutive vertices joined pairwise: the open chain of a vertex list. *)
Fixpoint chain {num : Type} (vs : list (Vertex.t num)) : list (Segment.t num) :=
  match vs with
  | v1 :: (v2 :: _) as rest => Segment.make v1 v2 :: chain rest
  | _ => []
  end.

(** A specified binary64 value that is a zero, an infinity or a finite
    number of sign [s]: any value but [NaN]. *)
Definition signed (s : bool) (a : spec_float) : Prop :=
  a = S754_zero s \/ a = S754_infinity s \/ exists m e, a = S754_finite s m e.

(** ** Inputs of the examples, in binary64 *)

Section Inputs.
Local Open Scope float_scope.

(* new Gmt.Polygon().add(0, 0).add(2, 0).add(2, 2).add(0, 2) *)
Definition square : Polygon.t float :=
  Polygon.add (Polygon.add (Polygon.add (Polygon.add
    (Polygon.constructor None None) 0 0) 2 0) 2 2) 0 2.

(* new Gmt.PolyLine().add(0, 0).add(2, 0).add(2, 2).add(0, 2) *)
Definition open_square : PolyLine.t float :=
  PolyLine.add (PolyLine.add (PolyLine.add (PolyLine.add
    (PolyLine.constructor None None) 0 0) 2 0) 2 2) 0 2.

(* new Gmt.Segment(0, 0, 0, 0): a segment of length zero *)
Definition origin_point : Segment.t float := Segment.constructor 0 0 0 0.

(* new Gmt.Segment(0, 2**1023, 0, -(2**1023)): finite coordinates whose
   difference, 2**1024, is not a finite double *)
Definition tall_segment : Segment.t float :=
  Segment.constructor 0 0x1p+1023 0 (-0x1p+1023).

(* new Gmt.Circle(0, 0, 1) and new Gmt.Circle(2**54, 0, 2**54) *)
Definition unit_circle : Circle.t float := Circle.constructor 0 0 1.
Definition huge_circle : Circle.t float := Circle.constructor 0x1p+54 0 0x1p+54.

End Inputs.

Unset Implicit Arguments.


(** * The rest of the library *)

Set Implicit Arguments.

(** ** Angles and polar coordinates *)

Module Cartesian.
(* the object { x: ..., y: ... } that polarToCartesian returns *)
Record t (num : Type) : Type := make { x : num; y : num }.
End Cartesian.

Section Angles.
Context {num : Type} `{Number num}.
Local Open Scope js_scope.

(* _RAD_TO_DEG_MOD : 180 / Math.PI,  _DEG_TO_RAD_MOD : Math.PI / 180 *)
Definition _RAD_TO_DEG_MOD : num := lit 180 / Math_PI.
Definition _DEG_TO_RAD_MOD : num := Math_PI / lit 180.

(* radToDeg(rad) { return rad * Gmt._RAD_TO_DEG_MOD; } *)
Definition radToDeg (rad : num) : num := rad * _RAD_TO_DEG_MOD.

(* degToRad(deg) { return deg * Gmt._DEG_TO_RAD_MOD; } *)
Definition degToRad (deg : num) : num := deg * _DEG_TO_RAD_MOD.

(* polarToCartesian(r, phi) { return { x: r * Math.cos(phi), y: r * Math.sin(phi) }; }
   [Math.cos] and [Math.sin] are parameters, like [Math.atan]. *)
Definition polarToCartesian (Math_cos Math_sin : num -> num) (r phi : num)
  : Cartesian.t num :=
  {| Cartesian.x := r * Math_cos phi; Cartesian.y := r * Math_sin phi |}.

End Angles.

(** ** Util *)

(* nullish(value, def) { return value ? value : def; }
   [value] is [None] when the argument is omitted (undefined).  [truthy] is
   ToBoolean on the type of the value: [ToBoolean] for a number, constantly
   true for an array. *)
Definition nullish {A : Type} (truthy : A -> bool) (value : option A) (def : A) : A :=
  match value with
  | Some v => if truthy v then v else def
  | None => def
  end.

Section MoreUtil.
Context {num : Type} `{Number num}.
Local Open Scope js_scope.

(* clamp(num, min, max) { return num <= min ? min : num >= max ? max : num; } *)
Definition clamp (n min max : num) : num :=
  if n <= min then min else if n >= max then max else n.

(* ease(current, target, step) {
     step = step || 1;
     if(Math.abs(current - target) <= step) { return target; }
     else if (current > target) { return current - step; }
     else { return current + step; } }
   [Math.abs] is a parameter. *)
Definition ease (Math_abs : num -> num) (current target : num) (step : option num) : num :=
  let step := match step with
              | Some s => if ToBoolean s then s else 1
              | None => 1
              end in
  if Math_abs (current - target) <= step then target
  else if current > target then current - step
  else current + step.

(* range(min, max, step) {
     step = Gmt.nullish(step, 1);
     let arr = [];
     while(min <= max) { arr.push(min); min += step; }
     return arr; }
   The loop need not end: [fuel] bounds the number of tests of the
   condition, and [None] means the bound was reached. *)
Fixpoint range_loop (fuel : nat) (min max step : num) (arr : list num)
  : option (list num) :=
  match fuel with
  | O => None
  | S fuel =>
      if min <= max then range_loop fuel (min + step) max step (arr ++ [min])
      else Some arr
  end.

Definition range (fuel : nat) (min max : num) (step : option num)
  : option (list num) :=
  let step := nullish ToBoolean step 1 in
  range_loop fuel min max step [].

End MoreUtil.

(** ** Counter *)

Module Counter.
Record t (num : Type) : Type := make { value : num; step : num }.

Section WithNumber.
Context {num : Type} `{Number num}.
Local Open Scope js_scope.

(* constructor(baseValue, step) {
     this.value = Gmt.nullish(baseValue, 0);
     this.step = Gmt.nullish(step, 1);
     this.value -= this.step; } *)
Definition constructor (baseValue step : option num) : t num :=
  let value := nullish ToBoolean baseValue 0 in
  let step := nullish ToBoolean step 1 in
  {| value := value - step; step := step |}.

(* next() { return this.value += this.step; }
   The counter after the call, and the value returned. *)
Definition next (c : t num) : t num * num :=
  let value := value c + step c in
  ({| value := value; step := step c |}, value).

(* reset() { this.value = -this.step; } *)
Definition reset (c : t num) : t num :=
  {| value := - step c; step := step c |}.

End WithNumber.
End Counter.


(** ** Data structures

    Positions, sizes and steps are integers ([Z]): a double represents
    every integer of magnitude below 2**53 exactly. *)

(** What an operation completes with: a value, or an exception thrown. *)
Inductive error : Type := TypeError | RangeError.

Inductive completion (A : Type) : Type :=
| Return (a : A)
| Throw (e : error).
Arguments Return {A} a.
Arguments Throw {A} e.

Definition bind {A B : Type} (c : completion A) (k : A -> completion B)
  : completion B :=
  match c with
  | Return a => k a
  | Throw e => Throw e
  end.

(** A value stored in an array: [undefined] (also what a hole or a missing
    index reads as), [null], or an item. *)
Inductive jsval (A : Type) : Type :=
| undefined
| null
| val (a : A).
Arguments undefined {A}.
Arguments null {A}.
Arguments val {A} a.

(** ToBoolean of an integer-valued number: false for 0. *)
Definition truthyZ (z : Z) : bool := negb (z =? 0)%Z.

Module RingArray.
Record t (A : Type) : Type := make { values : list A; i : Z }.

Section WithItems.
Context {A : Type}.
Local Open Scope Z_scope.

(* values[k]: [None] is undefined, the value of an index outside the array *)
Definition item (l : list A) (k : Z) : option A :=
  if k <? 0 then None else nth_error l (Z.to_nat k).

(* constructor(baseArray) { this.values = Gmt.nullish(baseArray, []); this.i = 0; }
   An array is truthy, also when empty. *)
Definition constructor (baseArray : option (list A)) : t A :=
  {| values := nullish (fun _ => true) baseArray []; i := 0 |}.

(* add(item) { this.values.push(item); } *)
Definition add (r : t A) (x : A) : t A :=
  {| values := values r ++ [x]; i := i r |}.

(* reset() { this.i = 0; } *)
Definition reset (r : t A) : t A :=
  {| values := values r; i := 0 |}.

(* get() { return this.values[this.i]; } *)
Definition get (r : t A) : option A := item (values r) (i r).

(* next(step) {
     step = Gmt.nullish(step, 1);
     this.i += step;
     this.i = this.i < this.values.length ? this.i : (0 + this.i - this.values.length);
     return this.get(); } *)
Definition next (r : t A) (step : option Z) : t A * option A :=
  let step := nullish truthyZ step 1 in
  let i1 := i r + step in
  let i2 := if i1 <? Z.of_nat (length (values r)) then i1
            else 0 + i1 - Z.of_nat (length (values r)) in
  let r' := {| values := values r; i := i2 |} in
  (r', get r').

(* prev(step) {
     step = Gmt.nullish(step, 1);
     this.i -= step;
     this.i = this.i >= 0 ? this.i : (this.values.length + this.i);
     return this.get(); } *)
Definition prev (r : t A) (step : option Z) : t A * option A :=
  let step := nullish truthyZ step 1 in
  let i1 := i r - step in
  let i2 := if 0 <=? i1 then i1 else Z.of_nat (length (values r)) + i1 in
  let r' := {| values := values r; i := i2 |} in
  (r', get r').

End WithItems.
End RingArray.

Section Array2D.
Context {A : Type}.
Local Open Scope Z_scope.

(** A row: an array read and written at integer indices; an index never
    written reads as [undefined]. *)
Definition row : Type := Z -> jsval A.

(* row[y] = value *)
Definition row_set (r : row) (y : Z) (value : jsval A) : row :=
  fun k => if k =? y then value else r k.

(* new Array(n): n holes; RangeError unless n is an integer in 0 .. 2**32 - 1 *)
Definition new_Array (n : Z) : completion row :=
  if (0 <=? n) && (n <=? 4294967295) then Return (fun _ => undefined)
  else Throw RangeError.

(* for(let y = 0; y < sizeY; y++) { row[y] = defaultValue; } *)
Definition fill_row (r : row) (sizeY : Z) (defaultValue : jsval A) : row :=
  fold_left (fun r y => row_set r (Z.of_nat y) defaultValue)
            (seq 0 (Z.to_nat sizeY)) r.

(* the body of the outer loop:
     let row = new Array(sizeY);
     if(defaultValue != undefined) { ...fill... }
   [null != undefined] is false: a null default leaves the holes. *)
Definition array2D_row (sizeY : Z) (defaultValue : jsval A) : completion row :=
  bind (new_Array sizeY) (fun r =>
    Return (match defaultValue with
            | val _ => fill_row r sizeY defaultValue
            | _ => r
            end)).

(* for(let x = 0; x < sizeX; x++) { ...; arr[x] = row; } *)
Fixpoint array2D_rows (count : nat) (sizeY : Z) (defaultValue : jsval A)
  : completion (list row) :=
  match count with
  | O => Return []
  | S count =>
      bind (array2D_row sizeY defaultValue) (fun r =>
      bind (array2D_rows count sizeY defaultValue) (fun rest =>
      Return (r :: rest)))
  end.

(* array2D(sizeX, sizeY, defaultValue) *)
Definition array2D (sizeX sizeY : Z) (defaultValue : jsval A)
  : completion (list row) :=
  bind (new_Array sizeX) (fun _ =>
    array2D_rows (Z.to_nat sizeX) sizeY defaultValue).

End Array2D.
Arguments row A : clear implicits.

Module Table2D.
Record t (A : Type) : Type :=
  make { xSize : Z; ySize : Z; values : list (row A) }.

Section WithItems.
Context {A : Type}.
Local Open Scope Z_scope.

(* this.values[x]: undefined outside the array *)
Definition row_at (tb : t A) (x : Z) : option (row A) :=
  if x <? 0 then None else nth_error (values tb) (Z.to_nat x).

(* constructor(xSize, ySize, defaultValue) *)
Definition constructor (xSize ySize : Z) (defaultValue : jsval A)
  : completion (t A) :=
  bind (array2D xSize ySize defaultValue) (fun values =>
    Return {| xSize := xSize; ySize := ySize; values := values |}).

(* get(x, y) { return this.values[x][y]; }
   reading [y] of an undefined row is a TypeError *)
Definition get (tb : t A) (x y : Z) : completion (jsval A) :=
  match row_at tb x with
  | Some r => Return (r y)
  | None => Throw TypeError
  end.

(* arr[x] = row, for an index inside the array *)
Fixpoint replace_row (rows : list (row A)) (x : nat) (r : row A) : list (row A) :=
  match rows, x with
  | [], _ => []
  | _ :: rest, O => r :: rest
  | r0 :: rest, S x => r0 :: replace_row rest x r
  end.

(* put(x, y, value) { this.values[x][y] = value; return this; } *)
Definition put (tb : t A) (x y : Z) (value : jsval A) : completion (t A) :=
  match row_at tb x with
  | Some r =>
      Return {| xSize := xSize tb; ySize := ySize tb;
                values := replace_row (values tb) (Z.to_nat x) (row_set r y value) |}
  | None => Throw TypeError
  end.

(* isInRange(x, y) { return x >= 0 && x < this.xSize && y >= 0 && y < this.ySize; } *)
Definition isInRange (tb : t A) (x y : Z) : bool :=
  (0 <=? x) && (x <? xSize tb) && (0 <=? y) && (y <? ySize tb).

(* for(let k = from; k < from + count; k++): the values k takes *)
Definition loop_indices (from count : Z) : list Z :=
  map (fun k => from + Z.of_nat k) (seq 0 (Z.to_nat count)).

(* iterSlice(x, y, width, height, func): func(xi, yi, this.get(xi, yi)) for
   xi in x .. x + width - 1 and, inside, yi in y .. y + height - 1.  The
   callback acts on a state [S]; an exception ends the iteration. *)
Definition iterSlice {S : Type} (tb : t A) (x y width height : Z)
    (func : Z -> Z -> jsval A -> S -> completion S) (s : S) : completion S :=
  fold_left
    (fun acc xi =>
       fold_left
         (fun acc yi =>
            bind acc (fun s => bind (get tb xi yi) (fun e => func xi yi e s)))
         (loop_indices y height) acc)
    (loop_indices x width) (Return s).

(* iter(func): func(x, y, this.get(x, y)) for x in 0 .. xSize - 1 and y in
   0 .. ySize - 1 *)
Definition iter {S : Type} (tb : t A)
    (func : Z -> Z -> jsval A -> S -> completion S) (s : S) : completion S :=
  fold_left
    (fun acc x =>
       fold_left
         (fun acc y =>
            bind acc (fun s => bind (get tb x y) (fun e => func x y e s)))
         (loop_indices 0 (ySize tb)) acc)
    (loop_indices 0 (xSize tb)) (Return s).

(* slice(x, y, width, height) {
     let slice = new Gmt.Table2D(width, height);
     this.iterSlice(x, y, width, height, (xi, yi, e) => { slice.put(xi - x, yi - y, e); });
     return slice; } *)
Definition slice (tb : t A) (x y width height : Z) : completion (t A) :=
  bind (constructor width height undefined) (fun slice =>
    iterSlice tb x y width height
      (fun xi yi e slice => put slice (xi - x) (yi - y) e) slice).

End WithItems.
End Table2D.

(** ** Random

    [Math.random()] returns a number [u] with [0 <= u < 1]; the functions
    below take the number drawn as the argument [Math_random]. *)

Section Random.
Context {num : Type} `{Number num}.
Local Open Scope js_scope.

(* chance(chance) { return Math.random() < chance; } *)
Definition chance (Math_random chance : num) : bool :=
  Math_random < chance.

(* randFloat(min, max) { return min + (max - min) * Math.random(); } *)
Definition randFloat (Math_random min max : num) : num :=
  min + (max - min) * Math_random.

(* randInt(min, max) { return Math.round(this.randFloat(min, max)); } *)
Definition randInt (Math_round : num -> num) (Math_random min max : num) : num :=
  Math_round (randFloat Math_random min max).

(* choice(list) { return list[this.randInt(0, list.length - 1)]; }
   [index] reads a number as an array index: [None] unless the number is a
   non-negative integer, and then [list[k]] is undefined. *)
Definition choice {A : Type} (Math_round : num -> num) (index : num -> option nat)
    (Math_random : num) (list : list A) : option A :=
  match index (randInt Math_round Math_random 0 (lit (Z.of_nat (length list)) - 1)) with
  | Some k => nth_error list k
  | None => None
  end.

End Random.

(** [Math.round] on the real numbers: the nearest integer, a tie going
    up. *)
Definition round_exact (x : R) : R := IZR (Int_part (x + / 2)).

(** A real number as an array index. *)
Definition index_exact (k : R) : option nat :=
  if Rle_dec 0 k then
    if Req_dec_T k (IZR (Int_part k)) then Some (Z.to_nat (Int_part k)) else None
  else None.

(** ** Rectangle and TileSet *)

Module Rectangle.
(* constructor(x, y, width, height) *)
Record t (num : Type) : Type :=
  constructor { x : num; y : num; width : num; height : num }.

Section WithNumber.
Context {num : Type} `{Number num}.
Local Open Scope js_scope.

(* scale(scale) { this.width *= scale; this.height *= scale; return this; } *)
Definition scale (r : t num) (k : num) : t num :=
  {| x := x r; y := y r; width := width r * k; height := height r * k |}.

(* getCenter() { return new Gmt.Vertex(this.x + this.width/2, this.y + this.height/2); } *)
Definition getCenter (r : t num) : Vertex.t num :=
  Vertex.constructor (x r + width r / 2) (y r + height r / 2).

(* getArea() { return this.width * this.height; }   (area() in gmt.js) *)
Definition getArea (r : t num) : num := width r * height r.

(* getCircumference() { return 2 * (this.width + this.height); }
   (circumference() in gmt.js) *)
Definition getCircumference (r : t num) : num := 2 * (width r + height r).

End WithNumber.
End Rectangle.

Module TileSet.
(* Tile = class { constructor(imageReference, x, y, width, height) {
     this.img = imageReference;
     this.boudingRect = new Gmt.Rectangle(x, y, width, height); } } *)
Record Tile (image num : Type) : Type :=
  make_Tile { Tile_img : image; boudingRect : Rectangle.t num }.

Record t (image num : Type) : Type :=
  make { img : image; xSize : num; ySize : num; borderSize : num }.

Section WithNumber.
Context {image num : Type} `{Number num}.
Local Open Scope js_scope.

(* constructor(fileUrl, tileSizeX, tileSizeY, borderSize) {
     this.img = new Image(); this.img.src = fileUrl;
     this.xSize = tileSizeX; this.ySize = tileSizeY;
     this.borderSize = Gmt.nullish(borderSize, 1); }
   [new_Image] makes the image of a file. *)
Definition constructor {url : Type} (new_Image : url -> image) (fileUrl : url)
    (tileSizeX tileSizeY : num) (borderSize : option num) : t image num :=
  {| img := new_Image fileUrl; xSize := tileSizeX; ySize := tileSizeY;
     borderSize := nullish ToBoolean borderSize 1 |}.

(* get(x, y) {
     return new this.Tile(this.img,
       x * (this.xSize + this.borderSize), y * (this.ySize + this.borderSize),
       this.xSize, this.ySize); } *)
Definition get (ts : t image num) (x y : num) : Tile image num :=
  {| Tile_img := img ts;
     boudingRect :=
       Rectangle.constructor (x * (xSize ts + borderSize ts))
                             (y * (ySize ts + borderSize ts))
                             (xSize ts) (ySize ts) |}.

End WithNumber.
End TileSet.

(** *** Vocabulary for the data structures *)

(** The number of items of a ring. *)
Definition RingArray_length {A : Type} (r : RingArray.t A) : Z :=
  Z.of_nat (length (RingArray.values r)).

(** The step in use: the given one, or 1 when it is omitted or 0. *)
Definition step_in_use (step : option Z) : Z := nullish truthyZ step 1%Z.

(** The ring after one call of [next], of [prev]. *)
Definition RingArray_forward {A : Type} (step : option Z) (r : RingArray.t A)
  : RingArray.t A :=
  fst (RingArray.next r step).

Definition RingArray_backward {A : Type} (step : option Z) (r : RingArray.t A)
  : RingArray.t A :=
  fst (RingArray.prev r step).

(** The number of rows a table holds. *)
Definition Table2D_rows {A : Type} (tb : Table2D.t A) : Z :=
  Z.of_nat (length (Table2D.values tb)).

(** What a cell of a table holds; [undefined] where there is no row. *)
Definition Table2D_cell {A : Type} (tb : Table2D.t A) (x y : Z) : jsval A :=
  match Table2D.row_at tb x with
  | Some r => r y
  | None => undefined
  end.

(** A size [new Array] accepts. *)
Definition array_size (n : Z) : Prop := (0 <= n <= 4294967295)%Z.

(** What a cell of a new table holds: the default value inside the
    columns when there is one, [undefined] otherwise. *)
Definition default_cell {A : Type} (ySize : Z) (defaultValue : jsval A) (y : Z)
  : jsval A :=
  match defaultValue with
  | val _ => if ((0 <=? y) && (y <? ySize))%Z then defaultValue else undefined
  | _ => undefined
  end.

(** One turn of the inner loop of [iter] and [iterSlice], at position [p]. *)
Definition Table2D_visit {A S : Type} (tb : Table2D.t A)
    (func : Z -> Z -> jsval A -> S -> completion S)
    (acc : completion S) (p : Z * Z) : completion S :=
  bind acc (fun s =>
    bind (Table2D.get tb (fst p) (snd p)) (fun e => func (fst p) (snd p) e s)).

(** The positions the two nested loops go through, in order. *)
Definition Table2D_positions (x y width height : Z) : list (Z * Z) :=
  list_prod (Table2D.loop_indices x width) (Table2D.loop_indices y height).

(** A table of three rows and three columns that holds [10 * x + y] at
    [(x, y)]. *)
Definition numbered_table : Table2D.t Z :=
  {| Table2D.xSize := 3; Table2D.ySize := 3;
     Table2D.values :=
       map (fun x : Z => fun y : Z =>
              if ((0 <=? y) && (y <? 3))%Z then val (10 * x + y)%Z else undefined)
           [0; 1; 2]%Z |}.

(** *** Vocabulary for binary64 *)

(** Two binary64 values that are the same, or zeros of either sign. *)
Definition same_up_to_sign_of_zero (a b : spec_float) : Prop :=
  a = b \/ exists s s' : bool, a = S754_zero s /\ b = S754_zero s'.

Definition same_number (a b : float) : Prop :=
  same_up_to_sign_of_zero (Prim2SF a) (Prim2SF b).

(** The same for a field that is absent ([None]) from the parallel result. *)
Definition same_field (a b : option float) : Prop :=
  match a, b with
  | Some x, Some y => same_number x y
  | None, None => True
  | _, _ => False
  end.

(** A binary64 value that is a zero of either sign, or [NaN]. *)
Definition zero_or_nan (a : spec_float) : Prop :=
  a = S754_nan \/ exists s : bool, a = S754_zero s.

Unset Implicit Arguments.
(** * Properties *)

(** ** Facts about binary64, from the IEEE 754 specification of the
    primitive operations *)

Section Binary64Facts.
Local Open Scope float_scope.

Lemma SF_zero : Prim2SF 0 = S754_zero false.
Proof. reflexivity. Qed.

Lemma SF_infinity : Prim2SF infinity = S754_infinity false.
Proof. reflexivity. Qed.

(** A finite number is a zero or a signed mantissa with an exponent. *)
Lemma is_finite_SF (a : float) :
  is_finite a = true ->
  (exists s, Prim2SF a = S754_zero s) \/
  (exists s m e, Prim2SF a = S754_finite s m e).
Proof.
  unfold is_finite, is_nan, is_infinity.
  rewrite !eqb_spec, abs_spec, SF_infinity.
  destruct (Prim2SF a) as [s| [] | | s m e]; cbn; try discriminate; eauto.
Qed.

(** [a - a] is [+0] for every finite [a]. *)
Lemma sub_diag (a : float) : is_finite a = true -> a - a = 0.
Proof.
  intros Hf. apply Prim2SF_inj. rewrite sub_spec, SF_zero.
  destruct (is_finite_SF a Hf) as [[s ->] | (s & m & e & ->)].
  - destruct s; reflexivity.
  - unfold SF64sub, SFsub. rewrite Z.sub_diag. reflexivity.
Qed.

(** [a == 0] holds exactly for the two zeros. *)
Lemma eqb_zero_SF (a : float) :
  (a =? 0) = true <-> exists s, Prim2SF a = S754_zero s.
Proof.
  rewrite eqb_spec, SF_zero.
  destruct (Prim2SF a) as [s| [] | | [] m e]; cbn; split;
    try discriminate; eauto; intros [s' Hs]; discriminate.
Qed.

Lemma mul_zero_l (a b : float) :
  (a =? 0) = true -> is_finite b = true -> (a * b =? 0) = true.
Proof.
  intros Ha Hb. apply eqb_zero_SF in Ha as [s Ha]. apply eqb_zero_SF.
  rewrite mul_spec, Ha.
  destruct (is_finite_SF b Hb) as [[s' ->] | (s' & m & e & ->)]; cbn; eauto.
Qed.

Lemma mul_zero_r (a b : float) :
  is_finite a = true -> (b =? 0) = true -> (a * b =? 0) = true.
Proof.
  intros Ha Hb. apply eqb_zero_SF in Hb as [s Hb]. apply eqb_zero_SF.
  rewrite mul_spec, Hb.
  destruct (is_finite_SF a Ha) as [[s' ->] | (s' & m & e & ->)]; cbn; eauto.
Qed.

Lemma sub_zero_zero (a b : float) :
  (a =? 0) = true -> (b =? 0) = true -> (a - b =? 0) = true.
Proof.
  intros Ha Hb.
  apply eqb_zero_SF in Ha as [s Ha]. apply eqb_zero_SF in Hb as [s' Hb].
  apply eqb_zero_SF. rewrite sub_spec, Ha, Hb.
  destruct s, s'; cbn; eauto.
Qed.

(** For [0 < r] (also [r = Infinity]), [0 - r < 0]. *)
Lemma zero_sub_pos (r : float) : (0 <? r) = true -> (0 - r <? 0) = true.
Proof.
  rewrite !ltb_spec, sub_spec, SF_zero.
  destruct (Prim2SF r) as [s| [] | | [] m e]; cbn; try discriminate; auto.
Qed.

(** A number that is [== 0] is not [< 0]. *)
Lemma eqb_zero_not_neg (a : float) : (a =? 0) = true -> (a <? 0) = false.
Proof.
  intros Ha. apply eqb_zero_SF in Ha as [s Ha].
  rewrite ltb_spec, Ha, SF_zero. reflexivity.
Qed.

(** Rounding to nearest, ties to even, is symmetric in the sign. *)
Lemma binary_round_aux_opp s m e l :
  binary_round_aux prec emax (negb s) m e l
  = SFopp (binary_round_aux prec emax s m e l).
Proof.
  unfold binary_round_aux.
  destruct (shr_fexp prec emax m e l) as [mrs e'].
  destruct (shr_fexp prec emax _ e' loc_Exact) as [mrs' e''].
  destruct (shr_m mrs'); cbn; try reflexivity.
  destruct (Z.leb _ _); reflexivity.
Qed.

Lemma binary_round_opp s m e :
  binary_round prec emax (negb s) m e = SFopp (binary_round prec emax s m e).
Proof.
  unfold binary_round.
  destruct (shl_align _ _ _) as [mz ez]. apply binary_round_aux_opp.
Qed.

Lemma SFmul_opp_opp a b : SF64mul (SFopp a) (SFopp b) = SF64mul a b.
Proof.
  destruct a as [[]|[]| |[] m e], b as [[]|[]| |[] m' e']; reflexivity.
Qed.

(** [a - b] and [b - a] are opposite, or both [+0]: their squares agree. *)
Lemma SFsub_swap_sq a b :
  SF64mul (SF64sub a b) (SF64sub a b) = SF64mul (SF64sub b a) (SF64sub b a).
Proof.
  destruct a as [[]|[]| |s m e], b as [[]|[]| |s' m' e']; try reflexivity.
  - destruct s'; reflexivity.
  - destruct s'; reflexivity.
  - destruct s; reflexivity.
  - destruct s; reflexivity.
  - unfold SF64sub, SFsub. rewrite (Z.min_comm e' e).
    set (za := cond_Zopp s _). set (zb := cond_Zopp s' _).
    replace (zb - za)%Z with (- (za - zb))%Z by lia.
    destruct (za - zb)%Z as [|p|p]; cbn [Z.opp binary_normalize]; try reflexivity.
    + change true with (negb false). rewrite binary_round_opp.
      apply eq_sym, SFmul_opp_opp.
    + change true with (negb false). rewrite binary_round_opp.
      apply SFmul_opp_opp.
Qed.

Lemma sq_sub_swap (a b : float) : (a - b) * (a - b) = (b - a) * (b - a).
Proof.
  apply Prim2SF_inj. rewrite !mul_spec, !sub_spec. apply SFsub_swap_sq.
Qed.

Lemma shr_1_nonneg mrs : (0 <= shr_m mrs)%Z -> (0 <= shr_m (shr_1 mrs))%Z.
Proof.
  destruct mrs as [m r s]. cbn.
  destruct m as [| [p | p |] | p]; cbn; lia.
Qed.

Lemma iter_pos_nonneg (p : positive) mrs :
  (0 <= shr_m mrs)%Z -> (0 <= shr_m (SpecFloat.iter_pos shr_1 p mrs))%Z.
Proof.
  revert mrs. induction p as [p IH | p IH |]; intros mrs Hm; cbn.
  - apply IH, IH, shr_1_nonneg, Hm.
  - apply IH, IH, Hm.
  - apply shr_1_nonneg, Hm.
Qed.

Lemma shr_fexp_nonneg m e l :
  (0 <= m)%Z -> (0 <= shr_m (fst (shr_fexp prec emax m e l)))%Z.
Proof.
  intros Hm. unfold shr_fexp, shr.
  assert (H0 : (0 <= shr_m (shr_record_of_loc m l))%Z).
  { destruct l as [| []]; exact Hm. }
  destruct (_ - e)%Z; cbn [fst]; auto using iter_pos_nonneg.
Qed.

Lemma round_nearest_even_nonneg m l :
  (0 <= m)%Z -> (0 <= round_nearest_even m l)%Z.
Proof.
  intros Hm. destruct l as [| []]; cbn; try lia. destruct (Z.even m); lia.
Qed.

Lemma binary_round_aux_signed s m e l :
  (0 <= m)%Z -> signed s (binary_round_aux prec emax s m e l).
Proof.
  intros Hm. unfold binary_round_aux.
  pose proof (shr_fexp_nonneg m e l Hm) as H1.
  destruct (shr_fexp prec emax m e l) as [mrs e']. cbn [fst] in H1.
  pose proof (shr_fexp_nonneg _ e' loc_Exact
                (round_nearest_even_nonneg _ (loc_of_shr_record mrs) H1)) as H2.
  destruct (shr_fexp prec emax _ e' loc_Exact) as [mrs' e'']. cbn [fst] in H2.
  unfold signed. destruct (shr_m mrs') as [| p | p]; [auto | | lia].
  destruct (Z.leb _ _); eauto.
Qed.

Lemma binary_round_signed s m e : signed s (binary_round prec emax s m e).
Proof.
  unfold binary_round. destruct (shl_align _ _ _) as [mz ez].
  apply binary_round_aux_signed. lia.
Qed.

Lemma binary_normalize_signed m e :
  exists s, signed s (binary_normalize prec emax m e false).
Proof.
  destruct m as [| p | p]; cbn.
  - exists false. left. reflexivity.
  - exists false. apply binary_round_signed.
  - exists true. apply binary_round_signed.
Qed.

(** The difference of two finite numbers is not NaN. *)
Lemma SFsub_finite (a b : float) :
  is_finite a = true -> is_finite b = true ->
  exists s, signed s (SF64sub (Prim2SF a) (Prim2SF b)).
Proof.
  intros Ha Hb.
  destruct (is_finite_SF a Ha) as [[sa ->] | (sa & ma & ea & ->)];
  destruct (is_finite_SF b Hb) as [[sb ->] | (sb & mb & eb & ->)].
  - destruct sa, sb; cbn; unfold signed; eauto.
  - cbn. unfold signed; eauto 6.
  - cbn. unfold signed; eauto 6.
  - apply binary_normalize_signed.
Qed.

(** A square is not negative, and not NaN when its argument is not. *)
Lemma SFmul_square a s : signed s a -> signed false (SF64mul a a).
Proof.
  intros [-> | [-> | (m & e & ->)]]; cbn.
  - left. now rewrite xorb_nilpotent.
  - right; left. now rewrite xorb_nilpotent.
  - rewrite xorb_nilpotent. apply binary_round_aux_signed. lia.
Qed.

Lemma SFadd_nonneg a b :
  signed false a -> signed false b -> signed false (SF64add a b).
Proof.
  intros [-> | [-> | (ma & ea & ->)]] [-> | [-> | (mb & eb & ->)]];
    cbn; unfold signed; eauto 6.
  apply binary_round_signed.
Qed.

Lemma SFsqrt_nonneg a : signed false a -> signed false (SF64sqrt a).
Proof.
  intros [-> | [-> | (m & e & ->)]]; cbn; unfold signed; eauto.
  fold (signed false).
  unfold SFsqrt_core_binary.
  set (m' := match _ with Z0 => _ | Zpos _ => _ | Zneg _ => _ end).
  pose proof (Z.sqrtrem_sqrt m') as Hq.
  destruct (Z.sqrtrem m') as [q r]. cbn [fst] in Hq.
  apply binary_round_aux_signed. subst q. apply Z.sqrt_nonneg.
Qed.

Lemma signed_eqb_refl s a : signed s a -> SFeqb a a = true.
Proof.
  intros [-> | [-> | (m & e & ->)]]; unfold SFeqb; cbn.
  - reflexivity.
  - destruct s; reflexivity.
  - rewrite Z.compare_refl.
    assert (Pos.compare_cont Eq m m = Eq) as -> by apply Pos.compare_cont_refl.
    destruct s; reflexivity.
Qed.

(** Two numbers with different bit patterns are different. *)
Lemma float_neq (a b : float) : PrimFloat.Leibniz.eqb a b = false -> a <> b.
Proof.
  intros Hneq Heq. apply Leibniz.eqb_spec in Heq. congruence.
Qed.

End Binary64Facts.

(** ** Facts about the exact reading *)

Section ExactFacts.
Local Open Scope R_scope.

Lemma exact_eqb (a b : R) : neqb a b = true <-> a = b.
Proof. cbn. destruct (Req_dec_T a b); split; intros; congruence. Qed.

Lemma exact_eqb_false (a b : R) : neqb a b = false <-> a <> b.
Proof. cbn. destruct (Req_dec_T a b); split; intros; congruence. Qed.

Lemma exact_leb (a b : R) : nleb a b = true <-> a <= b.
Proof. cbn. destruct (Rle_dec a b); split; intros; congruence. Qed.

Lemma exact_between (n lo hi : R) : between n lo hi = true <-> lo <= n <= hi.
Proof.
  unfold between. rewrite andb_true_iff, !exact_leb. tauto.
Qed.

End ExactFacts.

(** ** Binary64 numbers up to the sign of zero *)

Section SignOfZero.
Local Open Scope float_scope.

Local Notation "a ~~ b" := (same_up_to_sign_of_zero a b) (at level 70).

Lemma sim_refl a : a ~~ a.
Proof. left. reflexivity. Qed.

Lemma sim_zero s s' : S754_zero s ~~ S754_zero s'.
Proof. right. exists s, s'. split; reflexivity. Qed.

Lemma sim_sym a b : a ~~ b -> b ~~ a.
Proof.
  intros [-> | [s [s' [-> ->]]]]; [apply sim_refl | apply sim_zero].
Qed.

Lemma sim_trans a b c : a ~~ b -> b ~~ c -> a ~~ c.
Proof.
  intros [-> | [s [s' [-> ->]]]] H; [exact H |].
  destruct H as [<- | [t [t' [E ->]]]]; apply sim_zero.
Qed.

Lemma sim_opp a b : a ~~ b -> SFopp a ~~ SFopp b.
Proof.
  intros [-> | [s [s' [-> ->]]]]; [apply sim_refl | apply sim_zero].
Qed.

Lemma sim_mul a a' b b' :
  a ~~ a' -> b ~~ b' -> SF64mul a b ~~ SF64mul a' b'.
Proof.
  intros [-> | [s [s' [-> ->]]]] [-> | [t [t' [-> ->]]]].
  - apply sim_refl.
  - destruct a' as [sa | sa | | sa ma ea]; cbn;
      first [apply sim_refl | apply sim_zero].
  - destruct b' as [sb | sb | | sb mb eb]; cbn;
      first [apply sim_refl | apply sim_zero].
  - apply sim_zero.
Qed.

Lemma sim_sub a a' b b' :
  a ~~ a' -> b ~~ b' -> SF64sub a b ~~ SF64sub a' b'.
Proof.
  intros [-> | [s [s' [-> ->]]]] [-> | [t [t' [-> ->]]]].
  - apply sim_refl.
  - destruct a' as [sa | sa | | sa ma ea]; cbn;
      first [apply sim_refl | destruct sa, t, t'; apply sim_zero].
  - destruct b' as [sb | sb | | sb mb eb]; cbn;
      first [apply sim_refl | destruct s, s', sb; apply sim_zero].
  - destruct s, s', t, t'; apply sim_zero.
Qed.

Lemma sim_div_l n n' d : n ~~ n' -> SF64div n d ~~ SF64div n' d.
Proof.
  intros [-> | [s [s' [-> ->]]]]; [apply sim_refl |].
  destruct d as [sd | sd | | sd md ed]; cbn;
    first [apply sim_refl | apply sim_zero].
Qed.

Lemma sim_compare_l a a' b : a ~~ a' -> SFcompare a b = SFcompare a' b.
Proof.
  intros [-> | [s [s' [-> ->]]]]; [reflexivity |].
  destruct b as [sb | sb | | sb mb eb]; reflexivity.
Qed.

Lemma sim_compare_r a b b' : b ~~ b' -> SFcompare a b = SFcompare a b'.
Proof.
  intros [-> | [s [s' [-> ->]]]]; [reflexivity |].
  destruct a as [sa | sa | | sa ma ea]; reflexivity.
Qed.

Lemma SFopp_involutive a : SFopp (SFopp a) = a.
Proof. destruct a as [[] | [] | | [] m e]; reflexivity. Qed.

Lemma SFmul_comm a b : SF64mul a b = SF64mul b a.
Proof.
  destruct a as [sa | sa | | sa ma ea], b as [sb | sb | | sb mb eb];
    try (destruct sa, sb; reflexivity); try reflexivity.
  unfold SF64mul, SFmul.
  rewrite (xorb_comm sa sb), (Pos.mul_comm ma mb), (Z.add_comm ea eb).
  reflexivity.
Qed.

Lemma SFmul_opp_l a b : SF64mul (SFopp a) b = SFopp (SF64mul a b).
Proof.
  destruct a as [sa | sa | | sa ma ea], b as [sb | sb | | sb mb eb];
    try (destruct sa, sb; reflexivity); try (destruct sa; reflexivity);
    try reflexivity.
  unfold SF64mul, SFmul, SFopp at 1.
  replace (xorb (negb sa) sb) with (negb (xorb sa sb))
    by (destruct sa, sb; reflexivity).
  apply binary_round_aux_opp.
Qed.

Lemma SFmul_opp_r a b : SF64mul a (SFopp b) = SFopp (SF64mul a b).
Proof. rewrite SFmul_comm, SFmul_opp_l, SFmul_comm. reflexivity. Qed.

Lemma binary_normalize_opp (z e : Z) :
  binary_normalize prec emax (- z) e false
  ~~ SFopp (binary_normalize prec emax z e false).
Proof.
  destruct z as [| p | p]; cbn [Z.opp binary_normalize].
  - apply sim_zero.
  - left. change true with (negb false). apply binary_round_opp.
  - left. change true with (negb false). rewrite binary_round_opp.
    rewrite SFopp_involutive. reflexivity.
Qed.

(** [b - a] is the opposite of [a - b], or both are zeros. *)
Lemma SFsub_swap a b : SF64sub b a ~~ SFopp (SF64sub a b).
Proof.
  destruct a as [sa | sa | | sa ma ea], b as [sb | sb | | sb mb eb];
    try (destruct sa, sb; first [apply sim_refl | apply sim_zero]);
    try (destruct sa; first [apply sim_refl | apply sim_zero]);
    try (destruct sb; first [apply sim_refl | apply sim_zero]);
    try apply sim_refl.
  unfold SF64sub, SFsub. rewrite (Z.min_comm eb ea).
  set (za := cond_Zopp sa _). set (zb := cond_Zopp sb _).
  replace (zb - za)%Z with (- (za - zb))%Z by lia.
  apply binary_normalize_opp.
Qed.

Lemma cond_Zopp_negb (s : bool) (z : Z) : cond_Zopp (negb s) z = (- cond_Zopp s z)%Z.
Proof. destruct s; cbn; lia. Qed.

Lemma SFsub_opp_opp a b :
  SF64sub (SFopp a) (SFopp b) ~~ SFopp (SF64sub a b).
Proof.
  destruct a as [sa | sa | | sa ma ea], b as [sb | sb | | sb mb eb];
    try (destruct sa, sb; first [apply sim_refl | apply sim_zero]);
    try (destruct sa; first [apply sim_refl | apply sim_zero]);
    try (destruct sb; first [apply sim_refl | apply sim_zero]);
    try apply sim_refl.
  unfold SF64sub, SFsub. cbn [SFopp]. rewrite !cond_Zopp_negb.
  set (za := cond_Zopp sa _). set (zb := cond_Zopp sb _).
  replace (- za - - zb)%Z with (- (za - zb))%Z by lia.
  apply binary_normalize_opp.
Qed.

Lemma SFdiv_opp_opp n d : SF64div (SFopp n) (SFopp d) = SF64div n d.
Proof.
  destruct n as [sn | sn | | sn mn en], d as [sd | sd | | sd md ed];
    try (destruct sn, sd; reflexivity); try (destruct sn; reflexivity);
    try (destruct sd; reflexivity); try reflexivity.
Qed.

Lemma SFeqb_opp_zero a : SFeqb (SFopp a) (S754_zero false) = SFeqb a (S754_zero false).
Proof. destruct a as [[] | [] | | [] m e]; reflexivity. Qed.

Lemma sim_not_zero a b :
  a ~~ b -> SFeqb b (S754_zero false) = false -> a = b.
Proof.
  intros [-> | [s [s' [-> ->]]]] Hz; [reflexivity | discriminate].
Qed.

Lemma sim_eqb a a' b : a ~~ a' -> SFeqb a b = SFeqb a' b.
Proof. intros H. unfold SFeqb. rewrite (sim_compare_l a a' b H). reflexivity. Qed.

Lemma sim_leb_l a a' b : a ~~ a' -> SFleb a b = SFleb a' b.
Proof. intros H. unfold SFleb. rewrite (sim_compare_l a a' b H). reflexivity. Qed.

Lemma sim_leb_r a b b' : b ~~ b' -> SFleb a b = SFleb a b'.
Proof. intros H. unfold SFleb. rewrite (sim_compare_r a b b' H). reflexivity. Qed.

Lemma between_same (a b lo hi : float) :
  same_number a b -> between a lo hi = between b lo hi.
Proof.
  intros H. unfold between. cbn [nleb binary64].
  rewrite !leb_spec.
  rewrite (sim_leb_r _ _ _ H), (sim_leb_l _ _ _ H). reflexivity.
Qed.

(** *** Values that are a zero or [NaN] *)

Lemma zero_or_nan_sub_self a : zero_or_nan (SF64sub a a).
Proof.
  destruct a as [[] | [] | | s m e]; try (left; reflexivity);
    try (right; eexists; reflexivity).
  right. exists false. unfold SF64sub, SFsub.
  rewrite Z.sub_diag. reflexivity.
Qed.

Lemma zero_or_nan_sim a b : a ~~ b -> zero_or_nan a -> zero_or_nan b.
Proof.
  intros [-> | [s [s' [-> ->]]]] H; [exact H |]. right. exists s'. reflexivity.
Qed.

(** The difference of two values that are the same up to the sign of zero. *)
Lemma zero_or_nan_sub a b : a ~~ b -> zero_or_nan (SF64sub a b).
Proof.
  intros H. apply zero_or_nan_sim with (SF64sub a a).
  - apply sim_sub; [apply sim_refl | exact H].
  - apply zero_or_nan_sub_self.
Qed.

Lemma zero_or_nan_mul_l z q : zero_or_nan z -> zero_or_nan (SF64mul z q).
Proof.
  intros [-> | [s ->]]; [left; reflexivity |].
  destruct q as [sq | sq | | sq mq eq_]; cbn;
    first [left; reflexivity | right; eexists; reflexivity].
Qed.

Lemma zero_or_nan_mul_r z q : zero_or_nan z -> zero_or_nan (SF64mul q z).
Proof. rewrite SFmul_comm. apply zero_or_nan_mul_l. Qed.

Lemma zero_or_nan_sub_both a b :
  zero_or_nan a -> zero_or_nan b -> zero_or_nan (SF64sub a b).
Proof.
  intros [-> | [s ->]] [-> | [s' ->]]; try (left; reflexivity).
  right. destruct s, s'; eexists; reflexivity.
Qed.

Lemma zero_or_nan_opp a : zero_or_nan a -> zero_or_nan (SFopp a).
Proof.
  intros [-> | [s ->]]; [left; reflexivity | right; eexists; reflexivity].
Qed.

Lemma zero_or_nan_div n d : zero_or_nan n -> zero_or_nan (SF64div n d).
Proof.
  intros [-> | [s ->]]; [left; reflexivity |].
  destruct d as [sd | sd | | sd md ed]; cbn;
    first [left; reflexivity | right; eexists; reflexivity].
Qed.

(** *** A number divided by itself *)

Lemma div_eucl_shift (m : positive) :
  Z.div_eucl (Z.shiftl (Z.pos m) 53) (Z.pos m) = (2 ^ 53, 0)%Z.
Proof.
  rewrite Z.shiftl_mul_pow2 by lia.
  assert (Hq : (Z.pos m * 2 ^ 53 / Z.pos m = 2 ^ 53)%Z)
    by (rewrite Z.mul_comm; apply Z.div_mul; lia).
  assert (Hr : ((Z.pos m * 2 ^ 53) mod Z.pos m = 0)%Z)
    by (rewrite Z.mul_comm; apply Z.mod_mul; lia).
  unfold Z.div in Hq. unfold Z.modulo in Hr.
  destruct (Z.div_eucl (Z.pos m * 2 ^ 53) (Z.pos m)) as [q r].
  congruence.
Qed.

Lemma SFdiv_self_finite s m e :
  SF64div (S754_finite s m e) (S754_finite s m e) = Prim2SF 1.
Proof.
  unfold SF64div, SFdiv, SFdiv_core_binary. cbv zeta.
  rewrite !Z.sub_diag.
  change (Z.min (fexp prec emax 0) 0) with (-53)%Z.
  change (0 - -53)%Z with 53%Z. cbv iota.
  rewrite div_eucl_shift, xorb_nilpotent.
  replace (new_location (Z.pos m) 0) with loc_Exact
    by (unfold new_location; destruct (Z.even (Z.pos m)); reflexivity).
  reflexivity.
Qed.

(** [x / x] is 1, or [NaN] when [x] is a zero, an infinity or [NaN]. *)
Lemma SFdiv_self a : SF64div a a = S754_nan \/ SF64div a a = Prim2SF 1.
Proof.
  destruct a as [s | s | | s m e]; try (left; reflexivity).
  right. apply SFdiv_self_finite.
Qed.

(** *** Reading the tests of the code *)

Lemma nan_is_nan (a : float) : Prim2SF a = S754_nan -> is_nan a = true.
Proof.
  intros E. unfold is_nan. rewrite eqb_spec, E. reflexivity.
Qed.

Lemma zero_or_nan_number (a : float) :
  zero_or_nan (Prim2SF a) -> is_nan a = false ->
  (a =? 0) = true /\ between a 0 1 = true.
Proof.
  intros [E | [s E]] Hn; [rewrite (nan_is_nan a E) in Hn; discriminate |].
  unfold between. cbn [nleb binary64].
  change (@lit float binary64 0) with 0. change (@lit float binary64 1) with 1.
  rewrite eqb_spec, !leb_spec, E, SF_zero. destruct s; split; reflexivity.
Qed.

Lemma one_or_nan_number (a : float) :
  Prim2SF a = S754_nan \/ Prim2SF a = Prim2SF 1 -> is_nan a = false ->
  (a =? 1) = true /\ between a 0 1 = true.
Proof.
  intros [E | E] Hn; [rewrite (nan_is_nan a E) in Hn; discriminate |].
  unfold between. cbn [nleb binary64].
  change (@lit float binary64 0) with 0. change (@lit float binary64 1) with 1.
  rewrite eqb_spec, !leb_spec, E, SF_zero. split; reflexivity.
Qed.

End SignOfZero.
(** ** Intersection.segments *)

Section SegmentsAnyNumber.
Context {num : Type} `{Number num}.
Local Open Scope js_scope.

Lemma segments_parallel (s1 s2 : Segment.t num) :
  (Intersection.tDen s1 s2 == 0) = true ->
  Intersection.segments s1 s2 = parallel_result.
Proof.
  intros Hden. unfold Intersection.segments. rewrite Hden. reflexivity.
Qed.

Lemma segments_crossing (s1 s2 : Segment.t num) :
  (Intersection.tDen s1 s2 == 0) = false ->
  let t := Intersection.tNom s1 s2 / Intersection.tDen s1 s2 in
  let u := Intersection.uNom s1 s2 / Intersection.tDen s1 s2 in
  Intersection.segments s1 s2 =
    {| Intersection.parallel := false;
       Intersection.vertex := Some (point_at s1 t);
       Intersection.intersect := between t 0 1 && between u 0 1;
       Intersection.t := Some t;
       Intersection.u := Some u |}.
Proof.
  intros Hden. unfold Intersection.segments. rewrite Hden. reflexivity.
Qed.

Lemma between_unit (k : num) :
  between k 0 1 = true <-> (0 <= k) = true /\ (k <= 1) = true.
Proof. unfold between. apply andb_true_iff. Qed.

End SegmentsAnyNumber.

Section SegmentsExact.
Local Open Scope R_scope.

Lemma tDen_is_det (s1 s2 : Segment.t R) :
  Intersection.tDen s1 s2 = det (direction s1) (direction s2).
Proof.
  unfold Intersection.tDen, det, direction. cbn. ring.
Qed.

(** Where the denominator is not zero, [t] and [u] are the parameters of
    the one point that lies on both lines. *)
Lemma crossing_point_on_both_lines (s1 s2 : Segment.t R) :
  Intersection.tDen s1 s2 <> 0 ->
  point_at s1 (Intersection.tNom s1 s2 / Intersection.tDen s1 s2)
  = point_at s2 (Intersection.uNom s1 s2 / Intersection.tDen s1 s2).
Proof.
  intros Hden. unfold point_at, direction. cbn [fst snd].
  unfold Intersection.tNom, Intersection.uNom in *.
  unfold Intersection.tDen in *. cbn in *.
  f_equal; field; exact Hden.
Qed.

(** A common point of the two lines has the parameters [t] and [u] the
    function computes. *)
Lemma common_point_parameters (s1 s2 : Segment.t R) (k l : R) :
  Intersection.tDen s1 s2 <> 0 ->
  point_at s1 k = point_at s2 l ->
  Intersection.tNom s1 s2 / Intersection.tDen s1 s2 = k /\
  Intersection.uNom s1 s2 / Intersection.tDen s1 s2 = l.
Proof.
  destruct s1 as [[ax ay] [bx by_]], s2 as [[cx cy] [dx dy]].
  unfold point_at, direction, Intersection.tNom, Intersection.uNom,
    Intersection.tDen. cbn.
  intros Hden Hpoint. injection Hpoint as Hx Hy.
  set (den := (ax - bx) * (cy - dy) - (ay - by_) * (cx - dx)) in *.
  assert (Ht : (ax - cx) * (cy - dy) - (ay - cy) * (cx - dx) = k * den).
  { transitivity
      (k * den
       + ((ax + k * (bx - ax)) - (cx + l * (dx - cx))) * (cy - dy)
       - ((ay + k * (by_ - ay)) - (cy + l * (dy - cy))) * (cx - dx)).
    - unfold den. ring.
    - rewrite Hx, Hy. ring. }
  assert (Hu : - ((ax - bx) * (ay - cy) - (ay - by_) * (ax - cx)) = l * den).
  { transitivity
      (l * den
       + ((ax + k * (bx - ax)) - (cx + l * (dx - cx))) * (ay - by_)
       - ((ay + k * (by_ - ay)) - (cy + l * (dy - cy))) * (ax - bx)).
    - unfold den. ring.
    - rewrite Hx, Hy. ring. }
  rewrite Ht, Hu. split; field; exact Hden.
Qed.

End SegmentsExact.

(** C1.  For every pair of segments [(ax, ay)-(bx, by)] and
    [(cx, cy)-(dx, dy)], [Intersection.segments] tests the denominator
    [den = (ax - bx) * (cy - dy) - (ay - by) * (cx - dx)], the determinant
    of the vectors [start - end] of the two segments.  When [den == 0] the
    result is [parallel: true, vertex: null, intersect: false] and nothing
    else is looked at.  Otherwise the result has
    [t = ((ax - cx) * (cy - dy) - (ay - cy) * (cx - dx)) / den] and
    [u = - ((ax - bx) * (ay - cy) - (ay - by) * (ax - cx)) / den], its
    vertex is [s1.start + t * (s1.end - s1.start)] whatever [intersect] is,
    and [intersect] is true exactly when [0 <= t <= 1] and [0 <= u <= 1].
    In exact arithmetic [den] is the determinant of the direction vectors
    [end - start], and [t] and [u] are the parameters of the one point the
    two lines have in common: [s1.start + t * (s1.end - s1.start)
    = s2.start + u * (s2.end - s2.start)], and no other pair of parameters
    gives a common point. *)
Theorem Intersection_segments_contract :
  (forall (num : Type) (N : Number num) (s1 s2 : Segment.t num),
      let ax := Vertex.x (Segment.start s1) in
      let ay := Vertex.y (Segment.start s1) in
      let bx := Vertex.x (Segment.end_ s1) in
      let by_ := Vertex.y (Segment.end_ s1) in
      let cx := Vertex.x (Segment.start s2) in
      let cy := Vertex.y (Segment.start s2) in
      let dx := Vertex.x (Segment.end_ s2) in
      let dy := Vertex.y (Segment.end_ s2) in
      let den := ((ax - bx) * (cy - dy) - (ay - by_) * (cx - dx))%js in
      let t := (((ax - cx) * (cy - dy) - (ay - cy) * (cx - dx)) / den)%js in
      let u := (- ((ax - bx) * (ay - cy) - (ay - by_) * (ax - cx)) / den)%js in
      let res := Intersection.segments s1 s2 in
      den = det (backward s1) (backward s2) /\
      ((den == 0)%js = true -> res = parallel_result) /\
      ((den == 0)%js = false ->
         Intersection.parallel res = false /\
         Intersection.t res = Some t /\
         Intersection.u res = Some u /\
         Intersection.vertex res
         = Some (Vertex.constructor (ax + t * (bx - ax))%js
                                    (ay + t * (by_ - ay))%js) /\
         (Intersection.intersect res = true <->
            ((0 <= t)%js = true /\ (t <= 1)%js = true) /\
            ((0 <= u)%js = true /\ (u <= 1)%js = true)))) /\
  (forall s1 s2 : Segment.t R,
      let den := det (direction s1) (direction s2) in
      let res := Intersection.segments s1 s2 in
      (den = 0%R -> res = parallel_result) /\
      (den <> 0%R ->
         exists t u : R,
           Intersection.parallel res = false /\
           Intersection.t res = Some t /\
           Intersection.u res = Some u /\
           Intersection.vertex res = Some (point_at s1 t) /\
           point_at s1 t = point_at s2 u /\
           forall k l : R, point_at s1 k = point_at s2 l -> k = t /\ l = u)).
Proof.
  split.
  - intros num N s1 s2 ax ay bx by_ cx cy dx dy den t u res.
    split; [reflexivity | split].
    + exact (segments_parallel s1 s2).
    + intros Hden. subst res. rewrite (segments_crossing s1 s2 Hden). cbn.
      do 4 (split; [reflexivity |]).
      rewrite andb_true_iff, !between_unit. reflexivity.
  - intros s1 s2 den res. subst den res. rewrite <- tDen_is_det. split.
    + intros Hden. apply segments_parallel. apply exact_eqb. exact Hden.
    + intros Hden.
      exists (Intersection.tNom s1 s2 / Intersection.tDen s1 s2)%R,
             (Intersection.uNom s1 s2 / Intersection.tDen s1 s2)%R.
      rewrite segments_crossing by (apply exact_eqb_false; exact Hden).
      cbn [Intersection.parallel Intersection.t Intersection.u
           Intersection.vertex ndiv exact].
      do 4 (split; [reflexivity |]).
      split; [apply crossing_point_on_both_lines; exact Hden |].
      intros k l Hkl.
      destruct (common_point_parameters s1 s2 k l Hden Hkl) as [<- <-].
      split; reflexivity.
Qed.

Section SegmentsBinary64.
Local Open Scope float_scope.

Lemma Intersection_segments_contract_witness :
  Intersection.segments (Segment.constructor 0 0 1 0) (Segment.constructor 0 1 1 1)
    = parallel_result /\
  Intersection.intersect
    (Intersection.segments (Segment.constructor 0 0 2 2) (Segment.constructor 0 2 2 0))
    = true.
Proof.
  split.
  - apply (proj1 (proj2 (proj1 Intersection_segments_contract float binary64 _ _))).
    reflexivity.
  - apply (proj2 (proj2 (proj1 Intersection_segments_contract float binary64 _ _))).
    + reflexivity.
    + repeat split; reflexivity.
Defined.

(** The crossing segments of the specification, evaluated in binary64. *)
Example crossing_segments_binary64 :
  Intersection.segments (Segment.constructor 0 0 2 2) (Segment.constructor 0 2 2 0)
  = {| Intersection.parallel := false;
       Intersection.vertex := Some (Vertex.constructor 1 1);
       Intersection.intersect := true;
       Intersection.t := Some 0.5;
       Intersection.u := Some 0.5 |}.
Proof. reflexivity. Qed.

End SegmentsBinary64.

(** ** Segments with a common endpoint *)

Section SharedEndpointExact.
Local Open Scope R_scope.

Lemma between_unit_0 : between (num := R) 0 0 1 = true.
Proof. apply exact_between. lra. Qed.

Lemma between_unit_1 : between (num := R) 1 0 1 = true.
Proof. apply exact_between. lra. Qed.

(** In exact arithmetic a common endpoint has parameter 0 or 1 on both
    segments. *)
Lemma shared_endpoint_parameters (s1 s2 : Segment.t R) :
  share_endpoint s1 s2 ->
  Intersection.tDen s1 s2 <> 0 ->
  (Intersection.tNom s1 s2 / Intersection.tDen s1 s2 = 0 \/
   Intersection.tNom s1 s2 / Intersection.tDen s1 s2 = 1) /\
  (Intersection.uNom s1 s2 / Intersection.tDen s1 s2 = 0 \/
   Intersection.uNom s1 s2 / Intersection.tDen s1 s2 = 1).
Proof.
  destruct s1 as [[ax ay] [bx by_]], s2 as [[cx cy] [dx dy]].
  unfold share_endpoint, Intersection.tNom, Intersection.uNom, Intersection.tDen.
  cbn. intros Hshare Hden.
  destruct Hshare as [E | [E | [E | E]]]; injection E as -> ->.
  - split; left; field; exact Hden.
  - split; [left | right]; field; exact Hden.
  - split; [right | left]; field; exact Hden.
  - split; right; field; exact Hden.
Qed.

End SharedEndpointExact.

Lemma share_exactly_one_shares (num : Type) (s1 s2 : Segment.t num) :
  share_exactly_one_endpoint s1 s2 -> share_endpoint s1 s2.
Proof.
  intros (v & [H1 | H1] & [H2 | H2] & _); unfold share_endpoint;
    rewrite <- H1, <- H2; tauto.
Qed.

Section SharedEndpointBinary64.
Local Open Scope float_scope.

Lemma collinear_share_exactly_one :
  share_exactly_one_endpoint (Segment.constructor 0 0 1 0) (Segment.constructor 1 0 2 0).
Proof.
  exists (Vertex.constructor 1 0). unfold endpoint_of. cbn.
  split; [now right | split; [now left |]].
  intros w [-> | ->] [E | E]; try reflexivity; exfalso;
    apply (f_equal (fun v => Vertex.x v)) in E; revert E; apply float_neq; reflexivity.
Qed.

(** Rounding: these two segments share their end point [(0, 1)] and are
    not parallel, yet [t] is computed as [1.0000000000000002] and
    [intersect] is false.  ([0x1.999999999999ap-3] is the number the
    literal [0.2] denotes.) *)
Remark shared_end_point_missed_by_rounding :
  Intersection.segments (Segment.constructor 0 0 0 1)
                        (Segment.constructor 3 0x1.999999999999ap-3 0 1)
  = {| Intersection.parallel := false;
       Intersection.vertex := Some (Vertex.constructor 0 0x1.0000000000001p+0);
       Intersection.intersect := false;
       Intersection.t := Some 0x1.0000000000001p+0;
       Intersection.u := Some 1 |}.
Proof. reflexivity. Qed.

(** Overflow: these two segments have finite coordinates, share their
    start point and are not parallel, yet the difference [2**1023 -
    (-(2**1023))] is [Infinity], [t] is computed as [0 * Infinity = NaN] and
    [intersect] is false. *)
Remark shared_start_point_missed_by_overflow :
  let s1 := Segment.constructor 0 0x1p+1023 1 0x1p+1023 in
  let s2 := Segment.constructor 0 0x1p+1023 1 (-0x1p+1023) in
  Segment.start s1 = Segment.start s2 /\
  Intersection.parallel (Intersection.segments s1 s2) = false /\
  Intersection.intersect (Intersection.segments s1 s2) = false /\
  option_map is_nan (Intersection.t (Intersection.segments s1 s2)) = Some true.
Proof. repeat split. Qed.

Local Notation "a ~~ b" := (same_up_to_sign_of_zero a b) (at level 70).

Lemma vertex_eq (v w : Vertex.t float) :
  v = w -> Vertex.x v = Vertex.x w /\ Vertex.y v = Vertex.y w.
Proof. intros ->. split; reflexivity. Qed.

(** A common start point: [tNom] and [uNom] are zeros (or [NaN]). *)
Lemma shared_start_start64 (s1 s2 : Segment.t float) :
  Segment.start s1 = Segment.start s2 ->
  zero_or_nan (Prim2SF (Intersection.tNom s1 s2 / Intersection.tDen s1 s2)) /\
  zero_or_nan (Prim2SF (Intersection.uNom s1 s2 / Intersection.tDen s1 s2)).
Proof.
  intros E. apply vertex_eq in E. destruct E as [Ex Ey].
  unfold Intersection.tNom, Intersection.uNom. cbn [nsub nmul nneg binary64].
  rewrite <- Ex, <- Ey.
  rewrite !div_spec, opp_spec, !sub_spec, !mul_spec, !sub_spec. split.
  - apply zero_or_nan_div, zero_or_nan_sub_both;
      apply zero_or_nan_mul_l, zero_or_nan_sub_self.
  - apply zero_or_nan_div, zero_or_nan_opp, zero_or_nan_sub_both;
      apply zero_or_nan_mul_r, zero_or_nan_sub_self.
Qed.

(** The start of [s1] is the end of [s2]: [tNom] is a zero (or [NaN]) and
    [uNom] is the denominator. *)
Lemma shared_start_end64 (s1 s2 : Segment.t float) :
  Segment.start s1 = Segment.end_ s2 ->
  (Intersection.tDen s1 s2 =? 0) = false ->
  zero_or_nan (Prim2SF (Intersection.tNom s1 s2 / Intersection.tDen s1 s2)) /\
  (Prim2SF (Intersection.uNom s1 s2 / Intersection.tDen s1 s2) = S754_nan \/
   Prim2SF (Intersection.uNom s1 s2 / Intersection.tDen s1 s2) = Prim2SF 1).
Proof.
  intros E Hden. apply vertex_eq in E. destruct E as [Ex Ey].
  rewrite eqb_spec, SF_zero in Hden. revert Hden.
  unfold Intersection.tNom, Intersection.uNom, Intersection.tDen.
  cbn [nsub nmul nneg binary64]. rewrite <- Ex, <- Ey.
  rewrite !div_spec, opp_spec, !sub_spec, !mul_spec, !sub_spec.
  set (ax := Prim2SF (Vertex.x (Segment.start s1))).
  set (ay := Prim2SF (Vertex.y (Segment.start s1))).
  set (bx := Prim2SF (Vertex.x (Segment.end_ s1))).
  set (by_ := Prim2SF (Vertex.y (Segment.end_ s1))).
  set (cx := Prim2SF (Vertex.x (Segment.start s2))).
  set (cy := Prim2SF (Vertex.y (Segment.start s2))).
  set (P := SF64sub ax bx). set (R := SF64sub ay by_).
  set (U := SF64sub ax cx). set (V := SF64sub ay cy).
  assert (HQ : SF64sub cy ay ~~ SFopp V) by apply SFsub_swap.
  assert (HS : SF64sub cx ax ~~ SFopp U) by apply SFsub_swap.
  intros Hden. split.
  - apply zero_or_nan_div, zero_or_nan_sub.
    apply sim_trans with (SFopp (SF64mul U V)).
    + rewrite <- SFmul_opp_r. apply sim_mul; [apply sim_refl | exact HQ].
    + rewrite (SFmul_comm U V), <- SFmul_opp_r. apply sim_sym.
      apply sim_mul; [apply sim_refl | exact HS].
  - assert (Hsame : SFopp (SF64sub (SF64mul P V) (SF64mul R U))
                    = SF64sub (SF64mul P (SF64sub cy ay)) (SF64mul R (SF64sub cx ax))).
    { apply sim_not_zero; [| exact Hden]. apply sim_sym.
      apply sim_trans
        with (SF64sub (SF64mul P (SFopp V)) (SF64mul R (SFopp U))).
      - apply sim_sub; (apply sim_mul; [apply sim_refl | assumption]).
      - rewrite !SFmul_opp_r. apply SFsub_opp_opp. }
    rewrite Hsame. apply SFdiv_self.
Qed.

(** The end of [s1] is the start of [s2]: [tNom] is the denominator and
    [uNom] a zero (or [NaN]). *)
Lemma shared_end_start64 (s1 s2 : Segment.t float) :
  Segment.end_ s1 = Segment.start s2 ->
  (Prim2SF (Intersection.tNom s1 s2 / Intersection.tDen s1 s2) = S754_nan \/
   Prim2SF (Intersection.tNom s1 s2 / Intersection.tDen s1 s2) = Prim2SF 1) /\
  zero_or_nan (Prim2SF (Intersection.uNom s1 s2 / Intersection.tDen s1 s2)).
Proof.
  intros E. apply vertex_eq in E. destruct E as [Ex Ey].
  unfold Intersection.tNom, Intersection.uNom, Intersection.tDen.
  cbn [nsub nmul nneg binary64]. rewrite <- Ex, <- Ey.
  rewrite !div_spec, opp_spec, !sub_spec, !mul_spec, !sub_spec. split.
  - apply SFdiv_self.
  - apply zero_or_nan_div, zero_or_nan_opp, zero_or_nan_sub.
    rewrite SFmul_comm. apply sim_refl.
Qed.

(** What [segments] returns when it returns a [t]. *)
Lemma segments_returns_t (s1 s2 : Segment.t float) (t u : float) :
  Intersection.t (Intersection.segments s1 s2) = Some t ->
  Intersection.u (Intersection.segments s1 s2) = Some u ->
  (Intersection.tDen s1 s2 =? 0) = false /\
  t = Intersection.tNom s1 s2 / Intersection.tDen s1 s2 /\
  u = Intersection.uNom s1 s2 / Intersection.tDen s1 s2 /\
  Intersection.intersect (Intersection.segments s1 s2)
  = between t 0 1 && between u 0 1.
Proof.
  unfold Intersection.segments.
  change (@neqb float binary64) with PrimFloat.eqb.
  change (@lit float binary64 0) with 0.
  destruct (Intersection.tDen s1 s2 =? 0);
    cbn [Intersection.t Intersection.u Intersection.intersect];
    [discriminate |].
  intros Ht Hu.
  assert (Et : t = Intersection.tNom s1 s2 / Intersection.tDen s1 s2)
    by (apply (f_equal (fun o => match o with Some v => v | None => t end)) in Ht;
        symmetry; exact Ht).
  assert (Eu : u = Intersection.uNom s1 s2 / Intersection.tDen s1 s2)
    by (apply (f_equal (fun o => match o with Some v => v | None => u end)) in Hu;
        symmetry; exact Hu).
  subst t u. repeat split.
Qed.

End SharedEndpointBinary64.

(** C2 (amended).  Two segments whose denominator [tDen] is [== 0]
    (parallel or collinear lines, also when the segments share an endpoint)
    report [intersect == false].  In exact arithmetic, two segments that
    share an endpoint and whose denominator is not zero report
    [intersect == true], with [t] equal to 0 or 1 and [u] equal to 0 or 1.
    In binary64, when the common point is the start of at least one of the
    two segments and the result has numbers [t] and [u] (the denominator
    is not [== 0] and neither is [NaN], which an overflow can produce),
    [intersect] is true, [t] is [== 0] where the point is the start of
    [s1] and exactly 1 where it is its end, and likewise [u] for [s2]. *)
Theorem segments_sharing_an_endpoint :
  (forall (num : Type) (N : Number num) (s1 s2 : Segment.t num),
      (Intersection.tDen s1 s2 == 0)%js = true ->
      Intersection.intersect (Intersection.segments s1 s2) = false) /\
  (forall s1 s2 : Segment.t R,
      share_endpoint s1 s2 ->
      Intersection.tDen s1 s2 <> 0%R ->
      let res := Intersection.segments s1 s2 in
      Intersection.intersect res = true /\
      (Intersection.t res = Some 0%R \/ Intersection.t res = Some 1%R) /\
      (Intersection.u res = Some 0%R \/ Intersection.u res = Some 1%R)) /\
  (forall (s1 s2 : Segment.t float) (t u : float),
      let res := Intersection.segments s1 s2 in
      Intersection.t res = Some t -> Intersection.u res = Some u ->
      is_nan t = false -> is_nan u = false ->
      (Segment.start s1 = Segment.start s2 ->
         Intersection.intersect res = true /\
         (t == 0)%js = true /\ (u == 0)%js = true) /\
      (Segment.start s1 = Segment.end_ s2 ->
         Intersection.intersect res = true /\
         (t == 0)%js = true /\ u = 1%float) /\
      (Segment.end_ s1 = Segment.start s2 ->
         Intersection.intersect res = true /\
         t = 1%float /\ (u == 0)%js = true)).
Proof.
  split; [| split].
  - intros num N s1 s2 Hden. rewrite (segments_parallel s1 s2 Hden). reflexivity.
  - intros s1 s2 Hshare Hden res.
    destruct (shared_endpoint_parameters s1 s2 Hshare Hden) as [Ht Hu].
    subst res. rewrite segments_crossing by (apply exact_eqb_false; exact Hden).
    cbn [Intersection.intersect Intersection.t Intersection.u ndiv lit exact].
    split; [| split].
    + apply andb_true_iff. split.
      * destruct Ht as [-> | ->]; [apply between_unit_0 | apply between_unit_1].
      * destruct Hu as [-> | ->]; [apply between_unit_0 | apply between_unit_1].
    + destruct Ht as [-> | ->]; [left | right]; reflexivity.
    + destruct Hu as [-> | ->]; [left | right]; reflexivity.
  - intros s1 s2 t u res Ht Hu Hnt Hnu. subst res.
    destruct (segments_returns_t s1 s2 t u Ht Hu) as [Hden [Et [Eu ->]]].
    change (@neqb float binary64) with PrimFloat.eqb.
    change (@lit float binary64 0) with 0%float.
    split; [| split]; intros E.
    + destruct (shared_start_start64 s1 s2 E) as [Zt Zu].
      rewrite <- Et in Zt. rewrite <- Eu in Zu.
      destruct (zero_or_nan_number t Zt Hnt) as [Ht0 Hbt].
      destruct (zero_or_nan_number u Zu Hnu) as [Hu0 Hbu].
      rewrite Hbt, Hbu. repeat split; assumption.
    + destruct (shared_start_end64 s1 s2 E Hden) as [Zt Zu].
      rewrite <- Et in Zt. rewrite <- Eu in Zu.
      destruct (zero_or_nan_number t Zt Hnt) as [Ht0 Hbt].
      destruct (one_or_nan_number u Zu Hnu) as [Hu1 Hbu].
      rewrite Hbt, Hbu. repeat split; try assumption.
      apply Prim2SF_inj.
      destruct Zu as [Zu | Zu]; [| exact Zu].
      rewrite (nan_is_nan u Zu) in Hnu. discriminate.
    + destruct (shared_end_start64 s1 s2 E) as [Zt Zu].
      rewrite <- Et in Zt. rewrite <- Eu in Zu.
      destruct (one_or_nan_number t Zt Hnt) as [Ht1 Hbt].
      destruct (zero_or_nan_number u Zu Hnu) as [Hu0 Hbu].
      rewrite Hbt, Hbu. repeat split; try assumption.
      apply Prim2SF_inj.
      destruct Zt as [Zt | Zt]; [| exact Zt].
      rewrite (nan_is_nan t Zt) in Hnt. discriminate.
Qed.

Lemma segments_sharing_an_endpoint_witness :
  Intersection.intersect
    (Intersection.segments (Segment.constructor 0 0 1 0) (Segment.constructor 1 0 2 0))%float
    = false /\
  Intersection.intersect
    (Intersection.segments (Segment.constructor 0 0 2 0) (Segment.constructor 0 0 0 2))%R
    = true /\
  Intersection.intersect
    (Intersection.segments (Segment.constructor 0 0 3 0x1.999999999999ap-3)
                           (Segment.constructor 0 1 0 0))%float
    = true.
Proof.
  split; [| split].
  - apply (proj1 segments_sharing_an_endpoint float binary64). reflexivity.
  - apply (proj1 (proj2 segments_sharing_an_endpoint)).
    + left. reflexivity.
    + unfold Intersection.tDen. cbn. lra.
  - refine (proj1 (proj1 (proj2
      (proj2 (proj2 segments_sharing_an_endpoint)
         (Segment.constructor 0 0 3 0x1.999999999999ap-3)%float
         (Segment.constructor 0 1 0 0)%float _ _
         eq_refl eq_refl _ _)) eq_refl)); reflexivity.
Defined.

(** C2, as stated, fails: these two segments share exactly the endpoint
    [(1, 0)]; they lie on one line, the denominator is 0 and [intersect] is
    false. *)
Lemma collinear_segments_do_not_intersect :
  share_exactly_one_endpoint
    (Segment.constructor 0 0 1 0)%float (Segment.constructor 1 0 2 0)%float /\
  Intersection.intersect
    (Intersection.segments (Segment.constructor 0 0 1 0) (Segment.constructor 1 0 2 0))%float
    = false.
Proof.
  split.
  - exact collinear_share_exactly_one.
  - reflexivity.
Qed.

(** ** Circle.getArea and Circle.getCircumference *)

Section CircleMetrics.

Lemma PI_gt_3 : (3 < PI)%R.
Proof. pose proof PI2_3_2. lra. Qed.

(** C3.  [getCircumference] is [2 * PI * radius] for every circle, and
    [getArea] is [PI * PI * radius], not [PI * radius * radius]: for the
    circle of radius 2 the code returns [19.739208802178716] in binary64,
    where [PI * 2 * 2] is [12.566370614359172]; in exact arithmetic the two
    differ as well. *)
Theorem Circle_getArea_at_radius_2 :
  (forall (num : Type) (N : Number num) (c : Circle.t num),
      Circle.getCircumference c = (2 * Math_PI * Circle.radius c)%js /\
      Circle.getArea c = (Math_PI * Math_PI * Circle.radius c)%js) /\
  (Circle.getArea (Circle.constructor 0 0 2) = 0x1.3bd3cc9be45dep+4 /\
   Math_PI * 2 * 2 = 0x1.921fb54442d18p+3 /\
   (Circle.getArea (Circle.constructor 0 0 2) =? Math_PI * 2 * 2) = false)%float /\
  (Circle.getArea (Circle.constructor 0 0 2) <> PI * 2 * 2)%R.
Proof.
  split; [| split].
  - intros num N c. split; reflexivity.
  - repeat split; reflexivity.
  - unfold Circle.getArea. cbn. pose proof PI_gt_3. nra.
Qed.

End CircleMetrics.

(** ** PolyLine and Polygon: decomposition into segments *)

Section Decomposition.
Context {num : Type} `{Number num}.

Lemma Segment_of_vertices (v1 v2 : Vertex.t num) :
  Segment.constructor (Vertex.x v1) (Vertex.y v1) (Vertex.x v2) (Vertex.y v2)
  = Segment.make v1 v2.
Proof. destruct v1, v2. reflexivity. Qed.

Lemma chain_cons (a b : Vertex.t num) (vs : list (Vertex.t num)) :
  chain (a :: b :: vs) = Segment.make a b :: chain (b :: vs).
Proof. reflexivity. Qed.

Lemma chain_length (vs : list (Vertex.t num)) :
  List.length (chain vs) = List.length vs - 1.
Proof.
  induction vs as [| v1 [| v2 rest] IH]; cbn [chain List.length] in *; lia.
Qed.

Lemma chain_skipn (vs : list (Vertex.t num)) (k : nat) (v1 v2 : Vertex.t num) :
  nth_error vs k = Some v1 ->
  nth_error vs (k + 1) = Some v2 ->
  chain (skipn k vs) = Segment.make v1 v2 :: chain (skipn (S k) vs).
Proof.
  revert vs. induction k as [| k IH]; intros [| a vs] H1 H2; try discriminate.
  - destruct vs as [| b vs]; [discriminate |].
    cbn in H1, H2. injection H1 as ->. injection H2 as ->. reflexivity.
  - cbn in H1, H2. cbn [skipn]. rewrite (IH vs H1 H2).
    destruct vs; reflexivity.
Qed.

(** The i-th segment of the chain joins vertex i to vertex i + 1. *)
Lemma chain_nth (vs : list (Vertex.t num)) (i : nat) (v1 v2 : Vertex.t num) :
  nth_error vs i = Some v1 ->
  nth_error vs (i + 1) = Some v2 ->
  nth_error (chain vs) i = Some (Segment.make v1 v2).
Proof.
  revert vs. induction i as [| i IH]; intros [| a vs] H1 H2; try discriminate.
  - destruct vs as [| b vs]; [discriminate |].
    cbn in H1, H2. injection H1 as ->. injection H2 as ->. reflexivity.
  - destruct vs as [| b vs]; [destruct i; discriminate |].
    rewrite chain_cons. cbn [nth_error]. apply IH; assumption.
Qed.

(** The loop of [PolyLine.toSegments], started at index [k] with [n]
    iterations to go, appends the chain of the vertices from [k] on. *)
Lemma toSegments_loop (vs : list (Vertex.t num)) (n k : nat)
    (acc : list (Segment.t num)) :
  k + n + 1 = List.length vs ->
  fold_left
    (fun segments i =>
       match segments, nth_error vs i, nth_error vs (i + 1) with
       | Some segs, Some v1, Some v2 =>
           Some (segs ++ [Segment.constructor (Vertex.x v1) (Vertex.y v1)
                                              (Vertex.x v2) (Vertex.y v2)])
       | _, _, _ => None
       end)
    (seq k n) (Some acc)
  = Some (acc ++ chain (skipn k vs)).
Proof.
  revert k acc. induction n as [| n IH]; intros k acc Hlen.
  - cbn. f_equal.
    assert (Hk : List.length (skipn k vs) = 1) by (rewrite length_skipn; lia).
    destruct (skipn k vs) as [| v [| w rest]]; cbn in Hk; try discriminate.
    cbn. now rewrite app_nil_r.
  - cbn [seq fold_left].
    destruct (nth_error vs k) as [v1 |] eqn:E1.
    2: { apply nth_error_None in E1. lia. }
    destruct (nth_error vs (k + 1)) as [v2 |] eqn:E2.
    2: { apply nth_error_None in E2. lia. }
    rewrite IH by lia. rewrite Segment_of_vertices, (chain_skipn vs k v1 v2 E1 E2).
    now rewrite <- app_assoc.
Qed.

(** [PolyLine.toSegments] never fails: it returns the chain. *)
Lemma PolyLine_toSegments_chain (p : PolyLine.t num) :
  PolyLine.toSegments p = Some (chain (PolyLine.vertices p)).
Proof.
  unfold PolyLine.toSegments.
  destruct (PolyLine.vertices p) as [| v vs] eqn:E.
  - reflexivity.
  - rewrite <- E. rewrite (toSegments_loop (PolyLine.vertices p) _ 0 []).
    + reflexivity.
    + rewrite E. cbn. lia.
Qed.

Lemma nth_error_last (A : Type) (l : list A) (a d : A) :
  nth_error (a :: l) (List.length (a :: l) - 1) = Some (last (a :: l) d).
Proof.
  cbn [List.length]. rewrite Nat.sub_1_r. cbn [Nat.pred].
  revert a. induction l as [| b l IH]; intros a.
  - reflexivity.
  - cbn [List.length nth_error]. rewrite IH. reflexivity.
Qed.

(** [Polygon.toSegments] appends to the chain one segment whose start is
    the first vertex and whose end is the last vertex. *)
Lemma Polygon_toSegments_closing (p : Polygon.t num)
    (v0 : Vertex.t num) (rest : list (Vertex.t num)) :
  Polygon.toVertices p = v0 :: rest ->
  Polygon.toSegments p
  = Some (chain (v0 :: rest) ++ [Segment.make v0 (last (v0 :: rest) v0)]).
Proof.
  unfold Polygon.toSegments, Polygon.toVertices, PolyLine.toVertices.
  intros E. rewrite PolyLine_toSegments_chain, E.
  rewrite (nth_error_last _ rest v0 v0). cbn [nth_error].
  now rewrite Segment_of_vertices.
Qed.

Lemma Polygon_toSegments_empty (p : Polygon.t num) :
  Polygon.toVertices p = [] -> Polygon.toSegments p = None.
Proof.
  unfold Polygon.toSegments, Polygon.toVertices, PolyLine.toVertices.
  intros E. rewrite PolyLine_toSegments_chain, E. reflexivity.
Qed.

Lemma sum_lengths_snoc (segs : list (Segment.t num)) (s : Segment.t num) :
  PolyLine.sum_lengths (segs ++ [s])
  = (PolyLine.sum_lengths segs + Segment.length s)%js.
Proof. unfold PolyLine.sum_lengths. now rewrite fold_left_app. Qed.

End Decomposition.

(** The two decompositions of the specification's square, evaluated. *)
Example open_square_segments :
  PolyLine.toSegments open_square
  = Some [Segment.constructor 0 0 2 0; Segment.constructor 2 0 2 2;
          Segment.constructor 2 2 0 2]%float.
Proof. reflexivity. Qed.

Example square_segments :
  Polygon.toSegments square
  = Some [Segment.constructor 0 0 2 0; Segment.constructor 2 0 2 2;
          Segment.constructor 2 2 0 2; Segment.constructor 0 0 0 2]%float.
Proof. reflexivity. Qed.

(** C5.  [PolyLine.toSegments] always returns, with one segment per pair
    of consecutive vertices and nothing else: [len(vertices) - 1] segments
    (none when there are fewer than 2 vertices), the i-th running from
    vertex i to vertex i + 1, so no segment closes the line; [length()] is
    the sum of the lengths of these segments, accumulated from 0.  The
    poly-line (0,0),(2,0),(2,2),(0,2) has 3 segments and length 6. *)
Theorem PolyLine_segments_and_length :
  (forall (num : Type) (N : Number num) (p : PolyLine.t num),
      exists segments : list (Segment.t num),
        PolyLine.toSegments p = Some segments /\
        List.length segments = List.length (PolyLine.vertices p) - 1 /\
        (List.length (PolyLine.vertices p) < 2 -> segments = []) /\
        (forall i s, nth_error segments i = Some s ->
           nth_error (PolyLine.vertices p) i = Some (Segment.start s) /\
           nth_error (PolyLine.vertices p) (i + 1) = Some (Segment.end_ s)) /\
        PolyLine.length p
        = Some (fold_left (fun len s => len + Segment.length s)%js segments 0%js)) /\
  (PolyLine.toSegments open_square
   = Some [Segment.constructor 0 0 2 0; Segment.constructor 2 0 2 2;
           Segment.constructor 2 2 0 2] /\
   PolyLine.length open_square = Some 6)%float.
Proof.
  split.
  - intros num N p. exists (chain (PolyLine.vertices p)).
    pose proof (chain_length (PolyLine.vertices p)) as Hlen.
    split; [apply PolyLine_toSegments_chain |].
    split; [exact Hlen |].
    split; [| split].
    + intros Hshort. destruct (chain (PolyLine.vertices p)); [reflexivity |].
      cbn [List.length] in Hlen. lia.
    + intros i s Hs.
      assert (Hi : i < List.length (chain (PolyLine.vertices p))).
      { apply nth_error_Some. congruence. }
      destruct (nth_error (PolyLine.vertices p) i) as [v1 |] eqn:E1.
      2: { apply nth_error_None in E1. lia. }
      destruct (nth_error (PolyLine.vertices p) (i + 1)) as [v2 |] eqn:E2.
      2: { apply nth_error_None in E2. lia. }
      rewrite (chain_nth _ i v1 v2 E1 E2) in Hs. injection Hs as <-.
      split; reflexivity.
    + unfold PolyLine.length. rewrite PolyLine_toSegments_chain. reflexivity.
  - split; [exact open_square_segments | reflexivity].
Qed.

Lemma PolyLine_segments_and_length_witness :
  exists segments : list (Segment.t float),
    PolyLine.toSegments open_square = Some segments /\
    List.length segments = 3 /\
    nth_error (PolyLine.vertices open_square) 3
    = option_map (fun s => Segment.end_ s) (nth_error segments 2).
Proof.
  destruct (proj1 PolyLine_segments_and_length float binary64 open_square)
    as (segments & Hsegs & Hlen & _ & Hnth & _).
  exists segments. split; [exact Hsegs | split; [exact Hlen |]].
  destruct (nth_error segments 2) as [s |] eqn:E.
  - exact (proj2 (Hnth 2 s E)).
  - apply nth_error_None in E. rewrite Hlen in E. cbn in E. lia.
Defined.

(** C4 (amended).  For a polygon with n >= 1 vertices, [toSegments]
    returns the n - 1 segments of the open chain followed by one closing
    segment, n segments in all; the closing segment starts at the FIRST
    vertex and ends at the LAST one; [length()] adds the length of the
    closing segment to the sum of the others.  The polygon
    (0,0),(2,0),(2,2),(0,2) has 4 segments, the closing one from (0,0) to
    (0,2), and length 8. *)
Theorem Polygon_segments_and_length :
  (forall (num : Type) (N : Number num) (p : Polygon.t num)
          (v0 : Vertex.t num) (rest : list (Vertex.t num)),
      Polygon.toVertices p = v0 :: rest ->
      let n := List.length (v0 :: rest) in
      let closing := Segment.make v0 (last (v0 :: rest) v0) in
      exists open_chain : list (Segment.t num),
        PolyLine.toSegments (Polygon.body p) = Some open_chain /\
        List.length open_chain = n - 1 /\
        Polygon.toSegments p = Some (open_chain ++ [closing]) /\
        List.length (open_chain ++ [closing]) = n /\
        Polygon.length p
        = Some (PolyLine.sum_lengths open_chain + Segment.length closing)%js) /\
  (Polygon.toSegments square
   = Some [Segment.constructor 0 0 2 0; Segment.constructor 2 0 2 2;
           Segment.constructor 2 2 0 2; Segment.constructor 0 0 0 2] /\
   Polygon.length square = Some 8)%float.
Proof.
  split.
  - intros num N p v0 rest Hvs n closing.
    exists (chain (v0 :: rest)).
    assert (Hbody : PolyLine.vertices (Polygon.body p) = v0 :: rest) by exact Hvs.
    pose proof (chain_length (v0 :: rest)) as Hlen.
    split; [| split; [| split; [| split]]].
    + rewrite PolyLine_toSegments_chain, Hbody. reflexivity.
    + exact Hlen.
    + apply Polygon_toSegments_closing. exact Hvs.
    + rewrite length_app, Hlen. subst n. cbn. lia.
    + unfold Polygon.length.
      rewrite (Polygon_toSegments_closing p v0 rest Hvs). cbn [option_map].
      now rewrite sum_lengths_snoc.
  - split; [exact square_segments | reflexivity].
Qed.

Lemma Polygon_segments_and_length_witness :
  exists open_chain : list (Segment.t float),
    List.length open_chain = 3 /\
    Polygon.toSegments square
    = Some (open_chain ++ [Segment.constructor 0 0 0 2])%float.
Proof.
  destruct (proj1 Polygon_segments_and_length float binary64 square
              (Vertex.constructor 0 0)%float
              [Vertex.constructor 2 0; Vertex.constructor 2 2;
               Vertex.constructor 0 2]%float eq_refl)
    as (open_chain & _ & Hlen & Hsegs & _).
  exists open_chain. split; [exact Hlen | exact Hsegs].
Defined.

(** C4, as stated, fails: the closing segment of the polygon
    (0,0),(2,0),(2,2),(0,2) is not the segment from (0,2) to (0,0). *)
Lemma square_closing_segment_not_from_last_vertex :
  ~ exists open_chain : list (Segment.t float),
      Polygon.toSegments square
      = Some (open_chain ++ [Segment.constructor 0 2 0 0])%float.
Proof.
  intros [open_chain Hsegs]. rewrite square_segments in Hsegs.
  injection Hsegs as Hsegs.
  change ([Segment.constructor 0 0 2 0; Segment.constructor 2 0 2 2;
           Segment.constructor 2 2 0 2] ++ [Segment.constructor 0 0 0 2]
          = open_chain ++ [Segment.constructor 0 2 0 0])%float in Hsegs.
  apply app_inj_tail in Hsegs as [_ Hclosing].
  apply (f_equal (fun s => Vertex.y (Segment.start s))) in Hclosing.
  revert Hclosing. apply float_neq. reflexivity.
Qed.

(** ** Segments of length zero *)

Section ZeroLength.
Local Open Scope float_scope.

Lemma eqb_zero_zero : (0 =? 0) = true.
Proof. reflexivity. Qed.

(** With a zero-length first segment the denominator is a difference of
    two products by zero. *)
Lemma tDen_zero_length_l (a : Vertex.t float) (s2 : Segment.t float) :
  is_finite (Vertex.x a) = true ->
  is_finite (Vertex.y a) = true ->
  is_finite (Vertex.x (Segment.start s2) - Vertex.x (Segment.end_ s2)) = true ->
  is_finite (Vertex.y (Segment.start s2) - Vertex.y (Segment.end_ s2)) = true ->
  (Intersection.tDen (Segment.make a a) s2 =? 0) = true.
Proof.
  intros Hx Hy Hdx Hdy. unfold Intersection.tDen. cbn.
  rewrite (sub_diag _ Hx), (sub_diag _ Hy).
  apply sub_zero_zero; apply mul_zero_l; auto using eqb_zero_zero.
Qed.

Lemma tDen_zero_length_r (a : Vertex.t float) (s2 : Segment.t float) :
  is_finite (Vertex.x a) = true ->
  is_finite (Vertex.y a) = true ->
  is_finite (Vertex.x (Segment.start s2) - Vertex.x (Segment.end_ s2)) = true ->
  is_finite (Vertex.y (Segment.start s2) - Vertex.y (Segment.end_ s2)) = true ->
  (Intersection.tDen s2 (Segment.make a a) =? 0) = true.
Proof.
  intros Hx Hy Hdx Hdy. unfold Intersection.tDen. cbn.
  rewrite (sub_diag _ Hx), (sub_diag _ Hy).
  apply sub_zero_zero; apply mul_zero_r; auto using eqb_zero_zero.
Qed.

End ZeroLength.

Lemma tDen_zero_length_exact (a : Vertex.t R) (s2 : Segment.t R) :
  Intersection.tDen (Segment.make a a) s2 = 0%R /\
  Intersection.tDen s2 (Segment.make a a) = 0%R.
Proof.
  unfold Intersection.tDen. cbn. split; ring.
Qed.

(** C6 (amended).  Let [s] be a zero-length segment with finite
    coordinates and [s2] a segment whose coordinate differences
    [s2.start.x - s2.end.x] and [s2.start.y - s2.end.y] are finite (they
    do not overflow).  Then [Intersection.segments(s, s2)] and
    [Intersection.segments(s2, s)] both return the parallel result:
    [parallel: true, vertex: null, intersect: false].  In exact arithmetic
    this holds for every [s2]. *)
Theorem zero_length_segment_is_parallel :
  (forall (a : Vertex.t float) (s2 : Segment.t float),
      is_finite (Vertex.x a) = true ->
      is_finite (Vertex.y a) = true ->
      is_finite (Vertex.x (Segment.start s2) - Vertex.x (Segment.end_ s2))%float = true ->
      is_finite (Vertex.y (Segment.start s2) - Vertex.y (Segment.end_ s2))%float = true ->
      Intersection.segments (Segment.make a a) s2 = parallel_result /\
      Intersection.segments s2 (Segment.make a a) = parallel_result) /\
  (forall (a : Vertex.t R) (s2 : Segment.t R),
      Intersection.segments (Segment.make a a) s2 = parallel_result /\
      Intersection.segments s2 (Segment.make a a) = parallel_result).
Proof.
  split.
  - intros a s2 Hx Hy Hdx Hdy. split; apply segments_parallel.
    + apply tDen_zero_length_l; assumption.
    + apply tDen_zero_length_r; assumption.
  - intros a s2. destruct (tDen_zero_length_exact a s2) as [Hl Hr].
    split; apply segments_parallel; apply exact_eqb; assumption.
Qed.

Lemma zero_length_segment_is_parallel_witness :
  Intersection.segments origin_point (Segment.constructor 0 0 3 4)%float
  = parallel_result /\
  Intersection.segments (Segment.constructor 0 0 3 4)%float origin_point
  = parallel_result.
Proof.
  apply (proj1 zero_length_segment_is_parallel
           (Vertex.constructor 0 0)%float (Segment.constructor 0 0 3 4)%float);
    reflexivity.
Defined.

(** C6, as stated, fails: [origin_point] has length zero and both segments
    have finite coordinates, but [2**1023 - -(2**1023)] overflows to
    [Infinity], [0 * Infinity] is [NaN] and [NaN == 0] is false: the
    parallel branch is not taken, in either order of the arguments. *)
Lemma zero_length_segment_overflow :
  Intersection.segments origin_point tall_segment
  = {| Intersection.parallel := false;
       Intersection.vertex := Some (Vertex.constructor nan nan);
       Intersection.intersect := false;
       Intersection.t := Some nan;
       Intersection.u := Some nan |} /\
  Intersection.parallel (Intersection.segments tall_segment origin_point) = false.
Proof. split; reflexivity. Qed.

(** ** A vertex against a circle *)

Section VertexVsCircle.
Local Open Scope float_scope.

(** The distance from a finite point to itself is [+0]. *)
Lemma plain_same_point (a b : float) :
  is_finite a = true -> is_finite b = true -> Distance.plain a b a b = 0.
Proof.
  intros Ha Hb. unfold Distance.plain. cbn.
  rewrite (sub_diag a Ha), (sub_diag b Hb). reflexivity.
Qed.

Lemma center_gap (c : Circle.t float) :
  is_finite (Circle.x c) = true ->
  is_finite (Circle.y c) = true ->
  Distance.vertexVsCircle (Circle.getCenter c) c = 0 - Circle.radius c.
Proof.
  intros Hx Hy. unfold Distance.vertexVsCircle, Circle.getCenter. cbn.
  change (Distance.plain (Circle.x c) (Circle.y c) (Circle.x c) (Circle.y c)
          - Circle.radius c = 0 - Circle.radius c).
  now rewrite plain_same_point.
Qed.

End VertexVsCircle.

(** C7.  [Collision.vertexVsCircle(v, c)] is the test
    [Distance.vertexVsCircle(v, c) < 0], for every reading of the numbers.
    In binary64: a vertex whose distance to the circle is [== 0] (on the
    boundary) does not collide, and the centre of a circle with finite
    coordinates and [radius > 0] does. *)
Theorem Collision_vertexVsCircle_strict :
  (forall (num : Type) (N : Number num) (v : Vertex.t num) (c : Circle.t num),
      Collision.vertexVsCircle v c = true <->
      (Distance.vertexVsCircle v c < 0)%js = true) /\
  (forall (v : Vertex.t float) (c : Circle.t float),
      (Distance.vertexVsCircle v c =? 0)%float = true ->
      Collision.vertexVsCircle v c = false) /\
  (forall c : Circle.t float,
      is_finite (Circle.x c) = true ->
      is_finite (Circle.y c) = true ->
      (Circle.radius c > 0)%js = true ->
      Collision.vertexVsCircle (Circle.getCenter c) c = true).
Proof.
  split; [| split].
  - intros num N v c. reflexivity.
  - intros v c Hzero. apply eqb_zero_not_neg. exact Hzero.
  - intros c Hx Hy Hr. unfold Collision.vertexVsCircle.
    rewrite (center_gap c Hx Hy). apply zero_sub_pos. exact Hr.
Qed.

Lemma Collision_vertexVsCircle_strict_witness :
  (Collision.vertexVsCircle (Vertex.constructor 5 0) (Circle.constructor 0 0 5)
   = false)%float /\
  (Collision.vertexVsCircle (Vertex.constructor 3 4) (Circle.constructor 3 4 5)
   = true)%float.
Proof.
  split.
  - apply (proj1 (proj2 Collision_vertexVsCircle_strict)). reflexivity.
  - apply (proj2 (proj2 Collision_vertexVsCircle_strict)
             (Circle.constructor 3 4 5)%float); reflexivity.
Defined.

(** ** Symmetry of the distances *)

Section DistanceSymmetry.
Local Open Scope float_scope.

(** The distance between two finite points is a non-negative number or
    [Infinity], never [NaN]: it is [==] to itself. *)
Lemma plain_signed (x1 y1 x2 y2 : float) :
  is_finite x1 = true -> is_finite y1 = true ->
  is_finite x2 = true -> is_finite y2 = true ->
  signed false (Prim2SF (Distance.plain x1 y1 x2 y2)).
Proof.
  intros Hx1 Hy1 Hx2 Hy2. unfold Distance.plain. cbn.
  rewrite sqrt_spec, add_spec, !mul_spec, !sub_spec.
  destruct (SFsub_finite x1 x2 Hx1 Hx2) as [sx Hdx].
  destruct (SFsub_finite y1 y2 Hy1 Hy2) as [sy Hdy].
  apply SFsqrt_nonneg, SFadd_nonneg; eapply SFmul_square; eassumption.
Qed.

Lemma eqb_same (a b : float) (s : bool) :
  a = b -> signed s (Prim2SF a) -> (a =? b) = true.
Proof.
  intros <- Hs. rewrite eqb_spec. exact (signed_eqb_refl s _ Hs).
Qed.

(** [plain] computes the same number whichever point comes first. *)
Lemma plain_swap (x1 y1 x2 y2 : float) :
  Distance.plain x1 y1 x2 y2 = Distance.plain x2 y2 x1 y1.
Proof.
  unfold Distance.plain. cbn.
  now rewrite (sq_sub_swap x1 x2), (sq_sub_swap y1 y2).
Qed.

End DistanceSymmetry.

Lemma circles_swap_exact (c1 c2 : Circle.t R) :
  Distance.circles c1 c2 = Distance.circles c2 c1.
Proof.
  unfold Distance.circles, Distance.plain. cbn.
  replace ((Circle.x c2 - Circle.x c1) * (Circle.x c2 - Circle.x c1)
           + (Circle.y c2 - Circle.y c1) * (Circle.y c2 - Circle.y c1))%R
    with ((Circle.x c1 - Circle.x c2) * (Circle.x c1 - Circle.x c2)
          + (Circle.y c1 - Circle.y c2) * (Circle.y c1 - Circle.y c2))%R by ring.
  ring.
Qed.

(** C8 (amended).  In binary64, [Distance.plain(p, q)] and
    [Distance.plain(q, p)] are the same number for all inputs; for finite
    coordinates [Distance.plain(p, q) == Distance.plain(q, p)] and
    [Distance.plain(p, p) == 0].  [Distance.circles(c1, c2)] and
    [Distance.circles(c2, c1)] subtract the two radii from one and the same
    centre distance [d], in opposite orders: [d - r1 - r2] and
    [d - r2 - r1].  The two are equal in exact arithmetic. *)
Theorem Distance_symmetry :
  (forall x1 y1 x2 y2 : float,
      Distance.plain x1 y1 x2 y2 = Distance.plain x2 y2 x1 y1) /\
  (forall x1 y1 x2 y2 : float,
      is_finite x1 = true -> is_finite y1 = true ->
      is_finite x2 = true -> is_finite y2 = true ->
      (Distance.plain x1 y1 x2 y2 == Distance.plain x2 y2 x1 y1)%js = true /\
      (Distance.plain x1 y1 x1 y1 == 0)%js = true) /\
  (forall c1 c2 : Circle.t float,
      let d := Distance.plain (Circle.x c1) (Circle.y c1) (Circle.x c2) (Circle.y c2) in
      Distance.circles c1 c2 = (d - Circle.radius c1 - Circle.radius c2)%float /\
      Distance.circles c2 c1 = (d - Circle.radius c2 - Circle.radius c1)%float) /\
  (forall c1 c2 : Circle.t R, Distance.circles c1 c2 = Distance.circles c2 c1).
Proof.
  split; [| split; [| split]].
  - exact plain_swap.
  - intros x1 y1 x2 y2 Hx1 Hy1 Hx2 Hy2. split.
    + apply (eqb_same _ _ false (plain_swap x1 y1 x2 y2)).
      apply plain_signed; assumption.
    + rewrite (plain_same_point x1 y1 Hx1 Hy1). reflexivity.
  - intros c1 c2 d. split.
    + reflexivity.
    + unfold Distance.circles. rewrite plain_swap. reflexivity.
  - exact circles_swap_exact.
Qed.

Lemma Distance_symmetry_witness :
  ((Distance.plain 0 0 3 4 == Distance.plain 3 4 0 0)%js = true)%float /\
  ((Distance.plain 3 4 3 4 == 0)%js = true)%float.
Proof.
  apply (proj1 (proj2 Distance_symmetry) 0 0 3 4)%float; reflexivity.
Defined.

(** C8, as stated, fails for the circles: the centres of [unit_circle] and
    [huge_circle] are [2**54] apart, and [2**54 - 1] rounds to [2**54]
    (the doubles above [2**53] are even integers).  One order gives
    [(2**54 - 1) - 2**54 = 0], the other [(2**54 - 2**54) - 1 = -1]. *)
Lemma circles_distance_depends_on_order :
  (Distance.circles unit_circle huge_circle = 0 /\
   Distance.circles huge_circle unit_circle = -1 /\
   (Distance.circles unit_circle huge_circle
    =? Distance.circles huge_circle unit_circle) = false)%float.
Proof. repeat split; reflexivity. Qed.

(** The same with everyday magnitudes: centres 1 apart, radii [0.1] and
    [0.7] (written as the doubles these literals denote); the two orders
    give [0.20000000000000007] and [0.20000000000000004]. *)
Remark circles_distance_rounding :
  (Distance.circles (Circle.constructor 0 0 0x1.999999999999ap-4)
                    (Circle.constructor 1 0 0x1.6666666666666p-1)
   =? Distance.circles (Circle.constructor 1 0 0x1.6666666666666p-1)
                       (Circle.constructor 0 0 0x1.999999999999ap-4))%float
  = false.
Proof. reflexivity. Qed.

(** ** cartesianToPolar on the y axis *)

Section OnTheYAxis.
Context {num : Type} `{Number num}.
Local Open Scope js_scope.

Lemma cartesianToPolar_x_zero (Math_atan : num -> num) (x y : num) :
  (x == 0) = true ->
  phi (cartesianToPolar Math_atan x y)
  = if y > 0 then Math_PI / 2 else Math_PI / 2 * 3.
Proof.
  intros Hx. unfold cartesianToPolar, cartesianToPolar_with. cbn [phi].
  rewrite Hx. reflexivity.
Qed.

End OnTheYAxis.

(** The function never asks for a quotient whose divisor is [== 0]:
    replacing [/] by any operator that agrees with it on the other divisors
    does not change the result. *)
Lemma cartesianToPolar_divisors (divide : float -> float -> float)
    (Math_atan : float -> float) (x y : float) :
  (forall a b : float, (b =? 0)%float = false -> divide a b = (a / b)%float) ->
  cartesianToPolar_with divide Math_atan x y = cartesianToPolar Math_atan x y.
Proof.
  intros Hdiv. unfold cartesianToPolar, cartesianToPolar_with.
  assert (H2 : divide Math_PI 2%js = (Math_PI / 2)%js) by (apply Hdiv; reflexivity).
  destruct (x == 0)%js eqn:Hx.
  - rewrite H2. reflexivity.
  - rewrite (Hdiv y x Hx). reflexivity.
Qed.

(** C9.  When [x == 0], [cartesianToPolar] does not divide by [x]: [phi]
    is [PI/2] for [y > 0] and [PI/2 * 3] otherwise, for every reading of
    the numbers and whatever [Math.atan] is.  In binary64 [PI/2 * 3] is the
    double [3*PI/2]; no quotient with a divisor [== 0] is ever computed;
    [cartesianToPolar(0, 5).phi] is [PI/2], and
    [cartesianToPolar(0, -5).phi] and [cartesianToPolar(0, 0).phi] are
    [3*PI/2]. *)
Theorem cartesianToPolar_on_the_y_axis :
  (forall (num : Type) (N : Number num) (Math_atan : num -> num) (x y : num),
      (x == 0)%js = true ->
      phi (cartesianToPolar Math_atan x y)
      = (if y > 0 then Math_PI / 2 else Math_PI / 2 * 3)%js) /\
  (forall (Math_atan : float -> float) (x y : float),
      (x == 0)%js = true ->
      phi (cartesianToPolar Math_atan x y)
      = if (y > 0)%js then (Math_PI / 2)%float else (3 * Math_PI / 2)%float) /\
  (forall (divide : float -> float -> float) (Math_atan : float -> float)
          (x y : float),
      (forall a b : float, (b =? 0)%float = false -> divide a b = (a / b)%float) ->
      cartesianToPolar_with divide Math_atan x y = cartesianToPolar Math_atan x y) /\
  (forall Math_atan : float -> float,
      phi (cartesianToPolar Math_atan 0 5) = Math_PI / 2 /\
      phi (cartesianToPolar Math_atan 0 (-5)) = 3 * Math_PI / 2 /\
      phi (cartesianToPolar Math_atan 0 0) = 3 * Math_PI / 2)%float.
Proof.
  split; [| split; [| split]].
  - intros num N Math_atan x y. apply cartesianToPolar_x_zero.
  - intros Math_atan x y Hx.
    rewrite (cartesianToPolar_x_zero Math_atan x y Hx).
    destruct (y > 0)%js; reflexivity.
  - exact cartesianToPolar_divisors.
  - intros Math_atan. repeat split; reflexivity.
Qed.

Lemma cartesianToPolar_on_the_y_axis_witness :
  (phi (cartesianToPolar (fun a => a) (-0) 7) = Math_PI / 2)%float.
Proof.
  apply (proj1 (proj2 cartesianToPolar_on_the_y_axis) (fun a => a) (-0) 7)%float.
  reflexivity.
Defined.

(** ** The constructors of PolyLine and Polygon *)

Section Constructors.
Context {num : Type} `{Number num}.
Local Open Scope js_scope.

Lemma ToBoolean_zero (a : num) : (a == 0) = true -> ToBoolean a = false.
Proof. intros Ha. unfold ToBoolean. now rewrite Ha. Qed.

Lemma ToBoolean_number (a : num) :
  (a == 0) = false -> (a == a) = true -> ToBoolean a = true.
Proof. intros Ha Haa. unfold ToBoolean. now rewrite Ha. Qed.

End Constructors.

(** C10.  [new PolyLine(x, y)] and [new Polygon(x, y)] start with no vertex
    when [x == 0] or [y == 0]: the guard [x && y] is falsy.  With two
    numbers that are not zero (and not [NaN], the other falsy number) they
    start with the one vertex [(x, y)]. *)
Theorem constructor_drops_zero_coordinates :
  forall (num : Type) (N : Number num) (x y : num),
    ((x == 0)%js = true \/ (y == 0)%js = true ->
       PolyLine.vertices (PolyLine.constructor (Some x) (Some y)) = [] /\
       Polygon.toVertices (Polygon.constructor (Some x) (Some y)) = []) /\
    ((x == 0)%js = false -> (y == 0)%js = false ->
     (x == x)%js = true -> (y == y)%js = true ->
       PolyLine.vertices (PolyLine.constructor (Some x) (Some y))
       = [Vertex.constructor x y] /\
       Polygon.toVertices (Polygon.constructor (Some x) (Some y))
       = [Vertex.constructor x y]).
Proof.
  intros num N x y. split.
  - intros Hzero.
    assert (Hguard : ToBoolean x && ToBoolean y = false).
    { destruct Hzero as [Hx | Hy].
      - now rewrite (ToBoolean_zero x Hx).
      - rewrite (ToBoolean_zero y Hy). apply andb_false_r. }
    unfold Polygon.toVertices, Polygon.constructor, PolyLine.toVertices,
      PolyLine.constructor. cbn. rewrite Hguard. split; reflexivity.
  - intros Hx Hy Hxx Hyy.
    unfold Polygon.toVertices, Polygon.constructor, PolyLine.toVertices,
      PolyLine.constructor. cbn.
    rewrite (ToBoolean_number x Hx Hxx), (ToBoolean_number y Hy Hyy).
    split; reflexivity.
Qed.

Lemma constructor_drops_zero_coordinates_witness :
  (PolyLine.vertices (PolyLine.constructor (Some 0) (Some 5)) = [] /\
   Polygon.toVertices (Polygon.constructor (Some 3) (Some 1))
   = [Vertex.constructor 3 1])%float.
Proof.
  split.
  - apply (proj1 (constructor_drops_zero_coordinates float binary64 0 5)%float).
    left. reflexivity.
  - apply (proj2 (constructor_drops_zero_coordinates float binary64 3 1)%float);
      reflexivity.
Defined.

(** [NaN] is the third falsy number: it is dropped like a zero. *)
Remark constructor_drops_NaN :
  PolyLine.vertices (PolyLine.constructor (Some nan) (Some 1%float)) = [].
Proof. reflexivity. Qed.

(** A polygon meant to start at the origin therefore starts empty, and its
    decomposition throws. *)
Remark polygon_at_origin_has_no_segments :
  Polygon.toSegments (Polygon.constructor (Some 0%float) (Some 0%float)) = None.
Proof. reflexivity. Qed.

(** * Further properties of the geometry kernel *)

Lemma exact_ltb (a b : R) : nltb a b = true <-> (a < b)%R.
Proof. cbn. destruct (Rlt_dec a b); split; intros; congruence. Qed.

Lemma exact_ltb_false (a b : R) : nltb a b = false <-> (b <= a)%R.
Proof. cbn. destruct (Rlt_dec a b); split; intros; try congruence; lra. Qed.

Lemma exact_leb_false (a b : R) : nleb a b = false <-> (b < a)%R.
Proof. cbn. destruct (Rle_dec a b); split; intros; try congruence; lra. Qed.

(** ** Intersection.segments finds the common point, and only it *)

(** X1.  In exact arithmetic, for two segments on lines that are not
    parallel, [Intersection.segments] reports [intersect] exactly when the
    segments have a point in common, and the vertex it returns is that
    point. *)
Theorem segments_intersect_iff_common_point :
  forall s1 s2 : Segment.t R,
    Intersection.tDen s1 s2 <> 0%R ->
    (Intersection.intersect (Intersection.segments s1 s2) = true <->
     exists k l : R,
       (0 <= k <= 1)%R /\ (0 <= l <= 1)%R /\ point_at s1 k = point_at s2 l) /\
    (forall k l : R,
       point_at s1 k = point_at s2 l ->
       Intersection.vertex (Intersection.segments s1 s2) = Some (point_at s1 k)).
Proof.
  intros s1 s2 Hden.
  rewrite segments_crossing by (apply exact_eqb_false; exact Hden).
  cbn [Intersection.intersect Intersection.vertex ndiv lit exact].
  split.
  - rewrite andb_true_iff, !exact_between. split.
    + intros [Ht Hu].
      exists (Intersection.tNom s1 s2 / Intersection.tDen s1 s2)%R,
             (Intersection.uNom s1 s2 / Intersection.tDen s1 s2)%R.
      split; [exact Ht | split; [exact Hu |]].
      apply crossing_point_on_both_lines. exact Hden.
    + intros (k & l & Hk & Hl & Hpoint).
      destruct (common_point_parameters s1 s2 k l Hden Hpoint) as [-> ->].
      split; assumption.
  - intros k l Hpoint.
    destruct (common_point_parameters s1 s2 k l Hden Hpoint) as [-> _].
    reflexivity.
Qed.

Lemma segments_intersect_iff_common_point_witness :
  Intersection.intersect
    (Intersection.segments (Segment.constructor 0 0 2 2) (Segment.constructor 0 2 2 0))%R
  = true.
Proof.
  apply (proj1 (segments_intersect_iff_common_point
                  (Segment.constructor 0 0 2 2)%R (Segment.constructor 0 2 2 0)%R
                  ltac:(unfold Intersection.tDen; cbn; lra))).
  exists (1 / 2)%R, (1 / 2)%R.
  split; [lra | split; [lra |]].
  unfold point_at, direction. cbn. f_equal; lra.
Defined.

(** ** Swapping the two segments *)

Section Swap.
Local Open Scope R_scope.

Lemma tDen_swap (s1 s2 : Segment.t R) :
  Intersection.tDen s2 s1 = - Intersection.tDen s1 s2.
Proof. unfold Intersection.tDen. cbn. ring. Qed.

Lemma tNom_swap (s1 s2 : Segment.t R) :
  Intersection.tNom s2 s1 = - Intersection.uNom s1 s2.
Proof. unfold Intersection.tNom, Intersection.uNom. cbn. ring. Qed.

Lemma uNom_swap (s1 s2 : Segment.t R) :
  Intersection.uNom s2 s1 = - Intersection.tNom s1 s2.
Proof. unfold Intersection.tNom, Intersection.uNom. cbn. ring. Qed.

End Swap.

(** X2.  In exact arithmetic, swapping the arguments of
    [Intersection.segments] swaps [t] and [u] and changes nothing else:
    [parallel], [intersect] and the vertex are the same, so
    [Collision.segments] is symmetric. *)
Theorem segments_swap :
  forall s1 s2 : Segment.t R,
    let r12 := Intersection.segments s1 s2 in
    let r21 := Intersection.segments s2 s1 in
    Intersection.parallel r21 = Intersection.parallel r12 /\
    Intersection.intersect r21 = Intersection.intersect r12 /\
    Intersection.vertex r21 = Intersection.vertex r12 /\
    Intersection.t r21 = Intersection.u r12 /\
    Intersection.u r21 = Intersection.t r12 /\
    Collision.segments s2 s1 = Collision.segments s1 s2.
Proof.
  intros s1 s2 r12 r21. subst r12 r21. unfold Collision.segments.
  destruct (Req_dec_T (Intersection.tDen s1 s2) 0) as [Hden | Hden].
  - assert (Hden' : Intersection.tDen s2 s1 = 0%R)
      by (rewrite tDen_swap, Hden; ring).
    rewrite (segments_parallel s1 s2), (segments_parallel s2 s1)
      by (apply exact_eqb; assumption).
    repeat split.
  - assert (Hden' : Intersection.tDen s2 s1 <> 0%R)
      by (rewrite tDen_swap; lra).
    pose proof (crossing_point_on_both_lines s1 s2 Hden) as Hpoint.
    rewrite (segments_crossing s1 s2), (segments_crossing s2 s1)
      by (apply exact_eqb_false; assumption).
    cbn [Intersection.parallel Intersection.intersect Intersection.vertex
         Intersection.t Intersection.u ndiv lit exact].
    assert (Ht : (Intersection.tNom s2 s1 / Intersection.tDen s2 s1
                  = Intersection.uNom s1 s2 / Intersection.tDen s1 s2)%R).
    { rewrite tNom_swap, tDen_swap. field. exact Hden. }
    assert (Hu : (Intersection.uNom s2 s1 / Intersection.tDen s2 s1
                  = Intersection.tNom s1 s2 / Intersection.tDen s1 s2)%R).
    { rewrite uNom_swap, tDen_swap. field. exact Hden. }
    rewrite Ht, Hu, Hpoint.
    repeat split; apply andb_comm.
Qed.

(** ** Distance.plain as a metric *)

Section MetricBinary64.
Local Open Scope float_scope.

Lemma signed_not_negative (a : float) :
  signed false (Prim2SF a) -> (a <? 0) = false /\ (0 <=? a) = true.
Proof.
  rewrite ltb_spec, leb_spec, SF_zero.
  intros [-> | [-> | (m & e & ->)]]; split; reflexivity.
Qed.

End MetricBinary64.

(** X3.  In binary64, the distance between two points with finite
    coordinates is never negative and never [NaN] (it may be [Infinity],
    when the squares overflow). *)
Theorem Distance_plain_not_negative :
  forall x1 y1 x2 y2 : float,
    is_finite x1 = true -> is_finite y1 = true ->
    is_finite x2 = true -> is_finite y2 = true ->
    (Distance.plain x1 y1 x2 y2 < 0)%js = false /\
    (Distance.plain x1 y1 x2 y2 >= 0)%js = true /\
    is_nan (Distance.plain x1 y1 x2 y2) = false.
Proof.
  intros x1 y1 x2 y2 Hx1 Hy1 Hx2 Hy2.
  pose proof (plain_signed x1 y1 x2 y2 Hx1 Hy1 Hx2 Hy2) as Hs.
  destruct (signed_not_negative _ Hs) as [Hlt Hle].
  split; [exact Hlt | split; [exact Hle |]].
  unfold is_nan. rewrite (eqb_same _ _ false eq_refl Hs). reflexivity.
Qed.

Lemma Distance_plain_not_negative_witness :
  ((Distance.plain 0x1p+1023 0 (-0x1p+1023) 0 >= 0)%js = true)%float.
Proof.
  apply (Distance_plain_not_negative 0x1p+1023 0 (-0x1p+1023) 0)%float;
    reflexivity.
Defined.

Section MetricExact.
Local Open Scope R_scope.

Lemma plain_dist_euc (x1 y1 x2 y2 : R) :
  Distance.plain x1 y1 x2 y2 = dist_euc x1 y1 x2 y2.
Proof. reflexivity. Qed.

Lemma plain_zero_iff (x1 y1 x2 y2 : R) :
  Distance.plain x1 y1 x2 y2 = 0 <-> x1 = x2 /\ y1 = y2.
Proof.
  unfold Distance.plain. cbn. split.
  - intros Hd. apply sqrt_eq_0 in Hd.
    + apply (Rplus_sqr_eq_0 (x1 - x2) (y1 - y2)) in Hd. lra.
    + apply Rplus_le_le_0_compat; apply Rle_0_sqr.
  - intros [-> ->].
    replace ((x2 - x2) * (x2 - x2) + (y2 - y2) * (y2 - y2)) with 0 by ring.
    apply sqrt_0.
Qed.

Lemma plain_nonneg (x1 y1 x2 y2 : R) : 0 <= Distance.plain x1 y1 x2 y2.
Proof. apply sqrt_pos. Qed.

Lemma plain_triangle (x1 y1 x2 y2 x3 y3 : R) :
  Distance.plain x1 y1 x3 y3
  <= Distance.plain x1 y1 x2 y2 + Distance.plain x2 y2 x3 y3.
Proof. rewrite !plain_dist_euc. apply triangle. Qed.

Lemma plain_swap_exact (x1 y1 x2 y2 : R) :
  Distance.plain x1 y1 x2 y2 = Distance.plain x2 y2 x1 y1.
Proof. rewrite !plain_dist_euc. apply distance_symm. Qed.

End MetricExact.

(** X4.  In exact arithmetic [Distance.vertices] is a metric on the
    vertices: it is zero exactly for equal vertices, which is exactly when
    [Collision.vertices] holds, and it satisfies the triangle
    inequality. *)
Theorem Distance_vertices_metric :
  forall v1 v2 v3 : Vertex.t R,
    (Distance.vertices v1 v2 = 0%R <-> v1 = v2) /\
    (Collision.vertices v1 v2 = true <-> Distance.vertices v1 v2 = 0%R) /\
    (Distance.vertices v1 v3 <= Distance.vertices v1 v2 + Distance.vertices v2 v3)%R.
Proof.
  intros [x1 y1] [x2 y2] [x3 y3]. unfold Distance.vertices, Collision.vertices.
  cbn [Vertex.x Vertex.y].
  split; [| split].
  - rewrite plain_zero_iff. split.
    + intros [-> ->]. reflexivity.
    + intros E. injection E as -> ->. split; reflexivity.
  - rewrite plain_zero_iff, andb_true_iff, !exact_eqb. reflexivity.
  - apply plain_triangle.
Qed.

(** X5.  In exact arithmetic [Collision.circles(c1, c2)] holds exactly
    when the centres are closer than the sum of the radii; in particular
    two circles that contain a common vertex collide. *)
Theorem circles_collide_iff :
  forall c1 c2 : Circle.t R,
    (Collision.circles c1 c2 = true <->
     (Distance.vertices (Circle.getCenter c1) (Circle.getCenter c2)
      < Circle.radius c1 + Circle.radius c2)%R) /\
    (forall v : Vertex.t R,
        Collision.vertexVsCircle v c1 = true ->
        Collision.vertexVsCircle v c2 = true ->
        Collision.circles c1 c2 = true).
Proof.
  intros [x1 y1 r1] [x2 y2 r2].
  unfold Collision.circles, Collision.vertexVsCircle, Distance.circles,
    Distance.vertexVsCircle, Distance.vertices, Circle.getCenter.
  cbn [Circle.x Circle.y Circle.radius Vertex.x Vertex.y nsub lit exact].
  split.
  - rewrite exact_ltb. split; intros Hd; lra.
  - intros [x y]. cbn [Vertex.x Vertex.y]. rewrite !exact_ltb. intros H1 H2.
    pose proof (plain_triangle x1 y1 x y x2 y2) as Htri.
    rewrite (plain_swap_exact x1 y1 x y) in Htri. lra.
Qed.

Lemma circles_collide_iff_witness :
  (Collision.circles (Circle.constructor 0 0 2) (Circle.constructor 3 0 2) = true)%R.
Proof.
  apply (proj2 (circles_collide_iff (Circle.constructor 0 0 2)%R
                                    (Circle.constructor 3 0 2)%R)
           (Vertex.constructor (3 / 2) 0)%R);
    unfold Collision.vertexVsCircle, Distance.vertexVsCircle, Distance.plain;
    cbn; apply exact_ltb.
  - replace ((3 / 2 - 0) * (3 / 2 - 0) + (0 - 0) * (0 - 0))%R
      with (Rsqr (3 / 2)) by (unfold Rsqr; lra).
    rewrite sqrt_Rsqr; lra.
  - replace ((3 / 2 - 3) * (3 / 2 - 3) + (0 - 0) * (0 - 0))%R
      with (Rsqr (3 / 2)) by (unfold Rsqr; lra).
    rewrite sqrt_Rsqr; lra.
Defined.

(** ** A vertex is a circle of radius zero *)

Section RadiusZero.
Local Open Scope float_scope.

(** Subtracting [+0] changes no binary64 number, [NaN] and [-0] included. *)
Lemma sub_zero_r (a : float) : a - 0 = a.
Proof.
  apply Prim2SF_inj. rewrite sub_spec, SF_zero.
  destruct (Prim2SF a) as [[] | [] | | s m e]; reflexivity.
Qed.

End RadiusZero.

(** X6.  The distance from a vertex to a circle is the distance between
    the circle of radius 0 at that vertex and the circle, and the two
    collision tests agree: in binary64 for all inputs, and in exact
    arithmetic. *)
Theorem vertex_as_circle_of_radius_zero :
  (forall (v : Vertex.t float) (c : Circle.t float),
      let c0 := Circle.constructor (Vertex.x v) (Vertex.y v) 0%float in
      Distance.circles c0 c = Distance.vertexVsCircle v c /\
      Collision.circles c0 c = Collision.vertexVsCircle v c) /\
  (forall (v : Vertex.t R) (c : Circle.t R),
      let c0 := Circle.constructor (Vertex.x v) (Vertex.y v) 0%R in
      Distance.circles c0 c = Distance.vertexVsCircle v c /\
      Collision.circles c0 c = Collision.vertexVsCircle v c).
Proof.
  split.
  - intros v c c0.
    assert (Hd : Distance.circles c0 c = Distance.vertexVsCircle v c).
    { unfold Distance.circles, Distance.vertexVsCircle, c0.
      cbn [Circle.x Circle.y Circle.radius nsub binary64].
      now rewrite sub_zero_r. }
    split; [exact Hd |]. unfold Collision.circles, Collision.vertexVsCircle.
    now rewrite Hd.
  - intros v c c0.
    assert (Hd : Distance.circles c0 c = Distance.vertexVsCircle v c).
    { unfold Distance.circles, Distance.vertexVsCircle, c0.
      cbn [Circle.x Circle.y Circle.radius nsub exact]. ring. }
    split; [exact Hd |]. unfold Collision.circles, Collision.vertexVsCircle.
    now rewrite Hd.
Qed.

(** ** Moving shapes *)

Section MoveExact.
Local Open Scope R_scope.

Lemma vertices_move (v1 v2 : Vertex.t R) (dx dy : R) :
  Distance.vertices (Vertex.move v1 dx dy) (Vertex.move v2 dx dy)
  = Distance.vertices v1 v2.
Proof.
  unfold Distance.vertices, Distance.plain, Vertex.move. cbn.
  f_equal. ring.
Qed.

Lemma Segment_length_move (s : Segment.t R) (dx dy : R) :
  Segment.length (Segment.move s dx dy) = Segment.length s.
Proof. unfold Segment.length, Segment.move. cbn. apply vertices_move. Qed.

Lemma chain_move (vs : list (Vertex.t R)) (dx dy : R) :
  chain (map (fun e => Vertex.move e dx dy) vs)
  = map (fun s => Segment.move s dx dy) (chain vs).
Proof.
  induction vs as [| v1 [| v2 rest] IH]; try reflexivity.
  cbn [map] in *. rewrite !chain_cons. cbn [map]. now rewrite IH.
Qed.

Lemma sum_lengths_move (segs : list (Segment.t R)) (dx dy : R) :
  PolyLine.sum_lengths (map (fun s => Segment.move s dx dy) segs)
  = PolyLine.sum_lengths segs.
Proof.
  unfold PolyLine.sum_lengths. generalize (@lit R exact 0%Z).
  induction segs as [| s segs IH]; intros acc; [reflexivity |].
  cbn [map fold_left]. now rewrite Segment_length_move, IH.
Qed.

Lemma last_map (A B : Type) (f : A -> B) (l : list A) (d : A) :
  last (map f l) (f d) = f (last l d).
Proof.
  induction l as [| a [| b l] IH]; try reflexivity. exact IH.
Qed.

End MoveExact.

(** X7.  In exact arithmetic, moving shapes by the same offset changes no
    distance and no length: [Distance.vertices], [Distance.circles],
    [Segment.length], [PolyLine.length] and [Polygon.length] are invariant
    under [move]. *)
Theorem move_preserves_lengths :
  forall dx dy : R,
    (forall v1 v2 : Vertex.t R,
        Distance.vertices (Vertex.move v1 dx dy) (Vertex.move v2 dx dy)
        = Distance.vertices v1 v2) /\
    (forall c1 c2 : Circle.t R,
        Distance.circles (Circle.move c1 dx dy) (Circle.move c2 dx dy)
        = Distance.circles c1 c2) /\
    (forall s : Segment.t R,
        Segment.length (Segment.move s dx dy) = Segment.length s) /\
    (forall p : PolyLine.t R,
        PolyLine.length (PolyLine.move p dx dy) = PolyLine.length p) /\
    (forall p : Polygon.t R,
        Polygon.length (Polygon.move p dx dy) = Polygon.length p).
Proof.
  intros dx dy. split; [| split; [| split; [| split]]].
  - intros v1 v2. apply vertices_move.
  - intros c1 c2. unfold Distance.circles, Distance.plain, Circle.move. cbn.
    do 2 f_equal. f_equal. ring.
  - intros s. apply Segment_length_move.
  - intros p. unfold PolyLine.length.
    rewrite !PolyLine_toSegments_chain. cbn [option_map PolyLine.move PolyLine.vertices].
    now rewrite chain_move, sum_lengths_move.
  - intros [[vs]]. unfold Polygon.length.
    destruct vs as [| v0 rest].
    + reflexivity.
    + rewrite (Polygon_toSegments_closing
                 (Polygon.make (PolyLine.make (v0 :: rest))) v0 rest eq_refl).
      rewrite (Polygon_toSegments_closing
                 (Polygon.move (Polygon.make (PolyLine.make (v0 :: rest))) dx dy)
                 (Vertex.move v0 dx dy)
                 (map (fun e => Vertex.move e dx dy) rest) eq_refl).
      cbn [option_map]. rewrite !sum_lengths_snoc.
      change (Vertex.move v0 dx dy :: map (fun e => Vertex.move e dx dy) rest)
        with (map (fun e => Vertex.move e dx dy) (v0 :: rest)).
      rewrite chain_move, sum_lengths_move. f_equal. f_equal.
      unfold Segment.length. cbn [Segment.start Segment.end_].
      rewrite <- (vertices_move v0 (last (v0 :: rest) v0) dx dy). f_equal.
      apply (last_map _ _ (fun e => Vertex.move e dx dy) (v0 :: rest) v0).
Qed.

Section MoveIntersection.
Local Open Scope R_scope.

Lemma tDen_move (s1 s2 : Segment.t R) (dx dy : R) :
  Intersection.tDen (Segment.move s1 dx dy) (Segment.move s2 dx dy)
  = Intersection.tDen s1 s2.
Proof. unfold Intersection.tDen, Segment.move, Vertex.move. cbn. ring. Qed.

Lemma tNom_move (s1 s2 : Segment.t R) (dx dy : R) :
  Intersection.tNom (Segment.move s1 dx dy) (Segment.move s2 dx dy)
  = Intersection.tNom s1 s2.
Proof. unfold Intersection.tNom, Segment.move, Vertex.move. cbn. ring. Qed.

Lemma uNom_move (s1 s2 : Segment.t R) (dx dy : R) :
  Intersection.uNom (Segment.move s1 dx dy) (Segment.move s2 dx dy)
  = Intersection.uNom s1 s2.
Proof. unfold Intersection.uNom, Segment.move, Vertex.move. cbn. ring. Qed.

Lemma point_at_move (s : Segment.t R) (k dx dy : R) :
  point_at (Segment.move s dx dy) k = Vertex.move (point_at s k) dx dy.
Proof.
  unfold point_at, direction, Segment.move, Vertex.move. cbn. f_equal; ring.
Qed.

End MoveIntersection.

(** X8.  In exact arithmetic, moving both segments by the same offset
    moves the intersection vertex by that offset and leaves [parallel],
    [intersect], [t] and [u] unchanged. *)
Theorem segments_move :
  forall (s1 s2 : Segment.t R) (dx dy : R),
    let res := Intersection.segments s1 s2 in
    let moved := Intersection.segments (Segment.move s1 dx dy) (Segment.move s2 dx dy) in
    Intersection.parallel moved = Intersection.parallel res /\
    Intersection.intersect moved = Intersection.intersect res /\
    Intersection.t moved = Intersection.t res /\
    Intersection.u moved = Intersection.u res /\
    Intersection.vertex moved
    = option_map (fun v => Vertex.move v dx dy) (Intersection.vertex res).
Proof.
  intros s1 s2 dx dy res moved. subst res moved.
  destruct (neqb (Intersection.tDen s1 s2) 0%js) eqn:Hden.
  - rewrite (segments_parallel s1 s2 Hden).
    rewrite segments_parallel by (rewrite tDen_move; exact Hden).
    repeat split.
  - rewrite (segments_crossing s1 s2 Hden).
    rewrite segments_crossing by (rewrite tDen_move; exact Hden).
    cbn [Intersection.parallel Intersection.intersect Intersection.vertex
         Intersection.t Intersection.u option_map].
    rewrite tDen_move, tNom_move, uNom_move, point_at_move.
    repeat split.
Qed.

(** ** Growing a poly-line *)

Section Add.
Context {num : Type} `{Number num}.

Lemma last_default (A : Type) (l : list A) (b d d' : A) :
  last (b :: l) d = last (b :: l) d'.
Proof.
  revert b. induction l as [| c l IH]; intros b; [reflexivity | apply (IH c)].
Qed.

Lemma chain_snoc (vs : list (Vertex.t num)) (a v : Vertex.t num) :
  chain ((a :: vs) ++ [v])
  = chain (a :: vs) ++ [Segment.make (last (a :: vs) a) v].
Proof.
  revert a. induction vs as [| b vs IH]; intros a.
  - reflexivity.
  - change ((a :: b :: vs) ++ [v]) with (a :: (b :: vs) ++ [v]).
    cbn [app]. rewrite !chain_cons.
    change (b :: vs ++ [v]) with ((b :: vs) ++ [v]).
    rewrite IH. cbn [app]. do 2 f_equal.
    change (last (a :: b :: vs) a) with (last (b :: vs) a).
    now rewrite (last_default _ vs b b a).
Qed.

End Add.

(** X9.  For every reading of the numbers: adding a vertex to a poly-line
    that has at least one vertex appends one segment, from the previous
    last vertex to the new one, and [length()] grows by the length of that
    segment; adding the first vertex of an empty poly-line adds no
    segment. *)
Theorem PolyLine_add_extends :
  forall (num : Type) (N : Number num) (p : PolyLine.t num) (x y : num),
    (PolyLine.vertices p = [] ->
       PolyLine.toSegments (PolyLine.add p x y) = Some [] /\
       PolyLine.length (PolyLine.add p x y) = Some 0%js) /\
    (forall (v0 : Vertex.t num) (rest : list (Vertex.t num)),
       PolyLine.vertices p = v0 :: rest ->
       exists segments : list (Segment.t num),
         PolyLine.toSegments p = Some segments /\
         PolyLine.toSegments (PolyLine.add p x y)
         = Some (segments ++ [Segment.make (last (v0 :: rest) v0)
                                           (Vertex.constructor x y)]) /\
         PolyLine.length (PolyLine.add p x y)
         = Some (PolyLine.sum_lengths segments
                 + Distance.vertices (last (v0 :: rest) v0) (Vertex.constructor x y))%js).
Proof.
  intros num N p x y. split.
  - intros Hvs. unfold PolyLine.length.
    rewrite PolyLine_toSegments_chain. unfold PolyLine.add.
    cbn [PolyLine.vertices]. rewrite Hvs. split; reflexivity.
  - intros v0 rest Hvs. exists (chain (v0 :: rest)). unfold PolyLine.length.
    rewrite !PolyLine_toSegments_chain. unfold PolyLine.add.
    cbn [PolyLine.vertices]. rewrite Hvs, chain_snoc.
    split; [reflexivity | split; [reflexivity |]].
    cbn [option_map]. rewrite sum_lengths_snoc. reflexivity.
Qed.

Lemma PolyLine_add_extends_witness :
  (PolyLine.length (PolyLine.add open_square 0 0) = Some 8)%float.
Proof.
  destruct (proj2 (PolyLine_add_extends float binary64 open_square 0 0)%float
              (Vertex.constructor 0 0)%float
              [Vertex.constructor 2 0; Vertex.constructor 2 2;
               Vertex.constructor 0 2]%float eq_refl)
    as (segments & Hsegs & _ & Hlen).
  rewrite Hlen. rewrite open_square_segments in Hsegs.
  injection Hsegs as <-. reflexivity.
Defined.

(** ** A poly-line is no shorter than the straight line *)

Section StraightLine.
Local Open Scope R_scope.

Lemma sum_lengths_chain_snoc (vs : list (Vertex.t R)) (a v : Vertex.t R) :
  PolyLine.sum_lengths (chain ((a :: vs) ++ [v]))
  = PolyLine.sum_lengths (chain (a :: vs))
    + Distance.vertices (last (a :: vs) a) v.
Proof. rewrite chain_snoc, sum_lengths_snoc. reflexivity. Qed.

Lemma chain_not_shorter (vs : list (Vertex.t R)) (a : Vertex.t R) :
  Distance.vertices a (last (a :: vs) a)
  <= PolyLine.sum_lengths (chain (a :: vs)).
Proof.
  induction vs as [| v vs IH] using rev_ind.
  - change (Distance.vertices a a <= 0).
    unfold Distance.vertices. rewrite (proj2 (plain_zero_iff _ _ _ _));
      [apply Rle_refl | split; reflexivity].
  - change (a :: vs ++ [v]) with ((a :: vs) ++ [v]).
    rewrite sum_lengths_chain_snoc, last_last.
    pose proof (plain_triangle (Vertex.x a) (Vertex.y a)
                  (Vertex.x (last (a :: vs) a)) (Vertex.y (last (a :: vs) a))
                  (Vertex.x v) (Vertex.y v)) as Htri.
    unfold Distance.vertices in *. lra.
Qed.

End StraightLine.

(** X10.  In exact arithmetic a poly-line with at least one vertex is no
    shorter than the distance from its first to its last vertex, and a
    polygon, which adds the closing segment between these two, is at least
    twice that distance long. *)
Theorem PolyLine_not_shorter_than_straight_line :
  forall (p : PolyLine.t R) (v0 : Vertex.t R) (rest : list (Vertex.t R)),
    PolyLine.vertices p = v0 :: rest ->
    let straight := Distance.vertices v0 (last (v0 :: rest) v0) in
    (exists len : R, PolyLine.length p = Some len /\ (straight <= len)%R) /\
    (exists len : R,
        Polygon.length (Polygon.make p) = Some len /\ (2 * straight <= len)%R).
Proof.
  intros p v0 rest Hvs straight.
  pose proof (chain_not_shorter rest v0) as Hchain. fold straight in Hchain.
  split.
  - exists (PolyLine.sum_lengths (chain (v0 :: rest))). split; [| exact Hchain].
    unfold PolyLine.length. now rewrite PolyLine_toSegments_chain, Hvs.
  - exists (PolyLine.sum_lengths (chain (v0 :: rest)) + straight)%R. split.
    + unfold Polygon.length.
      rewrite (Polygon_toSegments_closing (Polygon.make p) v0 rest Hvs).
      cbn [option_map]. now rewrite sum_lengths_snoc.
    + lra.
Qed.

Lemma PolyLine_not_shorter_than_straight_line_witness :
  exists len : R,
    PolyLine.length
      (PolyLine.add (PolyLine.add (PolyLine.constructor None None) 0 0) 3 4)%R
    = Some len /\
    (Distance.vertices (Vertex.constructor 0 0) (Vertex.constructor 3 4) <= len)%R.
Proof.
  exact (proj1 (PolyLine_not_shorter_than_straight_line
                  (PolyLine.add (PolyLine.add (PolyLine.constructor None None) 0 0) 3 4)%R
                  (Vertex.constructor 0 0)%R [Vertex.constructor 3 4]%R eq_refl)).
Defined.

(** ** Polar coordinates, there and back *)

Section PolarExact.
Local Open Scope R_scope.

Lemma plain_from_origin (x y : R) :
  Distance.plain 0 0 x y = sqrt (x * x + y * y).
Proof. unfold Distance.plain. cbn. f_equal. ring. Qed.

Lemma radius_on_axis (y : R) : sqrt (0 * 0 + y * y) = Rabs y.
Proof.
  replace (0 * 0 + y * y) with (Rsqr y) by (unfold Rsqr; ring).
  apply sqrt_Rsqr_abs.
Qed.

(** Off the y axis the radius is [|x| * sqrt(1 + (y/x)^2)]. *)
Lemma radius_off_axis (x y : R) :
  x <> 0 -> sqrt (x * x + y * y) = Rabs x * sqrt (1 + (y / x)²).
Proof.
  intros Hx. rewrite <- sqrt_Rsqr_abs, <- sqrt_mult.
  - f_equal. unfold Rsqr. field. exact Hx.
  - apply Rle_0_sqr.
  - pose proof (Rle_0_sqr (y / x)). lra.
Qed.

Lemma sqrt_one_plus_sqr_pos (z : R) : 0 < sqrt (1 + z²).
Proof. apply sqrt_lt_R0. pose proof (Rle_0_sqr z). lra. Qed.


(** X11.  In exact arithmetic (with the real cosine, sine and arctangent)
    [polarToCartesian] undoes [cartesianToPolar] for every point, the
    origin and the y axis included; the radius is never negative and the
    angle lies in the interval (-PI/2, 3*PI/2]. *)
Theorem polar_round_trip :
  forall x y : R,
    let p := cartesianToPolar atan x y in
    polarToCartesian cos sin (r p) (phi p)
    = {| Cartesian.x := x; Cartesian.y := y |} /\
    (0 <= r p)%R /\
    (- (PI / 2) < phi p <= 3 * (PI / 2))%R.
Proof.
  intros x y p. subst p.
  unfold cartesianToPolar, cartesianToPolar_with, polarToCartesian.
  cbn [r phi]. rewrite plain_from_origin.
  cbn [nadd nmul ndiv nltb neqb lit Math_PI exact].
  pose proof PI_RGT_0 as Hpi.
  split; [| split; [apply sqrt_pos |]].
  - destruct (Req_dec_T x 0) as [-> | Hx].
    + rewrite radius_on_axis. destruct (Rlt_dec 0 y) as [Hy | Hy].
      * rewrite cos_PI2, sin_PI2, Rabs_right by lra. f_equal; ring.
      * replace (PI / 2 * 3) with (3 * (PI / 2)) by ring.
        rewrite cos_3PI2, sin_3PI2, Rabs_left1 by lra. f_equal; ring.
    + rewrite (radius_off_axis x y Hx).
      pose proof (sqrt_one_plus_sqr_pos (y / x)) as Hs.
      destruct (Rlt_dec x 0) as [Hneg | Hpos].
      * rewrite neg_cos, neg_sin, cos_atan, sin_atan, Rabs_left by lra.
        f_equal; field; repeat split; lra.
      * rewrite cos_atan, sin_atan, Rabs_right by lra.
        f_equal; field; repeat split; lra.
  - destruct (Req_dec_T x 0) as [-> | Hx].
    + destruct (Rlt_dec 0 y); lra.
    + pose proof (atan_bound (y / x)) as Hb.
      destruct (Rlt_dec x 0); lra.
Qed.

(** X12.  In exact arithmetic [radToDeg] and [degToRad] are inverse to
    each other, and [degToRad(180)] is [PI]. *)
Theorem degrees_round_trip :
  forall a : R,
    radToDeg (degToRad a) = a /\ degToRad (radToDeg a) = a /\
    degToRad 180 = PI.
Proof.
  intros a. unfold radToDeg, degToRad, _RAD_TO_DEG_MOD, _DEG_TO_RAD_MOD.
  cbn [nmul ndiv lit Math_PI exact].
  pose proof PI_RGT_0 as Hpi.
  repeat split; field; lra.
Qed.

End PolarExact.

(** * Properties of the utilities *)

(** ** The order of binary64 *)

Section Binary64Order.
Local Open Scope float_scope.

Lemma SFcompare_swap (a b : spec_float) :
  SFcompare b a = option_map CompOpp (SFcompare a b).
Proof.
  destruct a as [[] | [] | | [] m e], b as [[] | [] | | [] m' e'];
    try reflexivity; cbn;
    pose proof (Pos.compare_cont_antisym m m' Eq) as Hm; cbn in Hm;
    rewrite (Z.compare_antisym e e'), <- Hm;
    destruct (e ?= e')%Z; cbn; try reflexivity;
    destruct (Pos.compare_cont Eq m m'); reflexivity.
Qed.

Lemma SFcompare_refl (a : spec_float) :
  a <> S754_nan -> SFcompare a a = Some Eq.
Proof.
  destruct a as [[] | [] | | [] m e]; intros Hn; try reflexivity;
    try (now destruct Hn); cbn; rewrite Z.compare_refl;
    now rewrite Pos.compare_cont_refl.
Qed.

Lemma is_nan_SF (a : float) : is_nan a = false <-> Prim2SF a <> S754_nan.
Proof.
  unfold is_nan. rewrite eqb_spec. unfold SFeqb. split.
  - intros Hn E. rewrite E in Hn. discriminate.
  - intros Hn. now rewrite (SFcompare_refl _ Hn).
Qed.

Lemma leb_refl (a : float) : is_nan a = false -> (a <=? a) = true.
Proof.
  intros Hn. apply is_nan_SF in Hn. rewrite leb_spec. unfold SFleb.
  now rewrite (SFcompare_refl _ Hn).
Qed.

Lemma leb_not_nan (a b : float) :
  (a <=? b) = true -> is_nan a = false /\ is_nan b = false.
Proof.
  rewrite leb_spec, !is_nan_SF. unfold SFleb.
  destruct (Prim2SF a), (Prim2SF b); cbn; intros Hle; split; congruence.
Qed.

(** Two numbers that are not [NaN] are comparable. *)
Lemma leb_total (a b : float) :
  is_nan a = false -> is_nan b = false -> (a <=? b) = false -> (b <=? a) = true.
Proof.
  rewrite !leb_spec, !is_nan_SF. unfold SFleb. intros Ha Hb.
  rewrite (SFcompare_swap (Prim2SF a) (Prim2SF b)).
  destruct (Prim2SF a) as [[] | [] | | [] m e]; try (now destruct Ha);
  destruct (Prim2SF b) as [[] | [] | | [] m' e']; try (now destruct Hb);
    cbn; try discriminate; try reflexivity;
    destruct (e ?= e')%Z; cbn; try discriminate; try reflexivity;
    destruct (Pos.compare_cont Eq m m'); cbn; try discriminate; reflexivity.
Qed.

Lemma leb_antisym (a b : float) :
  (a <=? b) = true -> (b <=? a) = true -> (a =? b) = true.
Proof.
  rewrite !leb_spec, eqb_spec. unfold SFleb, SFeqb.
  rewrite (SFcompare_swap (Prim2SF a) (Prim2SF b)).
  destruct (SFcompare (Prim2SF a) (Prim2SF b)) as [[] |]; cbn; congruence.
Qed.

Lemma leb_nan_l (a b : float) : is_nan a = true -> (a <=? b) = false.
Proof.
  intros Hn. destruct (a <=? b) eqn:E; [| reflexivity].
  apply leb_not_nan in E. destruct E. congruence.
Qed.

Lemma leb_nan_r (a b : float) : is_nan b = true -> (a <=? b) = false.
Proof.
  intros Hn. destruct (a <=? b) eqn:E; [| reflexivity].
  apply leb_not_nan in E. destruct E. congruence.
Qed.

End Binary64Order.

(** X13.  In binary64, for bounds [min <= max] and a number that is not
    [NaN], [clamp] returns a number between the bounds, and a number that
    is already between the bounds is returned as it is (up to [==]).
    [NaN] is not clamped: [clamp(NaN, min, max)] is [NaN]. *)
Theorem clamp_between :
  forall n lo hi : float,
    ((lo <= hi)%js = true -> is_nan n = false ->
       between (clamp n lo hi) lo hi = true /\
       (between n lo hi = true -> (clamp n lo hi == n)%js = true)) /\
    (is_nan n = true -> clamp n lo hi = n).
Proof.
  intros n lo hi. unfold clamp, between. cbn [nleb neqb binary64]. split.
  - intros Hbounds Hn. destruct (leb_not_nan _ _ Hbounds) as [Hlo Hhi].
    destruct (n <=? lo)%float eqn:E1; [| destruct (hi <=? n)%float eqn:E2].
    + split.
      * now rewrite (leb_refl lo Hlo), Hbounds.
      * intros Hin. apply andb_true_iff in Hin as [Hge _].
        apply leb_antisym; assumption.
    + split.
      * now rewrite (leb_refl hi Hhi), Hbounds.
      * intros Hin. apply andb_true_iff in Hin as [_ Hle].
        apply leb_antisym; assumption.
    + split.
      * now rewrite (leb_total n lo Hn Hlo E1), (leb_total hi n Hhi Hn E2).
      * intros _. apply leb_antisym; apply leb_refl; exact Hn.
  - intros Hn. now rewrite (leb_nan_l n lo Hn), (leb_nan_r hi n Hn).
Qed.

Lemma clamp_between_witness :
  (between (clamp 0x1.8p+0 0 1) 0 1 = true)%float /\ clamp nan 0%float 1%float = nan.
Proof.
  split.
  - apply (proj1 (clamp_between 0x1.8p+0 0 1)%float); reflexivity.
  - apply (proj2 (clamp_between nan 0 1)%float). reflexivity.
Defined.

(** ** ease *)

Section EaseExact.
Local Open Scope R_scope.

Lemma ToBoolean_exact (a : R) : ToBoolean a = true <-> a <> 0.
Proof.
  unfold ToBoolean. cbn. destruct (Req_dec_T a 0) as [E | E].
  - split; [discriminate | contradiction].
  - destruct (Req_dec_T a a); [tauto | contradiction].
Qed.

(** The step in use is the given one, or 1 when it is omitted or zero. *)
Lemma nullish_exact (value : option R) (def : R) :
  nullish ToBoolean value def
  = match value with
    | Some v => if Req_dec_T v 0 then def else v
    | None => def
    end.
Proof.
  destruct value as [v |]; [| reflexivity]. unfold nullish.
  destruct (Req_dec_T v 0) as [E | E].
  - destruct (ToBoolean v) eqn:T; [| reflexivity].
    apply ToBoolean_exact in T. contradiction.
  - now rewrite (proj2 (ToBoolean_exact v) E).
Qed.

Lemma ease_unfold (c t : R) (step : option R) :
  ease Rabs c t step
  = let s := nullish ToBoolean step 1 in
    if Rle_dec (Rabs (c - t)) s then t
    else if Rlt_dec t c then c - s else c + s.
Proof.
  unfold ease, nullish. cbn.
  destruct (Rle_dec _ _); [reflexivity |]. destruct (Rlt_dec t c); reflexivity.
Qed.

Lemma ease_distance (c t : R) (step : option R) :
  0 < nullish ToBoolean step 1 ->
  Rabs (ease Rabs c t step - t)
  = Rmax 0 (Rabs (c - t) - nullish ToBoolean step 1).
Proof.
  rewrite ease_unfold. cbv zeta. set (s := nullish ToBoolean step 1).
  intros Hs. unfold Rmax.
  destruct (Rle_dec (Rabs (c - t)) s) as [Hnear | Hfar].
  - replace (t - t) with 0 by ring. rewrite Rabs_R0.
    destruct (Rle_dec 0 (Rabs (c - t) - s)); lra.
  - destruct (Rle_dec 0 (Rabs (c - t) - s)); [| lra].
    destruct (Rlt_dec t c) as [Hgt | Hle].
    + rewrite (Rabs_right (c - t)) in * by lra. rewrite Rabs_right; lra.
    + rewrite (Rabs_left1 (c - t)) in * by lra. rewrite Rabs_left1; lra.
Qed.

Lemma ease_arrives (t : R) (step : option R) (n : nat) :
  0 < nullish ToBoolean step 1 ->
  forall c : R,
    Rabs (c - t) <= INR n * nullish ToBoolean step 1 ->
    Nat.iter n (fun c => ease Rabs c t step) c = t.
Proof.
  set (s := nullish ToBoolean step 1). intros Hs.
  induction n as [| n IH]; intros c Hc.
  - cbn in *. pose proof (Rabs_pos (c - t)).
    assert (Rabs (c - t) = 0) as E by lra.
    destruct (Req_dec_T (c - t) 0) as [E0 | E0]; [lra |].
    apply Rabs_no_R0 in E0. contradiction.
  - rewrite Nat.iter_succ_r. apply IH.
    rewrite (ease_distance c t step Hs). fold s. rewrite S_INR in Hc.
    unfold Rmax. destruct (Rle_dec 0 (Rabs (c - t) - s)).
    + lra.
    + apply Rmult_le_pos; [apply pos_INR | lra].
Qed.

Lemma ease_away (c t s : R) :
  s < 0 -> Rabs (ease Rabs c t (Some s) - t) = Rabs (c - t) + Rabs s.
Proof.
  intros Hs. rewrite ease_unfold, nullish_exact. cbv zeta.
  destruct (Req_dec_T s 0) as [E | _]; [lra |].
  pose proof (Rabs_pos (c - t)) as Hpos.
  destruct (Rle_dec (Rabs (c - t)) s) as [Hnear | _]; [lra |].
  rewrite (Rabs_left s Hs).
  destruct (Rlt_dec t c) as [Hgt | Hle].
  + rewrite (Rabs_right (c - t)) by lra. rewrite Rabs_right; lra.
  + rewrite (Rabs_left1 (c - t)) by lra. rewrite Rabs_left1; lra.
Qed.

(** X14.  In exact arithmetic, with the step in use [s] (the given step,
    or 1 when it is omitted or 0) positive, [ease] moves the current value
    towards the target by [s] without overshooting: the distance to the
    target becomes [max(0, distance - s)], and after [n] applications with
    [n * s >= distance] the value is the target.  With a negative step
    [ease] moves AWAY from the target by [|s|], even from the target
    itself. *)
Theorem ease_reaches_target :
  forall (c t : R) (step : option R),
    let s := nullish ToBoolean step 1 in
    (0 < s ->
       Rabs (ease Rabs c t step - t) = Rmax 0 (Rabs (c - t) - s) /\
       forall n : nat,
         Rabs (c - t) <= INR n * s ->
         Nat.iter n (fun c => ease Rabs c t step) c = t) /\
    (s < 0 -> Rabs (ease Rabs c t step - t) = Rabs (c - t) + Rabs s).
Proof.
  intros c t step s. split.
  - intros Hs. split.
    + apply ease_distance. exact Hs.
    + intros n Hn. apply ease_arrives; assumption.
  - intros Hs. subst s. rewrite nullish_exact in Hs.
    destruct step as [v |]; [| lra].
    destruct (Req_dec_T v 0) as [E | E]; [lra |].
    rewrite (ease_away c t v Hs). rewrite nullish_exact.
    destruct (Req_dec_T v 0); [contradiction | reflexivity].
Qed.

Lemma ease_reaches_target_witness :
  Nat.iter 3 (fun c => ease Rabs c 10 (Some 4)) 0 = 10 /\
  Rabs (ease Rabs 10 10 (Some (-1)) - 10) = 0 + 1.
Proof.
  split.
  - apply (proj1 (ease_reaches_target 0 10 (Some 4))).
    + rewrite nullish_exact. destruct (Req_dec_T 4 0); lra.
    + rewrite nullish_exact. destruct (Req_dec_T 4 0); [lra |].
      replace (0 - 10) with (- 10) by ring. rewrite Rabs_left by lra.
      cbn. lra.
  - replace 0 with (Rabs (10 - 10)) at 1
      by (replace (10 - 10) with 0 by ring; apply Rabs_R0).
    replace 1 with (Rabs (nullish ToBoolean (Some (-1)) 1)).
    + apply (proj2 (ease_reaches_target 10 10 (Some (-1)))).
      rewrite nullish_exact. destruct (Req_dec_T (-1) 0); lra.
    + rewrite nullish_exact. destruct (Req_dec_T (-1) 0); [lra |].
      rewrite Rabs_left; lra.
Defined.

End EaseExact.

(** ** Counter *)

Section CounterExact.
Local Open Scope R_scope.



End CounterExact.

(** ** range *)

Section RangeExact.
Local Open Scope R_scope.




Lemma range_loop_never (s max : R) (fuel : nat) :
  s <= 0 ->
  forall (m : R) (arr : list R), m <= max -> range_loop fuel m max s arr = None.
Proof.
  intros Hs. induction fuel as [| fuel IH]; intros m arr Hm; [reflexivity |].
  cbn [range_loop nleb nadd exact]. destruct (Rle_dec m max); [| lra].
  apply IH. lra.
Qed.

End RangeExact.

Section RangeAnyNumber.
Context {num : Type} `{Number num}.
Local Open Scope js_scope.

(** When adding the step does not change [min], the loop never ends. *)
Lemma range_loop_stuck (fuel : nat) (min max step : num) :
  min + step = min ->
  (min <= max) = true ->
  forall arr : list num, range_loop fuel min max step arr = None.
Proof.
  intros Hstuck Hle. induction fuel as [| fuel IH]; intros arr; [reflexivity |].
  cbn [range_loop]. rewrite Hle, Hstuck. apply IH.
Qed.

End RangeAnyNumber.



(** X17.  [range] does not return when the step is negative and
    [min <= max] (exact arithmetic), nor, in any arithmetic, when
    [min <= max] and adding the step leaves [min] unchanged, as happens in
    binary64 for a step that is small against [min]. *)
Theorem range_never_returns :
  (forall (min max : R) (step : option R) (fuel : nat),
      (nullish ToBoolean step 1 < 0)%R -> (min <= max)%R ->
      range fuel min max step = None) /\
  (forall (num : Type) (N : Number num) (min max : num) (step : option num)
          (fuel : nat),
      (min + nullish ToBoolean step 1)%js = min ->
      (min <= max)%js = true ->
      range fuel min max step = None).
Proof.
  split.
  - intros min max step fuel Hs Hle. unfold range.
    apply range_loop_never; [apply Rlt_le; exact Hs | exact Hle].
  - intros num N min max step fuel Hstuck Hle. unfold range.
    apply range_loop_stuck; assumption.
Qed.

Lemma range_never_returns_witness :
  (forall fuel : nat, range fuel 0%R 10%R (Some (-1)%R) = None) /\
  (forall fuel : nat, range fuel 0x1p+53%float 0x1.0000000000002p+53%float None = None).
Proof.
  split; intros fuel.
  - apply (proj1 range_never_returns).
    + rewrite nullish_exact. destruct (Req_dec_T (-1) 0); lra.
    + lra.
  - apply (proj2 range_never_returns float binary64); reflexivity.
Defined.
(** * Properties of the data structures *)

(** ** RingArray *)

Section RingArrayFacts.
Context {A : Type}.
Local Open Scope Z_scope.

Lemma item_inside (l : list A) (k : Z) :
  0 <= k < Z.of_nat (length l) -> exists x, RingArray.item l k = Some x.
Proof.
  intros Hk. unfold RingArray.item.
  destruct (Z.ltb_spec k 0) as [Hn | _]; [lia |].
  destruct (nth_error l (Z.to_nat k)) as [x |] eqn:E.
  - exists x. reflexivity.
  - apply nth_error_None in E. lia.
Qed.

Lemma item_outside (l : list A) (k : Z) :
  k < 0 \/ Z.of_nat (length l) <= k -> RingArray.item l k = None.
Proof.
  intros Hk. unfold RingArray.item.
  destruct (Z.ltb_spec k 0) as [Hn | Hp]; [reflexivity |].
  apply nth_error_None. lia.
Qed.

Lemma item_defined_iff (l : list A) (k : Z) :
  RingArray.item l k <> None <-> 0 <= k < Z.of_nat (length l).
Proof.
  split.
  - intros Hd.
    destruct (Z_lt_dec k 0) as [Hn | Hn];
      [exfalso; apply Hd, item_outside; lia |].
    destruct (Z_le_dec (Z.of_nat (length l)) k) as [Hb | Hb];
      [exfalso; apply Hd, item_outside; lia |].
    lia.
  - intros Hk. destruct (item_inside l k Hk) as [x E]. congruence.
Qed.

Lemma next_position (r : RingArray.t A) (step : option Z) :
  RingArray.i (RingArray_forward step r)
  = if RingArray.i r + step_in_use step <? RingArray_length r
    then RingArray.i r + step_in_use step
    else RingArray.i r + step_in_use step - RingArray_length r.
Proof.
  unfold RingArray_forward, RingArray.next, step_in_use, RingArray_length.
  cbn [fst RingArray.i RingArray.values].
  destruct (_ <? _); reflexivity.
Qed.

Lemma prev_position (r : RingArray.t A) (step : option Z) :
  RingArray.i (RingArray_backward step r)
  = if 0 <=? RingArray.i r - step_in_use step
    then RingArray.i r - step_in_use step
    else RingArray_length r + (RingArray.i r - step_in_use step).
Proof.
  unfold RingArray_backward, RingArray.prev, step_in_use, RingArray_length.
  cbn [fst RingArray.i RingArray.values].
  destruct (_ <=? _); reflexivity.
Qed.

Lemma next_values (r : RingArray.t A) (step : option Z) :
  RingArray.values (RingArray_forward step r) = RingArray.values r.
Proof. reflexivity. Qed.

Lemma prev_values (r : RingArray.t A) (step : option Z) :
  RingArray.values (RingArray_backward step r) = RingArray.values r.
Proof. reflexivity. Qed.

Lemma next_returns (r : RingArray.t A) (step : option Z) :
  snd (RingArray.next r step) = RingArray.get (RingArray_forward step r).
Proof. reflexivity. Qed.

Lemma prev_returns (r : RingArray.t A) (step : option Z) :
  snd (RingArray.prev r step) = RingArray.get (RingArray_backward step r).
Proof. reflexivity. Qed.

Lemma next_modulo (r : RingArray.t A) (step : option Z) :
  0 <= RingArray.i r < RingArray_length r ->
  1 <= step_in_use step <= RingArray_length r ->
  RingArray.i (RingArray_forward step r)
  = (RingArray.i r + step_in_use step) mod RingArray_length r.
Proof.
  intros Hi Hs. rewrite next_position.
  destruct (Z.ltb_spec (RingArray.i r + step_in_use step) (RingArray_length r)).
  - symmetry. apply Z.mod_small. lia.
  - apply Z.mod_unique with (q := 1); lia.
Qed.

Lemma prev_modulo (r : RingArray.t A) (step : option Z) :
  0 <= RingArray.i r < RingArray_length r ->
  1 <= step_in_use step <= RingArray_length r ->
  RingArray.i (RingArray_backward step r)
  = (RingArray.i r - step_in_use step) mod RingArray_length r.
Proof.
  intros Hi Hs. rewrite prev_position.
  destruct (Z.leb_spec 0 (RingArray.i r - step_in_use step)).
  - symmetry. apply Z.mod_small. lia.
  - apply Z.mod_unique with (q := -1); lia.
Qed.

Lemma ring_eq (r r' : RingArray.t A) :
  RingArray.values r = RingArray.values r' -> RingArray.i r = RingArray.i r' ->
  r = r'.
Proof. destruct r, r'. cbn. intros -> ->. reflexivity. Qed.

Lemma forward_length (step : option Z) (r : RingArray.t A) :
  RingArray_length (RingArray_forward step r) = RingArray_length r.
Proof. reflexivity. Qed.

Lemma forward_iter_length (step : option Z) (k : nat) (r : RingArray.t A) :
  RingArray_length (Nat.iter k (RingArray_forward step) r) = RingArray_length r.
Proof. induction k as [| k IH]; [reflexivity |]. rewrite Nat.iter_succ, forward_length. exact IH. Qed.

Lemma forward_iter_values (step : option Z) (k : nat) (r : RingArray.t A) :
  RingArray.values (Nat.iter k (RingArray_forward step) r) = RingArray.values r.
Proof. induction k as [| k IH]; [reflexivity |]. rewrite Nat.iter_succ, next_values. exact IH. Qed.

Lemma forward_iter_position (step : option Z) (k : nat) (r : RingArray.t A) :
  0 <= RingArray.i r < RingArray_length r ->
  1 <= step_in_use step <= RingArray_length r ->
  RingArray.i (Nat.iter k (RingArray_forward step) r)
  = (RingArray.i r + Z.of_nat k * step_in_use step) mod RingArray_length r.
Proof.
  intros Hi Hs. induction k as [| k IH].
  - cbn [Nat.iter]. rewrite Z.mul_0_l, Z.add_0_r. symmetry. apply Z.mod_small. exact Hi.
  - rewrite Nat.iter_succ, next_modulo.
    + rewrite forward_iter_length, IH.
      rewrite Zplus_mod_idemp_l. f_equal. lia.
    + rewrite forward_iter_length, IH. apply Z.mod_pos_bound. lia.
    + rewrite forward_iter_length. exact Hs.
Qed.

End RingArrayFacts.

(** X18.  With the position inside the ring and a step in use between 1
    and the number of items, [next] and [prev] move the position by the
    step modulo the number of items, keep the items, and return the item
    at the new position, which exists. *)
Theorem RingArray_next_prev_modulo :
  forall (A : Type) (r : RingArray.t A) (step : option Z),
    let n := RingArray_length r in
    let s := step_in_use step in
    (0 <= RingArray.i r < n)%Z -> (1 <= s <= n)%Z ->
    (let (r', x) := RingArray.next r step in
     RingArray.values r' = RingArray.values r /\
     RingArray.i r' = ((RingArray.i r + s) mod n)%Z /\
     x = RingArray.item (RingArray.values r) ((RingArray.i r + s) mod n) /\
     x <> None) /\
    (let (r', x) := RingArray.prev r step in
     RingArray.values r' = RingArray.values r /\
     RingArray.i r' = ((RingArray.i r - s) mod n)%Z /\
     x = RingArray.item (RingArray.values r) ((RingArray.i r - s) mod n) /\
     x <> None).
Proof.
  intros A r step n s Hi Hs. split.
  - pose proof (next_modulo r step Hi Hs) as Hm.
    pose proof (next_returns r step) as Hr.
    unfold RingArray_forward in Hm, Hr.
    destruct (RingArray.next r step) as [r' x] eqn:E.
    assert (Hv : RingArray.values r' = RingArray.values r).
    { change r' with (fst (r', x)). rewrite <- E. reflexivity. }
    cbn [fst snd] in Hm, Hr. fold n s in Hm.
    assert (Hx : x = RingArray.item (RingArray.values r) ((RingArray.i r + s) mod n)).
    { rewrite Hr. unfold RingArray.get. rewrite Hv, Hm. reflexivity. }
    repeat split; try assumption.
    rewrite Hx. apply item_defined_iff. apply Z.mod_pos_bound.
    unfold n in *. unfold RingArray_length in *. lia.
  - pose proof (prev_modulo r step Hi Hs) as Hm.
    pose proof (prev_returns r step) as Hr.
    unfold RingArray_backward in Hm, Hr.
    destruct (RingArray.prev r step) as [r' x] eqn:E.
    assert (Hv : RingArray.values r' = RingArray.values r).
    { change r' with (fst (r', x)). rewrite <- E. reflexivity. }
    cbn [fst snd] in Hm, Hr. fold n s in Hm.
    assert (Hx : x = RingArray.item (RingArray.values r) ((RingArray.i r - s) mod n)).
    { rewrite Hr. unfold RingArray.get. rewrite Hv, Hm. reflexivity. }
    repeat split; try assumption.
    rewrite Hx. apply item_defined_iff. apply Z.mod_pos_bound.
    unfold n in *. unfold RingArray_length in *. lia.
Qed.

Lemma RingArray_next_prev_modulo_witness :
  RingArray.next (RingArray.make [10%Z; 20%Z; 30%Z] 2) (Some 2%Z)
  = (RingArray.make [10%Z; 20%Z; 30%Z] 1, Some 20%Z) /\
  RingArray.prev (RingArray.make [10%Z; 20%Z; 30%Z] 0) None
  = (RingArray.make [10%Z; 20%Z; 30%Z] 2, Some 30%Z) /\
  snd (RingArray.next (RingArray.make [10%Z; 20%Z; 30%Z] 2) (Some 2%Z)) <> None.
Proof.
  split; [reflexivity | split; [reflexivity |]].
  pose proof (RingArray_next_prev_modulo Z
                (RingArray.make [10%Z; 20%Z; 30%Z] 2) (Some 2%Z)) as H.
  cbv zeta in H.
  assert (H1 : (0 <= 2 < RingArray_length (RingArray.make [10%Z; 20%Z; 30%Z] 2))%Z)
    by (vm_compute; split; congruence).
  assert (H2 : (1 <= step_in_use (Some 2%Z)
                <= RingArray_length (RingArray.make [10%Z; 20%Z; 30%Z] 2))%Z)
    by (vm_compute; split; congruence).
  destruct (H H1 H2) as [Hn _].
  destruct (RingArray.next (RingArray.make [10%Z; 20%Z; 30%Z] 2) (Some 2%Z)) as [r' x].
  cbn [snd]. apply Hn.
Defined.

(** X19.  Under the same conditions [prev] undoes [next] and [next] undoes
    [prev] (with the same step), and as many calls of [next] as the ring
    has items bring the ring back to where it was, whatever the step. *)
Theorem RingArray_round_trip :
  forall (A : Type) (r : RingArray.t A) (step : option Z),
    (0 <= RingArray.i r < RingArray_length r)%Z ->
    (1 <= step_in_use step <= RingArray_length r)%Z ->
    fst (RingArray.prev (fst (RingArray.next r step)) step) = r /\
    fst (RingArray.next (fst (RingArray.prev r step)) step) = r /\
    Nat.iter (length (RingArray.values r))
             (fun r => fst (RingArray.next r step)) r = r.
Proof.
  intros A r step Hi Hs. split; [| split].
  - change (RingArray_backward step (RingArray_forward step r) = r).
    apply ring_eq; [reflexivity |].
    rewrite prev_position, next_position.
    change (RingArray_length (RingArray_forward step r)) with (RingArray_length r).
    destruct (Z.ltb_spec (RingArray.i r + step_in_use step) (RingArray_length r));
      match goal with |- context [(0 <=? ?a)%Z] => destruct (Z.leb_spec 0 a) end; lia.
  - change (RingArray_forward step (RingArray_backward step r) = r).
    apply ring_eq; [reflexivity |].
    rewrite next_position, prev_position.
    change (RingArray_length (RingArray_backward step r)) with (RingArray_length r).
    destruct (Z.leb_spec 0 (RingArray.i r - step_in_use step));
      match goal with |- context [(?a <? ?b)%Z] => destruct (Z.ltb_spec a b) end; lia.
  - change (Nat.iter (length (RingArray.values r)) (RingArray_forward step) r = r).
    apply ring_eq.
    + apply forward_iter_values.
    + rewrite (forward_iter_position step _ r Hi Hs).
      change (Z.of_nat (length (RingArray.values r))) with (RingArray_length r).
      rewrite Z.mul_comm, Z_mod_plus_full. apply Z.mod_small. exact Hi.
Qed.

Lemma RingArray_round_trip_witness :
  let r := RingArray.make [10%Z; 20%Z; 30%Z] 2 in
  fst (RingArray.prev (fst (RingArray.next r (Some 2%Z))) (Some 2%Z)) = r /\
  fst (RingArray.next (fst (RingArray.prev r (Some 2%Z))) (Some 2%Z)) = r /\
  Nat.iter 3 (fun r => fst (RingArray.next r (Some 2%Z))) r = r.
Proof.
  apply (RingArray_round_trip Z (RingArray.make [10%Z; 20%Z; 30%Z] 2) (Some 2%Z));
    vm_compute; split; congruence.
Defined.

(** X20.  From a position inside a ring of [n] items, [next] returns an
    item exactly when [0 <= i + s < 2 * n] and [prev] exactly when
    [- n <= i - s < n], for the step in use [s]; otherwise they return
    [undefined] and leave the position outside the ring.  So a step larger
    than the ring can miss it, and on an empty ring every call returns
    [undefined] while the position keeps growing. *)
Theorem RingArray_defined_iff :
  forall (A : Type) (r : RingArray.t A) (step : option Z),
    let n := RingArray_length r in
    let s := step_in_use step in
    ((0 <= RingArray.i r < n)%Z ->
       (snd (RingArray.next r step) <> None <-> (0 <= RingArray.i r + s < 2 * n)%Z) /\
       (snd (RingArray.prev r step) <> None <-> (- n <= RingArray.i r - s < n)%Z)) /\
    (RingArray.values r = [] -> (0 <= RingArray.i r)%Z ->
       forall k : nat,
         RingArray.i (Nat.iter k (fun r => fst (RingArray.next r None)) r)
         = (RingArray.i r + Z.of_nat k)%Z /\
         snd (RingArray.next (Nat.iter k (fun r => fst (RingArray.next r None)) r) None)
         = None).
Proof.
  intros A r step n s. split.
  - intros Hi. split.
    + rewrite next_returns. unfold RingArray.get.
      rewrite item_defined_iff, next_values, next_position.
      fold n s. change (Z.of_nat (length (RingArray.values r))) with n.
      destruct (Z.ltb_spec (RingArray.i r + s) n); lia.
    + rewrite prev_returns. unfold RingArray.get.
      rewrite item_defined_iff, prev_values, prev_position.
      fold n s. change (Z.of_nat (length (RingArray.values r))) with n.
      destruct (Z.leb_spec 0 (RingArray.i r - s)); lia.
  - intros He H0 k.
    change (fun r0 : RingArray.t A => fst (RingArray.next r0 None))
      with (@RingArray_forward A None).
    assert (Hpos : RingArray.i (Nat.iter k (RingArray_forward None) r)
                   = (RingArray.i r + Z.of_nat k)%Z).
    { induction k as [| k IH]; [simpl; lia |].
      rewrite Nat.iter_succ, next_position, forward_iter_length, IH.
      unfold RingArray_length. rewrite He.
      change (step_in_use None) with 1%Z. cbn [length Z.of_nat].
      destruct (Z.ltb_spec (RingArray.i r + Z.of_nat k + 1) 0); lia. }
    split; [exact Hpos |].
    rewrite next_returns. unfold RingArray.get. apply item_outside.
    rewrite next_values, forward_iter_values, He. cbn [length Z.of_nat].
    right. rewrite next_position, forward_iter_length, Hpos.
    unfold RingArray_length. rewrite He.
    change (step_in_use None) with 1%Z. cbn [length Z.of_nat].
    destruct (Z.ltb_spec (RingArray.i r + Z.of_nat k + 1) 0); lia.
Qed.

Lemma RingArray_defined_iff_witness :
  let r := RingArray.make [10%Z; 20%Z; 30%Z] 1 in
  (snd (RingArray.next r (Some 5%Z)) <> None <-> (0 <= 1 + 5 < 2 * 3)%Z) /\
  snd (RingArray.next r (Some 5%Z)) = None /\
  snd (RingArray.next (Nat.iter 4 (fun r => fst (RingArray.next r None))
                                (RingArray.constructor (A := Z) None)) None) = None.
Proof.
  split; [| split; [reflexivity |]].
  - refine (proj1 (proj1 (RingArray_defined_iff Z
             (RingArray.make [10%Z; 20%Z; 30%Z] 1) (Some 5%Z)) _)).
    vm_compute. split; congruence.
  - refine (proj2 (proj2 (RingArray_defined_iff Z
             (RingArray.constructor None) None) eq_refl _ 4%nat)).
    vm_compute. congruence.
Defined.
(** ** array2D and Table2D *)

Section Loops.

Lemma fold_left_map_arg (S P Q : Type) (f : S -> Q -> S) (g : P -> Q)
    (l : list P) (s : S) :
  fold_left f (map g l) s = fold_left (fun acc y => f acc (g y)) l s.
Proof.
  revert s. induction l as [| a l IH]; intros s; [reflexivity |].
  cbn. apply IH.
Qed.

(** Two nested loops go through the product of their ranges. *)
Lemma nested_loops (S P Q : Type) (body : S -> P -> Q -> S)
    (xs : list P) (ys : list Q) (s : S) :
  fold_left (fun acc x => fold_left (fun acc y => body acc x y) ys acc) xs s
  = fold_left (fun acc p => body acc (fst p) (snd p)) (list_prod xs ys) s.
Proof.
  revert s. induction xs as [| a xs IH]; intros s; [reflexivity |].
  cbn [fold_left list_prod]. rewrite fold_left_app, fold_left_map_arg.
  cbn [fst snd]. apply IH.
Qed.

Lemma NoDup_map_injective (P Q : Type) (g : P -> Q) (l : list P) :
  (forall a b, g a = g b -> a = b) -> NoDup l -> NoDup (map g l).
Proof.
  intros Hg Hl. induction Hl as [| a l Hn Hl IH]; cbn; constructor.
  - intros Hin. apply in_map_iff in Hin. destruct Hin as [b [E Hb]].
    apply Hg in E. subst b. exact (Hn Hb).
  - exact IH.
Qed.

Lemma NoDup_product (P Q : Type) (xs : list P) (ys : list Q) :
  NoDup xs -> NoDup ys -> NoDup (list_prod xs ys).
Proof.
  intros Hx Hy. induction Hx as [| a xs Hn Hx IH]; cbn [list_prod].
  - constructor.
  - apply NoDup_app.
    + apply NoDup_map_injective; [| exact Hy]. intros b c E. congruence.
    + exact IH.
    + intros [a' b'] H1 H2. apply in_map_iff in H1. destruct H1 as [c [E _]].
      apply in_prod_iff in H2. destruct H2 as [H2 _].
      inversion E; subst. exact (Hn H2).
Qed.

Lemma list_prod_map (P Q P' Q' : Type) (f : P -> P') (g : Q -> Q')
    (xs : list P) (ys : list Q) :
  list_prod (map f xs) (map g ys)
  = flat_map (fun x => map (fun y => (f x, g y)) ys) xs.
Proof.
  induction xs as [| a xs IH]; [reflexivity |].
  cbn [map list_prod flat_map]. rewrite IH, map_map. reflexivity.
Qed.

End Loops.

Section Table2DFacts.
Context {A : Type}.
Local Open Scope Z_scope.

Lemma loop_indices_In (from count k : Z) :
  In k (Table2D.loop_indices from count) <-> from <= k < from + count.
Proof.
  unfold Table2D.loop_indices. rewrite in_map_iff. split.
  - intros [n [E Hn]]. apply in_seq in Hn. lia.
  - intros Hk. exists (Z.to_nat (k - from)). split; [lia |].
    apply in_seq. lia.
Qed.

Lemma loop_indices_NoDup (from count : Z) :
  NoDup (Table2D.loop_indices from count).
Proof.
  unfold Table2D.loop_indices. apply NoDup_map_injective.
  - intros a b E. lia.
  - apply seq_NoDup.
Qed.

Lemma positions_In (x y width height xi yi : Z) :
  In (xi, yi) (Table2D_positions x y width height)
  <-> x <= xi < x + width /\ y <= yi < y + height.
Proof.
  unfold Table2D_positions. rewrite in_prod_iff, !loop_indices_In. reflexivity.
Qed.

(** *** Rows *)

Lemma fill_row_fold (r : row A) (d : jsval A) (n : nat) (k : Z) :
  fold_left (fun r y => row_set r (Z.of_nat y) d) (seq 0 n) r k
  = if (0 <=? k) && (k <? Z.of_nat n) then d else r k.
Proof.
  induction n as [| n IH].
  - cbn [seq fold_left]. destruct (Z.leb_spec 0 k), (Z.ltb_spec k (Z.of_nat 0));
      cbn [andb]; try reflexivity; lia.
  - rewrite seq_S, fold_left_app. cbn [fold_left Nat.add]. unfold row_set at 1.
    rewrite IH.
    destruct (Z.eqb_spec k (Z.of_nat n)), (Z.leb_spec 0 k),
      (Z.ltb_spec k (Z.of_nat (S n))), (Z.ltb_spec k (Z.of_nat n));
      cbn [andb]; try reflexivity; lia.
Qed.

Lemma fill_row_cells (r : row A) (sizeY : Z) (d : jsval A) (k : Z) :
  fill_row r sizeY d k = if (0 <=? k) && (k <? sizeY) then d else r k.
Proof.
  unfold fill_row. rewrite fill_row_fold.
  destruct (Z.leb_spec 0 k), (Z.ltb_spec k (Z.of_nat (Z.to_nat sizeY))),
    (Z.ltb_spec k sizeY); cbn [andb]; try reflexivity; lia.
Qed.

Lemma new_Array_accepts (n : Z) :
  array_size n -> @new_Array A n = Return (fun _ => undefined).
Proof.
  unfold array_size, new_Array. intros Hn.
  destruct (Z.leb_spec 0 n), (Z.leb_spec n 4294967295); cbn [andb];
    try reflexivity; lia.
Qed.

Lemma new_Array_refuses (n : Z) :
  ~ array_size n -> @new_Array A n = Throw RangeError.
Proof.
  unfold array_size, new_Array. intros Hn.
  destruct (Z.leb_spec 0 n), (Z.leb_spec n 4294967295); cbn [andb];
    try reflexivity; lia.
Qed.

Lemma array2D_row_cells (sizeY : Z) (d : jsval A) :
  array_size sizeY ->
  exists r, array2D_row sizeY d = Return r /\ forall k, r k = default_cell sizeY d k.
Proof.
  intros Hy. unfold array2D_row. rewrite (new_Array_accepts _ Hy). cbn [bind].
  eexists. split; [reflexivity |]. intros k. unfold default_cell.
  destruct d as [| | a]; try reflexivity.
  rewrite fill_row_cells. destruct ((0 <=? k) && (k <? sizeY)); reflexivity.
Qed.

Lemma array2D_rows_cells (count : nat) (sizeY : Z) (d : jsval A) :
  array_size sizeY ->
  exists rows,
    array2D_rows count sizeY d = Return rows /\
    length rows = count /\
    forall r, In r rows -> forall k, r k = default_cell sizeY d k.
Proof.
  intros Hy. induction count as [| count IH].
  - exists []. repeat split. intros r [].
  - destruct IH as [rows [E [Hl Hc]]].
    destruct (array2D_row_cells sizeY d Hy) as [r [Er Hr]].
    exists (r :: rows). cbn [array2D_rows]. rewrite Er. cbn [bind].
    rewrite E. cbn [bind]. repeat split.
    + cbn [length]. rewrite Hl. reflexivity.
    + intros r' [<- | Hin]; [exact Hr | exact (Hc r' Hin)].
Qed.

Lemma array2D_rows_refuses (count : nat) (sizeY : Z) (d : jsval A) :
  ~ array_size sizeY -> (0 < count)%nat ->
  array2D_rows count sizeY d = Throw RangeError.
Proof.
  intros Hy Hc. destruct count as [| count]; [lia |].
  cbn [array2D_rows]. unfold array2D_row.
  rewrite (new_Array_refuses _ Hy). reflexivity.
Qed.

(** *** Cells *)

Lemma row_at_inside (tb : Table2D.t A) (x : Z) :
  0 <= x < Table2D_rows tb -> exists r, Table2D.row_at tb x = Some r.
Proof.
  intros Hx. unfold Table2D.row_at, Table2D_rows in *.
  destruct (Z.ltb_spec x 0); [lia |].
  destruct (nth_error (Table2D.values tb) (Z.to_nat x)) as [r |] eqn:E.
  - exists r. reflexivity.
  - apply nth_error_None in E. lia.
Qed.

Lemma row_at_outside (tb : Table2D.t A) (x : Z) :
  ~ (0 <= x < Table2D_rows tb) -> Table2D.row_at tb x = None.
Proof.
  intros Hx. unfold Table2D.row_at, Table2D_rows in *.
  destruct (Z.ltb_spec x 0); [reflexivity |].
  apply nth_error_None. lia.
Qed.

Lemma get_inside (tb : Table2D.t A) (x y : Z) :
  0 <= x < Table2D_rows tb ->
  Table2D.get tb x y = Return (Table2D_cell tb x y).
Proof.
  intros Hx. destruct (row_at_inside tb x Hx) as [r E].
  unfold Table2D.get, Table2D_cell. rewrite E. reflexivity.
Qed.

Lemma get_outside (tb : Table2D.t A) (x y : Z) :
  ~ (0 <= x < Table2D_rows tb) -> Table2D.get tb x y = Throw TypeError.
Proof.
  intros Hx. unfold Table2D.get. rewrite (row_at_outside tb x Hx). reflexivity.
Qed.

Lemma get_as_cell (tb : Table2D.t A) (x y : Z) :
  Table2D.get tb x y
  = if (0 <=? x) && (x <? Table2D_rows tb) then Return (Table2D_cell tb x y)
    else Throw TypeError.
Proof.
  destruct (Z.leb_spec 0 x), (Z.ltb_spec x (Table2D_rows tb)); cbn [andb];
    first [apply get_inside; lia | apply get_outside; lia].
Qed.

Lemma replace_row_length (rows : list (row A)) (x : nat) (r : row A) :
  length (Table2D.replace_row rows x r) = length rows.
Proof.
  revert x. induction rows as [| r0 rows IH]; intros x; [reflexivity |].
  destruct x as [| x]; cbn; [reflexivity |]. rewrite IH. reflexivity.
Qed.

Lemma replace_row_same (rows : list (row A)) (x : nat) (r : row A) :
  (x < length rows)%nat -> nth_error (Table2D.replace_row rows x r) x = Some r.
Proof.
  revert x. induction rows as [| r0 rows IH]; intros x Hx; cbn in Hx; [lia |].
  destruct x as [| x]; cbn; [reflexivity |]. apply IH. lia.
Qed.

Lemma replace_row_other (rows : list (row A)) (x x' : nat) (r : row A) :
  x' <> x -> nth_error (Table2D.replace_row rows x r) x' = nth_error rows x'.
Proof.
  revert x x'. induction rows as [| r0 rows IH]; intros x x' Hx; [reflexivity |].
  destruct x as [| x], x' as [| x']; cbn; try reflexivity; try lia.
  apply IH. lia.
Qed.

Lemma put_inside (tb : Table2D.t A) (x y : Z) (v : jsval A) :
  0 <= x < Table2D_rows tb ->
  exists tb',
    Table2D.put tb x y v = Return tb' /\
    Table2D.xSize tb' = Table2D.xSize tb /\
    Table2D.ySize tb' = Table2D.ySize tb /\
    Table2D_rows tb' = Table2D_rows tb /\
    Table2D_cell tb' x y = v /\
    forall x' y', x' <> x \/ y' <> y ->
                  Table2D_cell tb' x' y' = Table2D_cell tb x' y'.
Proof.
  intros Hx. destruct (row_at_inside tb x Hx) as [r E].
  unfold Table2D.put. rewrite E. eexists. split; [reflexivity |].
  unfold Table2D_rows in *. cbn [Table2D.xSize Table2D.ySize Table2D.values].
  rewrite replace_row_length. repeat split.
  - unfold Table2D_cell, Table2D.row_at. cbn [Table2D.values].
    destruct (Z.ltb_spec x 0); [lia |].
    rewrite replace_row_same by lia. unfold row_set. rewrite Z.eqb_refl. reflexivity.
  - intros x' y' Hne. unfold Table2D_cell, Table2D.row_at in *.
    cbn [Table2D.values].
    destruct (Z.ltb_spec x 0); [lia |].
    destruct (Z.ltb_spec x' 0); [reflexivity |].
    destruct (Z.eq_dec x' x) as [-> | Hxx].
    + rewrite replace_row_same by lia. rewrite E. unfold row_set.
      destruct (Z.eqb_spec y' y); [lia | reflexivity].
    + rewrite replace_row_other by lia. reflexivity.
Qed.

Lemma put_outside (tb : Table2D.t A) (x y : Z) (v : jsval A) :
  ~ (0 <= x < Table2D_rows tb) -> Table2D.put tb x y v = Throw TypeError.
Proof.
  intros Hx. unfold Table2D.put. rewrite (row_at_outside tb x Hx). reflexivity.
Qed.

Lemma put_throws_TypeError (tb : Table2D.t A) (x y : Z) (v : jsval A) (e : error) :
  Table2D.put tb x y v = Throw e -> e = TypeError.
Proof.
  unfold Table2D.put. destruct (Table2D.row_at tb x); congruence.
Qed.

Lemma constructor_cells (xSize ySize : Z) (d : jsval A) :
  array_size xSize -> xSize = 0 \/ array_size ySize ->
  exists tb,
    Table2D.constructor xSize ySize d = Return tb /\
    Table2D.xSize tb = xSize /\ Table2D.ySize tb = ySize /\
    Table2D_rows tb = xSize /\
    forall x y, 0 <= x < xSize -> Table2D_cell tb x y = default_cell ySize d y.
Proof.
  intros Hx Hy. unfold Table2D.constructor, array2D.
  rewrite (new_Array_accepts _ Hx). cbn [bind].
  destruct Hy as [-> | Hy].
  - cbn [Z.to_nat array2D_rows bind]. eexists. split; [reflexivity |].
    repeat split. intros x y Hxy. lia.
  - destruct (array2D_rows_cells (Z.to_nat xSize) ySize d Hy) as [rows [E [Hl Hc]]].
    rewrite E. cbn [bind]. eexists. split; [reflexivity |].
    unfold Table2D_rows. cbn [Table2D.xSize Table2D.ySize Table2D.values].
    unfold array_size in Hx. repeat split; [lia |].
    intros x y Hxy. unfold Table2D_cell, Table2D.row_at. cbn [Table2D.values].
    destruct (Z.ltb_spec x 0); [lia |].
    destruct (nth_error rows (Z.to_nat x)) as [r |] eqn:En.
    + apply Hc. exact (nth_error_In _ _ En).
    + apply nth_error_None in En. lia.
Qed.

(** *** Loops over a table *)

Lemma iterSlice_positions (S : Type) (tb : Table2D.t A) (x y width height : Z)
    (func : Z -> Z -> jsval A -> S -> completion S) (s : S) :
  Table2D.iterSlice tb x y width height func s
  = fold_left (Table2D_visit tb func) (Table2D_positions x y width height) (Return s).
Proof.
  unfold Table2D.iterSlice, Table2D_positions.
  exact (nested_loops _ _ _
           (fun acc xi yi =>
              bind acc (fun s => bind (Table2D.get tb xi yi) (fun e => func xi yi e s)))
           _ _ _).
Qed.

Lemma iter_positions (S : Type) (tb : Table2D.t A)
    (func : Z -> Z -> jsval A -> S -> completion S) (s : S) :
  Table2D.iter tb func s
  = fold_left (Table2D_visit tb func)
              (Table2D_positions 0 0 (Table2D.xSize tb) (Table2D.ySize tb)) (Return s).
Proof.
  unfold Table2D.iter, Table2D_positions.
  exact (nested_loops _ _ _
           (fun acc xi yi =>
              bind acc (fun s => bind (Table2D.get tb xi yi) (fun e => func xi yi e s)))
           _ _ _).
Qed.

(** Callbacks that return normally, over positions with a row. *)
Lemma visit_all (S : Type) (tb : Table2D.t A) (f : Z -> Z -> jsval A -> S -> S)
    (ps : list (Z * Z)) (s : S) :
  (forall p, In p ps -> 0 <= fst p < Table2D_rows tb) ->
  fold_left (Table2D_visit tb (fun x y e s => Return (f x y e s))) ps (Return s)
  = Return (fold_left
              (fun s p => f (fst p) (snd p) (Table2D_cell tb (fst p) (snd p)) s)
              ps s).
Proof.
  revert s. induction ps as [| p ps IH]; intros s Hin; [reflexivity |].
  cbn [fold_left]. unfold Table2D_visit at 2. cbn [bind].
  rewrite get_inside by (apply Hin; left; reflexivity). cbn [bind].
  apply IH. intros q Hq. apply Hin. right. exact Hq.
Qed.

(** A position without a row ends the loop with a TypeError. *)
Lemma visit_TypeError (S : Type) (tb : Table2D.t A)
    (func : Z -> Z -> jsval A -> S -> completion S)
    (ps : list (Z * Z)) (acc : completion S) :
  (forall xi yi e s err, func xi yi e s = Throw err -> err = TypeError) ->
  (forall err, acc = Throw err -> err = TypeError) ->
  acc = Throw TypeError
  \/ (exists p, In p ps /\ ~ (0 <= fst p < Table2D_rows tb)) ->
  fold_left (Table2D_visit tb func) ps acc = Throw TypeError.
Proof.
  intros Hf. revert acc. induction ps as [| p ps IH]; intros acc Hacc Hbad.
  - destruct Hbad as [E | [p [[] _]]]. exact E.
  - cbn [fold_left].
    assert (Hnext : forall err, Table2D_visit tb func acc p = Throw err -> err = TypeError).
    { intros err. unfold Table2D_visit. destruct acc as [s | e0]; cbn [bind].
      - rewrite get_as_cell.
        destruct ((0 <=? fst p) && (fst p <? Table2D_rows tb)); cbn [bind].
        + apply Hf.
        + congruence.
      - intros E. apply Hacc. exact E. }
    apply IH; [exact Hnext |].
    destruct Hbad as [E | [q [[<- | Hq] Hbad]]].
    + left. rewrite E. reflexivity.
    + left. unfold Table2D_visit. destruct acc as [s | e0]; cbn [bind].
      * rewrite (get_outside tb _ _ Hbad). reflexivity.
      * rewrite (Hacc e0 eq_refl). reflexivity.
    + right. exists q. split; assumption.
Qed.

Lemma position_in_dec (p : Z * Z) (ps : list (Z * Z)) : {In p ps} + {~ In p ps}.
Proof.
  apply in_dec. intros [a b] [c d].
  destruct (Z.eq_dec a c) as [-> | Hac]; [| right; congruence].
  destruct (Z.eq_dec b d) as [-> | Hbd]; [left; reflexivity | right; congruence].
Qed.

(** The loop of [slice]: every visited cell is copied. *)
Lemma slice_loop (tb : Table2D.t A) (x y : Z) (ps : list (Z * Z)) :
  (forall p, In p ps -> 0 <= fst p < Table2D_rows tb) ->
  forall sl : Table2D.t A,
    (forall p, In p ps -> 0 <= fst p - x < Table2D_rows sl) ->
    exists sl',
      fold_left
        (Table2D_visit tb (fun xi yi e sl => Table2D.put sl (xi - x) (yi - y) e))
        ps (Return sl) = Return sl' /\
      Table2D.xSize sl' = Table2D.xSize sl /\
      Table2D.ySize sl' = Table2D.ySize sl /\
      Table2D_rows sl' = Table2D_rows sl /\
      (forall i j, In (x + i, y + j) ps ->
                   Table2D_cell sl' i j = Table2D_cell tb (x + i) (y + j)) /\
      (forall i j, ~ In (x + i, y + j) ps ->
                   Table2D_cell sl' i j = Table2D_cell sl i j).
Proof.
  induction ps as [| p ps IH]; intros Htb sl Hsl.
  - exists sl. repeat split; try reflexivity. intros i j [].
  - cbn [fold_left]. unfold Table2D_visit at 2. cbn [bind].
    rewrite get_inside by (apply Htb; left; reflexivity). cbn [bind].
    destruct (put_inside sl (fst p - x) (snd p - y)
                (Table2D_cell tb (fst p) (snd p)) (Hsl p (or_introl eq_refl)))
      as [sl1 [E [Hxs [Hys [Hrows [Hsame Hother]]]]]].
    rewrite E.
    destruct (IH (fun q Hq => Htb q (or_intror Hq)) sl1) as
      [sl' [E' [Hxs' [Hys' [Hrows' [Hin Hout]]]]]].
    { intros q Hq. rewrite Hrows. apply Hsl. right. exact Hq. }
    exists sl'. split; [exact E' |].
    split; [congruence |]. split; [congruence |]. split; [congruence |].
    split.
    + intros i j Hij.
      destruct (position_in_dec (x + i, y + j) ps) as [Hps | Hps];
        [exact (Hin i j Hps) |].
      destruct Hij as [Ep | Hij]; [| contradiction].
      rewrite (Hout i j Hps).
      replace i with (fst p - x) by (rewrite Ep; cbn; lia).
      replace j with (snd p - y) by (rewrite Ep; cbn; lia).
      rewrite Hsame. rewrite Ep. cbn [fst snd].
      f_equal; lia.
    + intros i j Hij.
      rewrite (Hout i j (fun Hps => Hij (or_intror Hps))).
      apply Hother.
      destruct (Z.eq_dec i (fst p - x)) as [Ei | Ei]; [| left; exact Ei].
      destruct (Z.eq_dec j (snd p - y)) as [Ej | Ej]; [| right; exact Ej].
      exfalso. apply Hij. left. destruct p as [a b]. cbn [fst snd] in *.
      f_equal; lia.
Qed.

End Table2DFacts.

(** X21.  [new Table2D(xSize, ySize, defaultValue)] with sizes that
    [new Array] accepts has [xSize] rows; [get(x, y)] returns the default
    value for a position inside the table, [undefined] for a column
    outside, and throws a TypeError for a row outside.  With no default,
    or with [null] as the default, every cell reads [undefined].  A
    negative size is a RangeError, except [ySize] when there are no
    rows. *)
Theorem Table2D_constructor_get :
  forall (A : Type) (xSize ySize : Z) (defaultValue : jsval A),
    (array_size xSize -> xSize = 0%Z \/ array_size ySize ->
       exists tb : Table2D.t A,
         Table2D.constructor xSize ySize defaultValue = Return tb /\
         Table2D.xSize tb = xSize /\ Table2D.ySize tb = ySize /\
         Table2D_rows tb = xSize /\
         forall x y : Z,
           Table2D.get tb x y
           = if Table2D.isInRange tb x y then
               Return (match defaultValue with
                       | val _ => defaultValue
                       | _ => undefined
                       end)
             else if ((0 <=? x) && (x <? xSize))%Z then Return undefined
             else Throw TypeError) /\
    (~ array_size xSize \/ ((0 < xSize)%Z /\ ~ array_size ySize) ->
       Table2D.constructor xSize ySize defaultValue = Throw RangeError).
Proof.
  intros A xSize ySize d. split.
  - intros Hx Hy.
    destruct (constructor_cells xSize ySize d Hx Hy)
      as [tb [E [Hxs [Hys [Hrows Hcells]]]]].
    exists tb. repeat split; try assumption.
    intros x y. rewrite get_as_cell. unfold Table2D.isInRange.
    rewrite Hrows, Hxs, Hys.
    destruct (Z.leb_spec 0 x), (Z.ltb_spec x xSize); cbn [andb]; try reflexivity.
    rewrite Hcells by lia. unfold default_cell.
    destruct d as [| | a];
      destruct ((0 <=? y)%Z && (y <? ySize)%Z) eqn:Ey; cbn [andb];
      try rewrite Ey; try reflexivity;
      destruct (0 <=? y)%Z, (y <? ySize)%Z; cbn [andb] in *;
      try reflexivity; discriminate.
  - intros [Hx | [Hx Hy]]; unfold Table2D.constructor, array2D.
    + rewrite (new_Array_refuses _ Hx). reflexivity.
    + destruct (Z_le_dec xSize 4294967295) as [Hb | Hb].
      * rewrite new_Array_accepts by (unfold array_size; lia). cbn [bind].
        rewrite array2D_rows_refuses by (assumption || lia). reflexivity.
      * rewrite new_Array_refuses by (unfold array_size; lia). reflexivity.
Qed.

Lemma Table2D_constructor_get_witness :
  (exists tb : Table2D.t Z,
      Table2D.constructor 2 3 null = Return tb /\
      Table2D.get tb 1 2 = Return undefined /\
      Table2D.get tb 2 0 = Throw TypeError) /\
  Table2D.constructor (A := Z) 2 (-1) (val 7%Z) = Throw RangeError.
Proof.
  split.
  - destruct (proj1 (Table2D_constructor_get Z 2 3 null))
      as [tb [E [Hxs [Hys [_ Hget]]]]].
    + unfold array_size. lia.
    + right. unfold array_size. lia.
    + exists tb. split; [exact E |].
      pose proof (Hget 1%Z 2%Z) as H1. pose proof (Hget 2%Z 0%Z) as H2.
      unfold Table2D.isInRange in H1, H2. rewrite Hxs, Hys in H1, H2.
      split; [exact H1 | exact H2].
  - apply (proj2 (Table2D_constructor_get Z 2 (-1) (val 7%Z))).
    right. unfold array_size. lia.
Defined.

(** X22.  [put(x, y, value)] on an existing row changes the cell at
    [(x, y)] and no other: afterwards [get] returns the value there and
    what it returned before everywhere else, and the sizes are the same.
    The column is not checked (a value put outside the columns is read
    back, although [isInRange] rejects the position); on a row that does
    not exist both [put] and [get] throw a TypeError. *)
Theorem Table2D_put_get :
  forall (A : Type) (tb : Table2D.t A) (x y : Z) (value : jsval A),
    ((0 <= x < Table2D_rows tb)%Z ->
       exists tb' : Table2D.t A,
         Table2D.put tb x y value = Return tb' /\
         Table2D.xSize tb' = Table2D.xSize tb /\
         Table2D.ySize tb' = Table2D.ySize tb /\
         Table2D_rows tb' = Table2D_rows tb /\
         Table2D.get tb' x y = Return value /\
         forall x' y' : Z,
           x' <> x \/ y' <> y -> Table2D.get tb' x' y' = Table2D.get tb x' y') /\
    (~ (0 <= x < Table2D_rows tb)%Z ->
       Table2D.put tb x y value = Throw TypeError /\
       Table2D.get tb x y = Throw TypeError).
Proof.
  intros A tb x y v. split.
  - intros Hx.
    destruct (put_inside tb x y v Hx) as [tb' [E [Hxs [Hys [Hrows [Hsame Hother]]]]]].
    exists tb'. repeat split; try assumption.
    + rewrite get_inside by (rewrite Hrows; exact Hx). rewrite Hsame. reflexivity.
    + intros x' y' Hne. rewrite !get_as_cell, Hrows, (Hother x' y' Hne). reflexivity.
  - intros Hx. split; [apply put_outside | apply get_outside]; exact Hx.
Qed.

Lemma Table2D_put_get_witness :
  exists tb tb' : Table2D.t Z,
    Table2D.constructor 2 2 (val 0%Z) = Return tb /\
    Table2D.put tb 1 5 (val 9%Z) = Return tb' /\
    Table2D.get tb' 1 5 = Return (val 9%Z) /\
    Table2D.isInRange tb' 1 5 = false /\
    Table2D.get tb' 1 1 = Return (val 0%Z).
Proof.
  destruct (@constructor_cells Z 2 2 (val 0%Z)) as [tb [E [Hxs [Hys [Hrows Hcells]]]]].
  { unfold array_size. lia. }
  { right. unfold array_size. lia. }
  destruct (proj1 (Table2D_put_get Z tb 1 5 (val 9%Z)))
    as [tb' [E' [Hxs' [Hys' [Hrows' [Hget Hother]]]]]].
  { rewrite Hrows. lia. }
  exists tb, tb'. split; [exact E |]. split; [exact E' |]. split; [exact Hget |].
  split.
  - unfold Table2D.isInRange. rewrite Hxs', Hys', Hxs, Hys. reflexivity.
  - rewrite (Hother 1%Z 1%Z) by (right; lia).
    rewrite get_inside by (rewrite Hrows; lia).
    rewrite Hcells by lia. reflexivity.
Defined.

(** X23.  [slice(x, y, width, height)] of rows that exist returns a new
    table of [width] rows whose cell [(i, j)], for [j] below [height], is
    the cell [(x + i, y + j)] of the table; columns outside the table are
    copied as [undefined] without an error.  When a row of the slice does
    not exist in the table (and the slice is not empty) [slice] throws a
    TypeError. *)
Theorem Table2D_slice_cells :
  forall (A : Type) (tb : Table2D.t A) (x y width height : Z),
    array_size width -> array_size height ->
    ((0 <= x)%Z -> (x + width <= Table2D_rows tb)%Z ->
       exists sl : Table2D.t A,
         Table2D.slice tb x y width height = Return sl /\
         Table2D.xSize sl = width /\ Table2D.ySize sl = height /\
         Table2D_rows sl = width /\
         forall i j : Z,
           Table2D.get sl i j
           = if ((0 <=? i) && (i <? width))%Z then
               Return (if ((0 <=? j) && (j <? height))%Z
                       then Table2D_cell tb (x + i) (y + j)
                       else undefined)
             else Throw TypeError) /\
    ((0 < width)%Z -> (0 < height)%Z ->
       (x < 0)%Z \/ (Table2D_rows tb < x + width)%Z ->
       Table2D.slice tb x y width height = Throw TypeError).
Proof.
  intros A tb x y width height Hw Hh.
  destruct (@constructor_cells A width height undefined Hw (or_intror Hh))
    as [sl0 [E0 [Hxs0 [Hys0 [Hrows0 Hcells0]]]]].
  unfold Table2D.slice. rewrite E0. cbn [bind]. rewrite iterSlice_positions.
  split.
  - intros Hx Hfit.
    destruct (slice_loop tb x y (Table2D_positions x y width height)) with (sl := sl0)
      as [sl [E [Hxs [Hys [Hrows [Hin Hout]]]]]].
    { intros [xi yi] Hp. apply positions_In in Hp. cbn [fst]. lia. }
    { intros [xi yi] Hp. apply positions_In in Hp. cbn [fst]. lia. }
    exists sl. split; [exact E |].
    split; [congruence |]. split; [congruence |]. split; [congruence |].
    intros i j. rewrite get_as_cell, Hrows, Hrows0.
    destruct (Z.leb_spec 0 i), (Z.ltb_spec i width); cbn [andb]; try reflexivity.
    f_equal.
    destruct (Z.leb_spec 0 j), (Z.ltb_spec j height); cbn [andb];
      first [ apply Hin; apply positions_In; lia
            | rewrite Hout by (rewrite positions_In; lia);
              rewrite Hcells0 by lia; reflexivity ].
  - intros Hw0 Hh0 Hbad. apply visit_TypeError.
    + intros xi yi e s err. apply put_throws_TypeError.
    + intros err. discriminate.
    + right. destruct Hbad as [Hneg | Hbig].
      * exists (x, y). split; [apply positions_In; lia | cbn [fst]; lia].
      * exists (x + width - 1, y)%Z. split; [apply positions_In; lia | cbn [fst]; lia].
Qed.

Lemma Table2D_slice_cells_witness :
  (exists sl : Table2D.t Z,
      Table2D.slice numbered_table 1 2 2 2 = Return sl /\
      Table2D.get sl 1 0 = Return (val 22%Z) /\
      Table2D.get sl 1 1 = Return undefined /\
      Table2D.get sl 2 0 = Throw TypeError) /\
  Table2D.slice numbered_table 2 0 2 1 = Throw TypeError.
Proof.
  assert (Hs : forall n : Z, (0 <= n <= 3)%Z -> array_size n)
    by (unfold array_size; lia).
  split.
  - destruct (proj1 (Table2D_slice_cells Z numbered_table 1 2 2 2
                       (Hs 2%Z ltac:(lia)) (Hs 2%Z ltac:(lia))))
      as [sl [Es [_ [_ [_ Hget]]]]].
    + lia.
    + vm_compute. congruence.
    + exists sl. split; [exact Es |].
      split; [exact (Hget 1%Z 0%Z) |].
      split; [exact (Hget 1%Z 1%Z) | exact (Hget 2%Z 0%Z)].
  - apply (proj2 (Table2D_slice_cells Z numbered_table 2 0 2 1
                    (Hs 2%Z ltac:(lia)) (Hs 1%Z ltac:(lia))));
      [lia | lia | right; vm_compute; reflexivity].
Defined.

(** X24.  On a table with as many rows as [xSize] says (every table made
    by the constructor, also after [put]), [iter] calls the function on
    the positions [(0, 0), (0, 1), ..., (0, ySize - 1), (1, 0), ...] in
    this order: [x] in the outer loop and [y] in the inner one, each
    position that [isInRange] accepts exactly once and no other, with the
    value [get] returns there, and throws nothing unless the function
    does. *)
Theorem Table2D_iter_visits :
  forall (A : Type) (tb : Table2D.t A),
    Table2D_rows tb = Table2D.xSize tb ->
    let visited : list (Z * Z) :=
      flat_map
        (fun x : nat =>
           map (fun y : nat => (Z.of_nat x, Z.of_nat y))
               (seq 0 (Z.to_nat (Table2D.ySize tb))))
        (seq 0 (Z.to_nat (Table2D.xSize tb))) in
    NoDup visited /\
    (forall x y : Z, In (x, y) visited <-> Table2D.isInRange tb x y = true) /\
    (forall x y : Z, In (x, y) visited ->
                     Table2D.get tb x y = Return (Table2D_cell tb x y)) /\
    forall (S : Type) (f : Z -> Z -> jsval A -> S -> S) (s : S),
      Table2D.iter tb (fun x y e s => Return (f x y e s)) s
      = Return (fold_left
                  (fun s p => f (fst p) (snd p) (Table2D_cell tb (fst p) (snd p)) s)
                  visited s).
Proof.
  intros A tb Hrows visited.
  assert (Ev : visited
               = Table2D_positions 0 0 (Table2D.xSize tb) (Table2D.ySize tb)).
  { unfold visited, Table2D_positions, Table2D.loop_indices.
    rewrite list_prod_map. reflexivity. }
  rewrite Ev. clear Ev visited.
  split; [| split; [| split]].
  - apply NoDup_product; apply loop_indices_NoDup.
  - intros x y. rewrite positions_In. unfold Table2D.isInRange.
    destruct (Z.leb_spec 0 x), (Z.ltb_spec x (Table2D.xSize tb)),
      (Z.leb_spec 0 y), (Z.ltb_spec y (Table2D.ySize tb)); cbn [andb];
      split; intros; try discriminate; try lia; reflexivity.
  - intros x y Hin. apply positions_In in Hin. apply get_inside. lia.
  - intros S f s. rewrite iter_positions. apply visit_all.
    intros [x y] Hin. apply positions_In in Hin. cbn [fst]. lia.
Qed.

Lemma Table2D_iter_visits_witness :
  Table2D.iter numbered_table (fun x y e s => Return (s ++ [(x, y)])) []
  = Return [(0, 0); (0, 1); (0, 2); (1, 0); (1, 1); (1, 2);
            (2, 0); (2, 1); (2, 2)]%Z.
Proof.
  exact (proj2 (proj2 (proj2 (Table2D_iter_visits Z numbered_table eq_refl)))
           (list (Z * Z)) (fun x y _ s => s ++ [(x, y)]) []).
Defined.
(** * Properties of the random helpers and of the rectangles *)

(** ** Random numbers *)

Section RandomExact.
Local Open Scope R_scope.

Lemma floor_bounds (x : R) : IZR (Int_part x) <= x < IZR (Int_part x) + 1.
Proof. destruct (base_Int_part x) as [H1 H2]. lra. Qed.

Lemma floor_unique (x : R) (k : Z) : IZR k <= x < IZR k + 1 -> Int_part x = k.
Proof.
  intros [H1 H2]. destruct (floor_bounds x) as [H3 H4].
  assert (Ha : IZR k < IZR (Int_part x + 1)) by (rewrite plus_IZR; lra).
  assert (Hb : IZR (Int_part x) < IZR (k + 1)) by (rewrite plus_IZR; lra).
  apply lt_IZR in Ha, Hb. lia.
Qed.

Lemma round_exact_iff (x : R) (k : Z) :
  round_exact x = IZR k <-> IZR k - / 2 <= x < IZR k + / 2.
Proof.
  unfold round_exact. split.
  - intros E. apply eq_IZR in E. subst k.
    pose proof (floor_bounds (x + / 2)). lra.
  - intros Hx. f_equal. apply floor_unique. lra.
Qed.

Lemma randFloat_exact (u min max : R) :
  randFloat u min max = min + (max - min) * u.
Proof. reflexivity. Qed.

Lemma randFloat_bounds (u min max : R) :
  0 <= u < 1 -> min <= max ->
  min <= randFloat u min max <= max.
Proof.
  intros Hu Hm. rewrite randFloat_exact.
  assert (0 <= (max - min) * u) by (apply Rmult_le_pos; lra).
  assert ((max - min) * u <= (max - min) * 1)
    by (apply Rmult_le_compat_l; lra).
  lra.
Qed.

Lemma randInt_in_range (u : R) (zmin zmax : Z) :
  0 <= u < 1 -> (zmin <= zmax)%Z ->
  exists k : Z,
    randInt round_exact u (IZR zmin) (IZR zmax) = IZR k /\ (zmin <= k <= zmax)%Z.
Proof.
  intros Hu Hz. unfold randInt, round_exact.
  set (x := randFloat u (IZR zmin) (IZR zmax)).
  assert (Hx : IZR zmin <= x <= IZR zmax)
    by (apply randFloat_bounds; [exact Hu | apply IZR_le; exact Hz]).
  exists (Int_part (x + / 2)). split; [reflexivity |].
  destruct (floor_bounds (x + / 2)) as [H1 H2].
  assert (Ha : IZR zmin < IZR (Int_part (x + / 2) + 1)) by (rewrite plus_IZR; lra).
  assert (Hb : IZR (Int_part (x + / 2)) < IZR (zmax + 1)) by (rewrite plus_IZR; lra).
  apply lt_IZR in Ha, Hb. lia.
Qed.

Lemma index_exact_integer (k : Z) :
  (0 <= k)%Z -> index_exact (IZR k) = Some (Z.to_nat k).
Proof.
  intros Hk. unfold index_exact.
  assert (E : Int_part (IZR k) = k) by (apply floor_unique; lra).
  destruct (Rle_dec 0 (IZR k)) as [_ | Hn]; [| exfalso; apply Hn, IZR_le; exact Hk].
  rewrite E. destruct (Req_dec_T (IZR k) (IZR k)) as [_ | Hn]; [reflexivity |].
  exfalso. apply Hn. reflexivity.
Qed.

End RandomExact.

(** X25.  In exact arithmetic, for a number [u] drawn in [0, 1):
    [chance(c)] is false for [c <= 0] and true for [c >= 1];
    [randFloat(min, max)] lies in [min, max) for [min < max]; and
    [randInt(min, max)], for integers [min <= max], is an integer between
    [min] and [max], both included.  The two end values are returned on
    half the share of [u] an inner value has: [min] exactly when
    [2 * (max - min) * u < 1], [max] exactly when
    [2 * (max - min) * (1 - u) <= 1]. *)
Theorem random_numbers_in_range :
  forall u : R,
    (0 <= u < 1)%R ->
    (forall c : R,
        ((c <= 0)%R -> chance u c = false) /\ ((1 <= c)%R -> chance u c = true)) /\
    (forall min max : R,
        (min < max)%R -> (min <= randFloat u min max < max)%R) /\
    (forall zmin zmax : Z,
        (zmin <= zmax)%Z ->
        exists k : Z,
          randInt round_exact u (IZR zmin) (IZR zmax) = IZR k /\
          (zmin <= k <= zmax)%Z) /\
    (forall zmin zmax : Z,
        (zmin < zmax)%Z ->
        (randInt round_exact u (IZR zmin) (IZR zmax) = IZR zmin
         <-> (2 * IZR (zmax - zmin) * u < 1)%R) /\
        (randInt round_exact u (IZR zmin) (IZR zmax) = IZR zmax
         <-> (2 * IZR (zmax - zmin) * (1 - u) <= 1)%R) /\
        (forall k : Z,
            (zmin < k < zmax)%Z ->
            (randInt round_exact u (IZR zmin) (IZR zmax) = IZR k
             <-> (2 * IZR (k - zmin) - 1 <= 2 * IZR (zmax - zmin) * u
                  < 2 * IZR (k - zmin) + 1)%R))).
Proof.
  intros u Hu. split; [| split; [| split]].
  - intros c. unfold chance. split; intros Hc.
    + apply exact_ltb_false. lra.
    + apply exact_ltb. lra.
  - intros min max Hm. rewrite randFloat_exact.
    assert (0 <= (max - min) * u)%R by (apply Rmult_le_pos; lra).
    assert ((max - min) * u < (max - min) * 1)%R
      by (apply Rmult_lt_compat_l; lra).
    lra.
  - intros zmin zmax Hz. apply randInt_in_range; assumption.
  - intros zmin zmax Hz.
    assert (Hn : (0 < IZR (zmax - zmin))%R) by (apply IZR_lt; lia).
    assert (Hnu : (0 <= IZR (zmax - zmin) * u)%R) by (apply Rmult_le_pos; lra).
    assert (Hnu1 : (IZR (zmax - zmin) * u < IZR (zmax - zmin) * 1)%R)
      by (apply Rmult_lt_compat_l; lra).
    unfold randInt. rewrite randFloat_exact. rewrite <- minus_IZR.
    split; [| split].
    + rewrite round_exact_iff. split; intros; lra.
    + rewrite round_exact_iff. rewrite (minus_IZR zmax zmin) in *.
      split; intros; lra.
    + intros k Hk. rewrite round_exact_iff. rewrite (minus_IZR k zmin).
      split; intros; lra.
Qed.

Lemma random_numbers_in_range_witness :
  chance (/ 4)%R 1%R = true /\
  (2 <= randFloat (/ 4)%R 2%R 6%R < 6)%R /\
  (exists k : Z,
      randInt round_exact (/ 4)%R (IZR 2) (IZR 6) = IZR k /\ (2 <= k <= 6)%Z).
Proof.
  assert (Hu : (0 <= / 4 < 1)%R) by lra.
  destruct (random_numbers_in_range (/ 4)%R Hu) as [Hc [Hf [Hi _]]].
  split; [apply (proj2 (Hc 1%R)); lra |].
  split; [apply Hf; lra |].
  apply (Hi 2%Z 6%Z). lia.
Defined.

(** X26.  In exact arithmetic, for a number drawn in [0, 1), [choice]
    returns an item of the list when the list is not empty, and
    [undefined] when it is empty. *)
Theorem choice_returns_an_item :
  forall (A : Type) (l : list A) (u : R),
    (0 <= u < 1)%R ->
    (l <> [] ->
       exists x : A, choice round_exact index_exact u l = Some x /\ In x l) /\
    (l = [] -> choice round_exact index_exact u l = None).
Proof.
  intros A l u Hu. split.
  - intros Hl. unfold choice.
    assert (Hlen : (0 <= Z.of_nat (length l) - 1)%Z)
      by (destruct l; [congruence | cbn [length]; lia]).
    destruct (randInt_in_range u 0 (Z.of_nat (length l) - 1) Hu Hlen)
      as [k [E Hk]].
    rewrite minus_IZR in E.
    change (lit (Z.of_nat (length l)) - 1)%js with (IZR (Z.of_nat (length l)) - 1)%R.
    change (0%js : R) with 0%R.
    rewrite E, index_exact_integer by lia.
    destruct (nth_error l (Z.to_nat k)) as [x |] eqn:En.
    + exists x. split; [reflexivity | exact (nth_error_In _ _ En)].
    + apply nth_error_None in En. lia.
  - intros ->. unfold choice.
    destruct (index_exact _) as [[| k] |]; reflexivity.
Qed.

Lemma choice_returns_an_item_witness :
  exists x : Z,
    choice round_exact index_exact (/ 2)%R [10%Z; 20%Z; 30%Z] = Some x /\
    In x [10%Z; 20%Z; 30%Z].
Proof.
  assert (Hu : (0 <= / 2 < 1)%R) by lra.
  apply (proj1 (choice_returns_an_item Z [10%Z; 20%Z; 30%Z] (/ 2)%R Hu)).
  discriminate.
Defined.

(** ** Scaling, and the tiles of a tile set *)

Section ShapesExact.
Local Open Scope R_scope.

Lemma tile_origin (image : Type) (ts : TileSet.t image R) (x y : R) :
  Rectangle.x (TileSet.boudingRect (TileSet.get ts x y))
  = x * (TileSet.xSize ts + TileSet.borderSize ts) /\
  Rectangle.y (TileSet.boudingRect (TileSet.get ts x y))
  = y * (TileSet.ySize ts + TileSet.borderSize ts).
Proof. split; reflexivity. Qed.

End ShapesExact.

(** X27.  In exact arithmetic, [scale(k)] multiplies by [k] the diameter
    and the circumference of a circle and the circumference of a
    rectangle, and by [k * k] the area of a rectangle; the value of
    [Circle.getArea], which is linear in the radius, is only multiplied by
    [k].  [Rectangle.scale] keeps the corner [(x, y)], so it moves the
    centre by [(k - 1)/2] times the size. *)
Theorem scale_factors :
  forall k : R,
    (forall c : Circle.t R,
        Circle.getDiamater (Circle.scale c k) = (k * Circle.getDiamater c)%R /\
        Circle.getCircumference (Circle.scale c k)
        = (k * Circle.getCircumference c)%R /\
        Circle.getArea (Circle.scale c k) = (k * Circle.getArea c)%R /\
        Circle.getCenter (Circle.scale c k) = Circle.getCenter c) /\
    (forall r : Rectangle.t R,
        Rectangle.getCircumference (Rectangle.scale r k)
        = (k * Rectangle.getCircumference r)%R /\
        Rectangle.getArea (Rectangle.scale r k)
        = (k * k * Rectangle.getArea r)%R /\
        Rectangle.getCenter (Rectangle.scale r k)
        = Vertex.move (Rectangle.getCenter r)
            ((k - 1) / 2 * Rectangle.width r)%R
            ((k - 1) / 2 * Rectangle.height r)%R).
Proof.
  intros k. split.
  - intros [x y r].
    unfold Circle.getDiamater, Circle.getCircumference, Circle.getArea,
      Circle.getCenter, Circle.scale.
    cbn [Circle.x Circle.y Circle.radius nmul lit exact].
    repeat split; ring.
  - intros [x y w h].
    unfold Rectangle.getCircumference, Rectangle.getArea, Rectangle.getCenter,
      Rectangle.scale, Vertex.move.
    cbn [Rectangle.x Rectangle.y Rectangle.width Rectangle.height
         Vertex.x Vertex.y nmul nadd ndiv lit exact].
    repeat split; try ring.
    f_equal; field.
Qed.

(** X28.  In exact arithmetic, for a tile set with tile sizes and border
    that are not negative, the bounding rectangles of the tiles at
    different integer positions do not overlap: from one column (row) to a
    later one there is a gap of at least [borderSize], and exactly
    [borderSize] to the next one.  A border that is omitted or 0 is 1. *)
Theorem TileSet_tiles_apart :
  forall (image : Type) (ts : TileSet.t image R),
    (0 <= TileSet.xSize ts)%R -> (0 <= TileSet.ySize ts)%R ->
    (0 <= TileSet.borderSize ts)%R ->
    forall (i j : Z) (x y : R),
      (i < j)%Z ->
      let right_edge (r : Rectangle.t R) := (Rectangle.x r + Rectangle.width r)%R in
      let lower_edge (r : Rectangle.t R) := (Rectangle.y r + Rectangle.height r)%R in
      let tile (x y : R) := TileSet.boudingRect (TileSet.get ts x y) in
      (right_edge (tile (IZR i) y) + TileSet.borderSize ts
       <= Rectangle.x (tile (IZR j) y))%R /\
      (lower_edge (tile x (IZR i)) + TileSet.borderSize ts
       <= Rectangle.y (tile x (IZR j)))%R /\
      (right_edge (tile (IZR i) y) + TileSet.borderSize ts
       = Rectangle.x (tile (IZR (i + 1)) y))%R /\
      (lower_edge (tile x (IZR i)) + TileSet.borderSize ts
       = Rectangle.y (tile x (IZR (i + 1))))%R.
Proof.
  intros image ts Hx Hy Hb i j x y Hij right_edge lower_edge tile.
  unfold right_edge, lower_edge, tile, TileSet.get.
  cbn [TileSet.boudingRect Rectangle.x Rectangle.y Rectangle.width Rectangle.height
       nmul nadd exact].
  assert (Hd : (IZR i + 1 <= IZR j)%R)
    by (rewrite <- plus_IZR; apply IZR_le; lia).
  rewrite plus_IZR.
  repeat split; try ring.
  - assert ((IZR i + 1) * (TileSet.xSize ts + TileSet.borderSize ts)
            <= IZR j * (TileSet.xSize ts + TileSet.borderSize ts))%R
      by (apply Rmult_le_compat_r; lra).
    lra.
  - assert ((IZR i + 1) * (TileSet.ySize ts + TileSet.borderSize ts)
            <= IZR j * (TileSet.ySize ts + TileSet.borderSize ts))%R
      by (apply Rmult_le_compat_r; lra).
    lra.
Qed.

Lemma TileSet_tiles_apart_witness :
  let ts : TileSet.t unit R :=
    TileSet.constructor (fun _ : unit => tt) tt 16%R 16%R None in
  TileSet.borderSize ts = 1%R /\
  (Rectangle.x (TileSet.boudingRect (TileSet.get ts (IZR 2) 0%R))
   + Rectangle.width (TileSet.boudingRect (TileSet.get ts (IZR 2) 0%R))
   + TileSet.borderSize ts
   <= Rectangle.x (TileSet.boudingRect (TileSet.get ts (IZR 5) 0%R)))%R.
Proof.
  assert (Hb : TileSet.borderSize
                 (TileSet.constructor (fun _ : unit => tt) tt 16%R 16%R None) = 1%R)
    by reflexivity.
  split; [exact Hb |].
  refine (proj1 (TileSet_tiles_apart unit
            (TileSet.constructor (fun _ : unit => tt) tt 16%R 16%R None)
            _ _ _ 2%Z 5%Z 0%R 0%R _)).
  - cbn [TileSet.xSize TileSet.constructor]. lra.
  - cbn [TileSet.ySize TileSet.constructor]. lra.
  - rewrite Hb. lra.
  - lia.
Defined.
(** * Swapping the segments in binary64 *)

Section SwapBinary64.
Local Open Scope float_scope.

Local Notation "a ~~ b" := (same_up_to_sign_of_zero a b) (at level 70).

(** The three determinants after the swap. *)

Lemma tDen_swap64 (s1 s2 : Segment.t float) :
  Prim2SF (Intersection.tDen s2 s1)
  ~~ SFopp (Prim2SF (Intersection.tDen s1 s2)).
Proof.
  unfold Intersection.tDen. cbn [nsub nmul binary64].
  rewrite !sub_spec, !mul_spec, !sub_spec.
  rewrite (SFmul_comm (SF64sub (Prim2SF (Vertex.x (Segment.start s1))) _)),
          (SFmul_comm (SF64sub (Prim2SF (Vertex.y (Segment.start s1))) _)).
  apply SFsub_swap.
Qed.

Lemma tNom_swap64 (s1 s2 : Segment.t float) :
  Prim2SF (Intersection.tNom s2 s1)
  ~~ SFopp (Prim2SF (Intersection.uNom s1 s2)).
Proof.
  unfold Intersection.tNom, Intersection.uNom. cbn [nsub nmul nneg binary64].
  rewrite opp_spec, SFopp_involutive.
  rewrite !sub_spec, !mul_spec, !sub_spec.
  set (ax := Prim2SF (Vertex.x (Segment.start s1))).
  set (ay := Prim2SF (Vertex.y (Segment.start s1))).
  set (bx := Prim2SF (Vertex.x (Segment.end_ s1))).
  set (by_ := Prim2SF (Vertex.y (Segment.end_ s1))).
  set (cx := Prim2SF (Vertex.x (Segment.start s2))).
  set (cy := Prim2SF (Vertex.y (Segment.start s2))).
  set (P := SF64sub ax bx). set (R := SF64sub ay by_).
  set (U := SF64sub ax cx). set (V := SF64sub ay cy).
  apply sim_trans
    with (SF64sub (SF64mul (SFopp U) R) (SF64mul (SFopp V) P)).
  { apply sim_sub; (apply sim_mul; [apply SFsub_swap | apply sim_refl]). }
  rewrite !SFmul_opp_l.
  apply sim_trans with (SFopp (SF64sub (SF64mul U R) (SF64mul V P)));
    [apply SFsub_opp_opp |].
  apply sim_sym. rewrite (SFmul_comm P V), (SFmul_comm R U).
  apply SFsub_swap.
Qed.

Lemma uNom_swap64 (s1 s2 : Segment.t float) :
  Prim2SF (Intersection.uNom s2 s1)
  ~~ SFopp (Prim2SF (Intersection.tNom s1 s2)).
Proof.
  unfold Intersection.tNom, Intersection.uNom. cbn [nsub nmul nneg binary64].
  rewrite opp_spec.
  rewrite !sub_spec, !mul_spec, !sub_spec.
  set (ax := Prim2SF (Vertex.x (Segment.start s1))).
  set (ay := Prim2SF (Vertex.y (Segment.start s1))).
  set (cx := Prim2SF (Vertex.x (Segment.start s2))).
  set (cy := Prim2SF (Vertex.y (Segment.start s2))).
  set (dx := Prim2SF (Vertex.x (Segment.end_ s2))).
  set (dy := Prim2SF (Vertex.y (Segment.end_ s2))).
  set (Q := SF64sub cy dy). set (S := SF64sub cx dx).
  set (U := SF64sub ax cx). set (V := SF64sub ay cy).
  apply sim_opp.
  apply sim_trans
    with (SF64sub (SF64mul S (SFopp V)) (SF64mul Q (SFopp U))).
  { apply sim_sub; (apply sim_mul; [apply sim_refl | apply SFsub_swap]). }
  rewrite !SFmul_opp_r.
  apply sim_trans with (SFopp (SF64sub (SF64mul S V) (SF64mul Q U)));
    [apply SFsub_opp_opp |].
  apply sim_sym. rewrite (SFmul_comm U Q), (SFmul_comm V S).
  apply SFsub_swap.
Qed.

Lemma parallel_swap64 (s1 s2 : Segment.t float) :
  (Intersection.tDen s2 s1 =? 0) = (Intersection.tDen s1 s2 =? 0).
Proof.
  rewrite !eqb_spec, SF_zero.
  rewrite (sim_eqb _ _ _ (tDen_swap64 s1 s2)). apply SFeqb_opp_zero.
Qed.

Lemma quotient_swap64 (n n' d d' : float) :
  Prim2SF n' ~~ SFopp (Prim2SF n) ->
  Prim2SF d' ~~ SFopp (Prim2SF d) ->
  (d =? 0) = false ->
  same_number (n' / d') (n / d).
Proof.
  intros Hn Hd Hz. unfold same_number. rewrite !div_spec.
  rewrite eqb_spec, SF_zero in Hz.
  rewrite (sim_not_zero _ _ Hd) by (rewrite SFeqb_opp_zero; exact Hz).
  apply sim_trans with (SF64div (SFopp (Prim2SF n)) (SFopp (Prim2SF d)));
    [apply sim_div_l; exact Hn |].
  rewrite SFdiv_opp_opp. apply sim_refl.
Qed.

End SwapBinary64.

(** X29.  In binary64, for all segments (whatever their coordinates,
    infinities and NaN included), swapping the arguments of
    [Intersection.segments] gives the same [parallel] and the same
    [intersect], and swaps [t] and [u] up to the sign of a zero; so
    [Collision.segments] is symmetric as the engine computes it. *)
Theorem segments_swap_binary64 :
  forall s1 s2 : Segment.t float,
    let r12 := Intersection.segments s1 s2 in
    let r21 := Intersection.segments s2 s1 in
    Intersection.parallel r21 = Intersection.parallel r12 /\
    Intersection.intersect r21 = Intersection.intersect r12 /\
    same_field (Intersection.t r21) (Intersection.u r12) /\
    same_field (Intersection.u r21) (Intersection.t r12) /\
    Collision.segments s2 s1 = Collision.segments s1 s2.
Proof.
  intros s1 s2.
  assert (Hflags :
    Intersection.parallel (Intersection.segments s2 s1)
    = Intersection.parallel (Intersection.segments s1 s2) /\
    Intersection.intersect (Intersection.segments s2 s1)
    = Intersection.intersect (Intersection.segments s1 s2) /\
    same_field (Intersection.t (Intersection.segments s2 s1))
               (Intersection.u (Intersection.segments s1 s2)) /\
    same_field (Intersection.u (Intersection.segments s2 s1))
               (Intersection.t (Intersection.segments s1 s2))).
  { unfold Intersection.segments.
    change (@neqb float binary64) with PrimFloat.eqb.
    change (@lit float binary64 0) with 0%float.
    rewrite (parallel_swap64 s1 s2).
    destruct (Intersection.tDen s1 s2 =? 0)%float eqn:Hz;
      cbn [Intersection.parallel Intersection.intersect Intersection.t
           Intersection.u same_field];
      [repeat split |].
    assert (Hz' : (Intersection.tDen s2 s1 =? 0)%float = false)
      by (rewrite parallel_swap64; exact Hz).
    assert (Ht : same_number
                   (Intersection.tNom s2 s1 / Intersection.tDen s2 s1)%float
                   (Intersection.uNom s1 s2 / Intersection.tDen s1 s2)%float)
      by (apply quotient_swap64;
          [apply tNom_swap64 | apply tDen_swap64 | exact Hz]).
    assert (Hu : same_number
                   (Intersection.uNom s2 s1 / Intersection.tDen s2 s1)%float
                   (Intersection.tNom s1 s2 / Intersection.tDen s1 s2)%float)
      by (apply quotient_swap64;
          [apply uNom_swap64 | apply tDen_swap64 | exact Hz]).
    cbn [ndiv binary64].
    split; [reflexivity |]. split; [| split; assumption].
    rewrite (between_same _ _ _ _ Ht), (between_same _ _ _ _ Hu).
    apply andb_comm. }
  cbv zeta. destruct Hflags as [Hp [Hi [Ht Hu]]].
  repeat split; try assumption.
Qed.
